(** * Volume-limited lake filling: a shallow embedding of
      [landlab/components/lake_fill/lake_fill_with_flux.py]

    Conventions of the embedding.
    - Python/NumPy floats are modelled as exact rationals [Q]; a division
      whose divisor is zero is the failure [ZeroDivisionError] (what Python
      floats raise; NumPy scalars give inf or nan instead, which the
      rationals do not have).
    - Node ids, lake ids and ownership codes are integers [Z]; NumPy arrays
      are lists read and written with Python's index rule (a negative index
      counts from the end, anything else out of range is [IndexError]).
    - The per-lake dictionaries are finite maps [gmap Z _]; reading a
      missing key is [KeyError].
    - Mutation is explicit state passing through the record [State]; a
      failing call returns the failure and no state.
    - The [print] calls of the source produce no state change and are left
      out. *)

From Stdlib Require Import ZArith QArith Qabs Lia Lqa List Bool.
From stdpp Require Import base option list gmap fin_maps.

Local Open Scope Z_scope.

(** ** Failures and the result monad *)

Inductive exn : Type :=
| AssertionError
| KeyError
| IndexError
| ZeroDivisionError
| OutOfFuel.

Inductive result (A : Type) : Type :=
| Ok (a : A)
| Err (e : exn).
Arguments Ok {A} a.
Arguments Err {A} e.

#[global] Instance result_ret : MRet result := fun _ a => Ok a.
#[global] Instance result_bind : MBind result := fun _ _ k m =>
  match m with
  | Ok a => k a
  | Err e => Err e
  end.

Definition of_option {A : Type} (e : exn) (o : option A) : result A :=
  match o with
  | Some a => Ok a
  | None => Err e
  end.

(** ** Python containers *)

(** [a[i]] on a sequence of length [n]: the position read, if any. *)
Definition py_index (n : nat) (i : Z) : option nat :=
  if (0 <=? i) && (i <? Z.of_nat n) then Some (Z.to_nat i)
  else if (- Z.of_nat n <=? i) && (i <? 0) then Some (Z.to_nat (Z.of_nat n + i))
  else None.

Definition arr_get {A : Type} (a : list A) (i : Z) : result A :=
  k ← of_option IndexError (py_index (length a) i);
  of_option IndexError (a !! k).

Definition arr_set {A : Type} (a : list A) (i : Z) (v : A) : result (list A) :=
  k ← of_option IndexError (py_index (length a) i);
  Ok (<[k := v]> a).

(** [d[k]] on a dictionary. *)
Definition dict_get {V : Type} (d : gmap Z V) (k : Z) : result V :=
  of_option KeyError (d !! k).

(** [d.pop(k)]. *)
Definition dict_pop {V : Type} (d : gmap Z V) (k : Z) : result (V * gmap Z V) :=
  v ← dict_get d k ; Ok (v, delete k d).

(** ** Rational comparisons as the booleans Python computes *)

Definition Qltb (x y : Q) : bool := negb (Qle_bool y x).
Definition Qzerob (x : Q) : bool := Qeq_bool x 0.

(** ** The lake-boundary queue *)

(** Modelled from the spec: the class [StablePriorityQueue] is imported from
    [landlab.components.lake_fill] and is not part of this source file. The
    specification describes it as an ordered frontier of candidate nodes,
    lowest elevation next, that supports merging two queues into one. The
    engine is written against this interface: [spq_empty] stands for the
    constructor, and the operations the source calls are [add_task],
    [pop_task], [merge_queues] and [tasks_currently_in_queue]. *)
Class StablePriorityQueue (Qu : Type) : Type := {
  spq_empty : Qu;
  add_task : Z → Q → Qu → Qu;
  pop_task : Qu → result (Z * Qu);
  merge_queues : Qu → Qu → Qu;
  tasks_currently_in_queue : Qu → list Z
}.

(** Modelled from the spec: a queue as the list of its (priority, task)
    entries, lowest priority first, entries of equal priority in insertion
    order. The specification calls the frontier a set of nodes, so a task
    sits in a queue at most once: adding a task that is already queued
    replaces its entry. Popping an empty queue is a [KeyError]; merging
    adds the entries of the second queue to the first, in order. *)
Module ListQueue.

Definition t : Type := list (Q * Z).

Fixpoint insert (task : Z) (priority : Q) (q : t) : t :=
  match q with
  | [] => [(priority, task)]
  | (p, x) :: q' =>
      if Qltb priority p then (priority, task) :: (p, x) :: q'
      else (p, x) :: insert task priority q'
  end.

Definition remove (task : Z) (q : t) : t :=
  filter (λ e, e.2 ≠ task) q.

Definition add (task : Z) (priority : Q) (q : t) : t :=
  insert task priority (remove task q).

Definition pop (q : t) : result (Z * t) :=
  match q with
  | [] => Err KeyError
  | (_, x) :: q' => Ok (x, q')
  end.

Definition merge (q1 q2 : t) : t :=
  fold_left (fun acc e => add e.2 e.1 acc) q2 q1.

Definition tasks (q : t) : list Z := map snd q.

End ListQueue.

#[global] Instance list_queue : StablePriorityQueue ListQueue.t := {
  spq_empty := [];
  add_task := ListQueue.add;
  pop_task := ListQueue.pop;
  merge_queues := ListQueue.merge;
  tasks_currently_in_queue := ListQueue.tasks
}.

(** ** The volume-balance coefficients *)

(** Each of [c] and [K] is a float or an array with one entry per node. *)
Inductive balance_term : Type :=
| Scalar (x : Q)
| PerNode (a : list Q).

Definition term_at (t : balance_term) (node : Z) : result Q :=
  match t with
  | Scalar x => Ok x
  | PerNode a => arr_get a node
  end.

Definition _get_float_water_vol_balance_terms
    (water_vol_balance_terms : balance_term * balance_term)
    (area_map : list Q) (node : Z) : result (Q * Q) :=
  cell_A ← arr_get area_map node;
  c ← term_at water_vol_balance_terms.1 node;
  K ← term_at water_vol_balance_terms.2 node;
  Ok (c * cell_A, K * cell_A)%Q.

(** ** The mutable state shared by the engine, the evaluator and the merge *)

Section Engine.

Context {Qu : Type} `{SPQ : StablePriorityQueue Qu}.

Record State : Type := mkState {
  lake_map : list Z;
  master_pit_q : Qu;
  lake_q_dict : gmap Z Qu;
  lake_water_level : gmap Z Q;
  accum_area_at_pit : gmap Z Q;
  vol_rem_at_pit : gmap Z Q;
  accum_Ks_at_pit : gmap Z Q;
  lake_is_full : gmap Z bool;
  lake_spill_node : gmap Z Z
}.

Definition set_lake_map (v : list Z) (s : State) : State :=
  mkState v (master_pit_q s) (lake_q_dict s) (lake_water_level s)
    (accum_area_at_pit s) (vol_rem_at_pit s) (accum_Ks_at_pit s)
    (lake_is_full s) (lake_spill_node s).
Definition set_master_pit_q (v : Qu) (s : State) : State :=
  mkState (lake_map s) v (lake_q_dict s) (lake_water_level s)
    (accum_area_at_pit s) (vol_rem_at_pit s) (accum_Ks_at_pit s)
    (lake_is_full s) (lake_spill_node s).
Definition set_lake_q_dict (v : gmap Z Qu) (s : State) : State :=
  mkState (lake_map s) (master_pit_q s) v (lake_water_level s)
    (accum_area_at_pit s) (vol_rem_at_pit s) (accum_Ks_at_pit s)
    (lake_is_full s) (lake_spill_node s).
Definition set_lake_water_level (v : gmap Z Q) (s : State) : State :=
  mkState (lake_map s) (master_pit_q s) (lake_q_dict s) v
    (accum_area_at_pit s) (vol_rem_at_pit s) (accum_Ks_at_pit s)
    (lake_is_full s) (lake_spill_node s).
Definition set_accum_area_at_pit (v : gmap Z Q) (s : State) : State :=
  mkState (lake_map s) (master_pit_q s) (lake_q_dict s) (lake_water_level s)
    v (vol_rem_at_pit s) (accum_Ks_at_pit s)
    (lake_is_full s) (lake_spill_node s).
Definition set_vol_rem_at_pit (v : gmap Z Q) (s : State) : State :=
  mkState (lake_map s) (master_pit_q s) (lake_q_dict s) (lake_water_level s)
    (accum_area_at_pit s) v (accum_Ks_at_pit s)
    (lake_is_full s) (lake_spill_node s).
Definition set_accum_Ks_at_pit (v : gmap Z Q) (s : State) : State :=
  mkState (lake_map s) (master_pit_q s) (lake_q_dict s) (lake_water_level s)
    (accum_area_at_pit s) (vol_rem_at_pit s) v
    (lake_is_full s) (lake_spill_node s).
Definition set_lake_is_full (v : gmap Z bool) (s : State) : State :=
  mkState (lake_map s) (master_pit_q s) (lake_q_dict s) (lake_water_level s)
    (accum_area_at_pit s) (vol_rem_at_pit s) (accum_Ks_at_pit s)
    v (lake_spill_node s).
Definition set_lake_spill_node (v : gmap Z Z) (s : State) : State :=
  mkState (lake_map s) (master_pit_q s) (lake_q_dict s) (lake_water_level s)
    (accum_area_at_pit s) (vol_rem_at_pit s) (accum_Ks_at_pit s)
    (lake_is_full s) v.

(** ** The node fill evaluator *)

(** The volume needed to lift a lake of area [A] by [z] when the
    depth-proportional terms add up to [Ktot] (lines 741-742 and 752-754). *)
Definition V_increment_to_fill (z A Ktot : Q) : Q := (z * A - Ktot * z)%Q.

(** Lines 758-771: the decision once the budget is known. The division of
    line 760 by a volume of zero is [ZeroDivisionError] here, as for
    Python floats; with NumPy floats the Python call goes on with a
    fraction that is infinite or no number, answers False, stores a budget
    of 0 and clears the spill designation. *)
Definition fill_decision (cpit : Z) (z_increment K_to_lift : Q) (s : State)
  : result (bool * Q * State) :=
  a ← dict_get (accum_area_at_pit s) cpit;
  aK ← dict_get (accum_Ks_at_pit s) cpit;
  let V := V_increment_to_fill z_increment a (K_to_lift + aK) in
  v ← dict_get (vol_rem_at_pit s) cpit;
  if Qltb v V then
    if Qzerob V then Err ZeroDivisionError
    else
      let frac := (v / V)%Q in
      let s := set_lake_spill_node (<[cpit := -1]> (lake_spill_node s)) s in
      let z_available := (frac * z_increment)%Q in
      let s := set_vol_rem_at_pit (<[cpit := 0%Q]> (vol_rem_at_pit s)) s in
      Ok (false, z_available, s)
  else
    let s := set_accum_Ks_at_pit
               (<[cpit := (aK + K_to_lift)%Q]> (accum_Ks_at_pit s)) s in
    let s := set_vol_rem_at_pit (<[cpit := (v - V)%Q]> (vol_rem_at_pit s)) s in
    Ok (true, z_increment, s).

Definition _raise_water_level (cpit cnode : Z) (area_map : list Q)
    (z_increment : Q) (water_vol_balance_terms : balance_term * balance_term)
    (flood_from_zero : bool) (s : State) : result (bool * Q * State) :=
  lm ← arr_set (lake_map s) cnode cpit;
  let s := set_lake_map lm s in
  s ← (if flood_from_zero then
         a ← dict_get (accum_area_at_pit s) cpit;
         cell_A ← arr_get area_map cnode;
         Ok (set_accum_area_at_pit
               (<[cpit := (a + cell_A)%Q]> (accum_area_at_pit s)) s)
       else Ok s);
  _ ← dict_get (accum_area_at_pit s) cpit;
  '(c_added_at_start, K_to_lift) ←
    _get_float_water_vol_balance_terms water_vol_balance_terms area_map cnode;
  if flood_from_zero then
    v ← dict_get (vol_rem_at_pit s) cpit;
    let s := set_vol_rem_at_pit
               (<[cpit := (v + c_added_at_start)%Q]> (vol_rem_at_pit s)) s in
    if Qltb (v + c_added_at_start) 0 then
      Ok (false, 0%Q,
          set_lake_spill_node (<[cpit := -1]> (lake_spill_node s)) s)
    else fill_decision cpit z_increment K_to_lift s
  else fill_decision cpit z_increment K_to_lift s.

(** ** The lake merge procedure *)

(** [np.isclose(a, b)] with NumPy's default tolerances:
    [|a - b| <= atol + rtol * |b|], [rtol = 1e-05], [atol = 1e-08]. *)
Definition rtol : Q := 1 # 100000.
Definition atol : Q := 1 # 100000000.
Definition isclose (a b : Q) : bool :=
  Qle_bool (Qabs (a - b)) (atol + rtol * Qabs b).

(** [dct[low_pit] += dct.pop(hi_pit)]: the left operand is read before the
    right one is popped, and the sum is stored last. *)
Definition dict_add_pop (dct : gmap Z Q) (low_pit hi_pit : Z)
  : result (gmap Z Q) :=
  x ← dict_get dct low_pit;
  '(y, dct) ← dict_pop dct hi_pit;
  Ok (<[low_pit := (x + y)%Q]> dct).

(** [lake_map[lake_map == hi_pit] = low_pit]. *)
Definition reassign (hi_pit low_pit : Z) (lake_map : list Z) : list Z :=
  (λ x, if x =? hi_pit then low_pit else x) <$> lake_map.

Definition _merge_two_lakes (this_pit that_pit : Z) (z_topo : list Q)
    (s : State) : result (Z * State) :=
  l_this ← dict_get (lake_water_level s) this_pit;
  l_that ← dict_get (lake_water_level s) that_pit;
  if negb (isclose l_this l_that) then Err AssertionError
  else
    z_this ← arr_get z_topo this_pit;
    z_that ← arr_get z_topo that_pit;
    let low_pit := if Qltb z_this z_that then this_pit else that_pit in
    let hi_pit := if Qltb z_this z_that then that_pit else this_pit in
    q_low ← dict_get (lake_q_dict s) low_pit;
    q_hi ← dict_get (lake_q_dict s) hi_pit;
    '(_, qd) ← dict_pop (<[low_pit := merge_queues q_low q_hi]> (lake_q_dict s))
                        hi_pit;
    let lm := reassign hi_pit low_pit (lake_map s) in
    area ← dict_add_pop (accum_area_at_pit s) low_pit hi_pit;
    vol ← dict_add_pop (vol_rem_at_pit s) low_pit hi_pit;
    Ks ← dict_add_pop (accum_Ks_at_pit s) low_pit hi_pit;
    '(_, lvl) ← dict_pop (lake_water_level s) hi_pit;
    '(_, full) ← dict_pop (lake_is_full s) hi_pit;
    '(_, spill) ← dict_pop (lake_spill_node s) hi_pit;
    Ok (low_pit,
        mkState lm (master_pit_q s) qd lvl area vol Ks full
                (<[low_pit := -1]> spill)).

(** ** The level-raising engine *)

(** The arguments the engine only reads. *)
Record Env : Type := mkEnv {
  area_map : list Q;
  init_water_surface : list Q;
  water_vol_balance_terms : balance_term * balance_term;
  neighbors : list (list Z);
  closednodes : list bool;
  drainingnodes : list bool
}.

(** How one pass through the body of the [while] loop ends: at the loop
    head again ([continue], or the end of the body with [tobreak] still
    false), or out of the loop ([break], or the end of the body with
    [tobreak] set). *)
Inductive loop_exit : Type :=
| Continue (cpit cnode : Z) (s : State)
| Break (s : State).

Section Loop.

Variable env : Env.
Variable nnodes pit_nghb_code spill_code : Z.

Local Abbreviation surf_z := (init_water_surface env).

(** Lines 434-458: one neighbour [n] of the node [cnode] just reached. *)
Definition scan_neighbor (cpit cnode : Z) (acc : State * bool) (n : Z)
  : result (State * bool) :=
  let s := acc.1 in
  closed ← arr_get (closednodes env) n;
  if (closed : bool) then Ok acc
  else
    code ← arr_get (lake_map s) n;
    if (code =? cpit) || (code =? pit_nghb_code) then Ok acc
    else
      z_n ← arr_get surf_z n;
      z_c ← arr_get surf_z cnode;
      if Qltb z_n z_c then
        lm ← arr_set (lake_map s) cnode spill_code;
        let s := set_lake_map lm s in
        let s := set_lake_spill_node (<[cpit := cnode]> (lake_spill_node s)) s in
        lvl ← dict_get (lake_water_level s) cpit;
        let s := set_master_pit_q (add_task cpit lvl (master_pit_q s)) s in
        Ok (s, true)
      else
        q ← dict_get (lake_q_dict s) cpit;
        let s := set_lake_q_dict (<[cpit := add_task n z_n q]> (lake_q_dict s)) s in
        code ← arr_get (lake_map s) n;
        lm ← arr_set (lake_map s) n (Z.max pit_nghb_code code);
        Ok (set_lake_map lm s, acc.2).

Fixpoint scan_neighbors (cpit cnode : Z) (cnghbs : list Z) (acc : State * bool)
  : result (State * bool) :=
  match cnghbs with
  | [] => Ok acc
  | n :: rest =>
      acc ← scan_neighbor cpit cnode acc n;
      scan_neighbors cpit cnode rest acc
  end.

(** Lines 387-390: the lake ran out of water. *)
Definition park_lake (cpit cnode nnode : Z) (s : State) : result State :=
  let s := set_lake_is_full (<[cpit := true]> (lake_is_full s)) s in
  q ← dict_get (lake_q_dict s) cpit;
  z_n ← arr_get surf_z nnode;
  let s := set_lake_q_dict (<[cpit := add_task nnode z_n q]> (lake_q_dict s)) s in
  q ← dict_get (lake_q_dict s) cpit;
  lvl ← dict_get (lake_water_level s) cpit;
  Ok (set_lake_q_dict (<[cpit := add_task cnode lvl q]> (lake_q_dict s)) s).

(** Lines 395-458: what follows a successful fill up to [nnode]. *)
Definition after_fill (cpit nnode : Z) (s : State) : result loop_exit :=
  code ← arr_get (lake_map s) nnode;
  if 2 * nnodes <=? code then
    '(cpit, s) ← _merge_two_lakes cpit (code - 2 * nnodes) surf_z s;
    lm ← arr_set (lake_map s) nnode cpit;
    Ok (Continue cpit nnode (set_lake_map lm s))
  else
    draining ← arr_get (drainingnodes env) nnode;
    if (draining : bool) then
      lm ← arr_set (lake_map s) nnode spill_code;
      let s := set_lake_map lm s in
      Ok (Break (set_lake_spill_node (<[cpit := nnode]> (lake_spill_node s)) s))
    else
      let cnode := nnode in
      cnghbs ← arr_get (neighbors env) cnode;
      '(s, tobreak) ← scan_neighbors cpit cnode cnghbs (s, false);
      Ok (if (tobreak : bool) then Break s else Continue cpit cnode s).

(** Lines 372-378: ask the evaluator to lift the lake to [nnode] and add
    the depth it reports to the water level. *)
Definition raise_to (cpit cnode nnode : Z) (s : State)
  : result (bool * State) :=
  code_c ← arr_get (lake_map s) cnode;
  let freshnode := (code_c <? 0) || (nnodes <=? code_c) in
  z_n ← arr_get surf_z nnode;
  lvl ← dict_get (lake_water_level s) cpit;
  let z_increment := (z_n - lvl)%Q in
  '(filled, z_increment, s) ←
    _raise_water_level cpit cnode (area_map env) z_increment
      (water_vol_balance_terms env) freshnode s;
  lvl ← dict_get (lake_water_level s) cpit;
  Ok (filled,
      set_lake_water_level
        (<[cpit := (lvl + z_increment)%Q]> (lake_water_level s)) s).

(** Lines 356-458: the body of the loop. *)
Definition raise_iteration (cpit cnode : Z) (s : State) : result loop_exit :=
  q ← dict_get (lake_q_dict s) cpit;
  '(nnode, q) ← pop_task q;
  let s := set_lake_q_dict (<[cpit := q]> (lake_q_dict s)) s in
  code ← arr_get (lake_map s) nnode;
  if (0 <=? code) && (code <? nnodes) then Ok (Continue cpit cnode s)
  else
    '(filled, s) ← raise_to cpit cnode nnode s;
    if negb filled then
      s ← park_lake cpit cnode nnode s;
      Ok (Break s)
    else after_fill cpit nnode s.

Fixpoint raise_loop (fuel : nat) (cpit cnode : Z) (s : State) : result State :=
  match fuel with
  | O => Err OutOfFuel
  | S fuel =>
      r ← raise_iteration cpit cnode s;
      match r with
      | Break s => Ok s
      | Continue cpit cnode s => raise_loop fuel cpit cnode s
      end
  end.

End Loop.

(** The engine. The [while] loop is bounded by [fuel]; running out of it is
    the outcome [OutOfFuel], which no Python run produces. *)
Definition _raise_lake_to_limit (fuel : nat) (env : Env) (current_pit : Z)
    (s : State) : result State :=
  let cpit := current_pit in
  spill ← dict_get (lake_spill_node s) cpit;
  if negb (spill =? -1) then Ok s
  else
    let nnodes := Z.of_nat (length (init_water_surface env)) in
    let pit_nghb_code := cpit + nnodes in
    let spill_code := pit_nghb_code + nnodes in
    let s := set_lake_is_full (<[cpit := false]> (lake_is_full s)) s in
    q ← dict_get (lake_q_dict s) cpit;
    '(cnode, q) ← pop_task q;
    let s := set_lake_q_dict (<[cpit := q]> (lake_q_dict s)) s in
    raise_loop env nnodes pit_nghb_code spill_code fuel cpit cnode s.

End Engine.

(** ** The public entry point *)

Module EntryPoint.

(** What the entry point reads from the grid [mg]: the number of nodes
    (the length of [mg.zeros('node')]) and [mg.cell_area_at_node]. *)
Record Grid : Type := mkGrid {
  number_of_nodes : nat;
  cell_area_at_node : list Q
}.

(** The local variables the body has built when it falls off its end (the
    Python function itself returns [None]). *)
Record Locals : Type := mkLocals {
  disch_map : list Q;
  lake_map : list Z;
  pit_nodes_in_order : list Z;
  vol_rem_at_pit : gmap Z Q;
  accum_area_at_pit : gmap Z Q;
  lake_water_level : gmap Z Q;
  lake_water_volume_balance : gmap Z Q;
  accum_Ks_at_pit : gmap Z Q;
  lake_is_full : gmap Z bool
}.

(** [a[idx]] for an integer index array [idx]. *)
Fixpoint take {A : Type} (a : list A) (idx : list Z) : result (list A) :=
  match idx with
  | [] => Ok []
  | i :: idx =>
      x ← arr_get a i;
      xs ← take a idx;
      Ok (x :: xs)
  end.

(** [np.argsort]: the positions of the keys in ascending key order, as
    an insertion sort that keeps equal keys in their original order.
    NumPy's default sort promises no order among equal keys; nothing
    proved below depends on the order this one gives them. *)
Fixpoint argsort_insert (keys : list Q) (i : Z) (sorted : list Z) : list Z :=
  match sorted with
  | [] => [i]
  | j :: rest =>
      match keys !! Z.to_nat i, keys !! Z.to_nat j with
      | Some ki, Some kj =>
          if Qltb ki kj then i :: j :: rest
          else j :: argsort_insert keys i rest
      | _, _ => i :: j :: rest
      end
  end.

Definition argsort (keys : list Q) : list Z :=
  fold_left (fun sorted i => argsort_insert keys i sorted)
            (Z.of_nat <$> seq 0 (length keys)) [].

(** The body of the [for pit, vol, A, level in zip(...)] loop. *)
Definition register_pit (l : Locals) (pit : Z) (vol A level : Q) : Locals :=
  mkLocals (disch_map l) (lake_map l) (pit_nodes_in_order l)
    (<[pit := vol]> (vol_rem_at_pit l))
    (<[pit := A]> (accum_area_at_pit l))
    (<[pit := level]> (lake_water_level l))
    (<[pit := 0%Q]> (lake_water_volume_balance l))
    (<[pit := 0%Q]> (accum_Ks_at_pit l))
    (<[pit := false]> (lake_is_full l)).

(** [zip] stops at the shortest of its arguments. *)
Fixpoint register_pits (l : Locals) (pits : list Z) (vols areas levels : list Q)
  : Locals :=
  match pits, vols, areas, levels with
  | pit :: pits, vol :: vols, A :: areas, level :: levels =>
      register_pits (register_pit l pit vol A level) pits vols areas levels
  | _, _, _, _ => l
  end.

(** Lines 53-79. The arguments [depression_outlet], [depression_nodes],
    [surface_z], [water_vol_balance_terms] and [neighbors_at_nodes] are
    never read by the body and are left out. *)
Definition fill_depression_from_pit_discharges (mg : Grid)
    (pit_nodes : list Z) (Vw_at_pits water_z : list Q) : result Locals :=
  let disch_map := repeat 0%Q (number_of_nodes mg) in
  let lake_map := repeat (-1) (number_of_nodes mg) in
  let area_map := cell_area_at_node mg in
  zsurf_pit_nodes ← take water_z pit_nodes;
  let pit_node_sort := argsort zsurf_pit_nodes in
  zwater_nodes_in_order ← take water_z pit_node_sort;
  pit_nodes_in_order ← take pit_nodes pit_node_sort;
  Vw_at_pits_in_order ← take Vw_at_pits pit_node_sort;
  areas ← take area_map pit_node_sort;
  Ok (register_pits
        (mkLocals disch_map lake_map pit_nodes_in_order ∅ ∅ ∅ ∅ ∅ ∅)
        pit_nodes_in_order Vw_at_pits_in_order areas zwater_nodes_in_order).

End EntryPoint.

(** * Observations and scenarios used to state the properties *)

Section Views.

Context {Qu : Type}.

(** Everything the per-lake dictionaries hold under one lake id. *)
Record Lake : Type := mkLake {
  lk_queue : Qu;
  lk_level : Q;
  lk_area : Q;
  lk_vol : Q;
  lk_Ks : Q;
  lk_full : bool;
  lk_spill : Z
}.

Definition lake_at (s : @State Qu) (p : Z) : option Lake :=
  q ← lake_q_dict s !! p;
  l ← lake_water_level s !! p;
  a ← accum_area_at_pit s !! p;
  v ← vol_rem_at_pit s !! p;
  k ← accum_Ks_at_pit s !! p;
  f ← lake_is_full s !! p;
  sp ← lake_spill_node s !! p;
  Some (mkLake q l a v k f sp).

(** The id [p] is a key of none of the per-lake dictionaries. *)
Definition retired (s : @State Qu) (p : Z) : Prop :=
  lake_q_dict s !! p = None ∧ lake_water_level s !! p = None ∧
  accum_area_at_pit s !! p = None ∧ vol_rem_at_pit s !! p = None ∧
  accum_Ks_at_pit s !! p = None ∧ lake_is_full s !! p = None ∧
  lake_spill_node s !! p = None.

(** What every call of the evaluator reads before line 752: the position
    written in the ownership map, the lake's area and budget, the cell area
    of the node and its two area-weighted balance terms. *)
Record EvalReads (s : @State Qu) (cpit cnode : Z) (area : list Q)
    (terms : balance_term * balance_term) (k : nat) (a v cA c K : Q)
  : Prop := {
  reads_index : py_index (length (lake_map s)) cnode = Some k;
  reads_area : accum_area_at_pit s !! cpit = Some a;
  reads_vol : vol_rem_at_pit s !! cpit = Some v;
  reads_cell : arr_get area cnode = Ok cA;
  reads_terms :
    _get_float_water_vol_balance_terms terms area cnode = Ok (c, K)
}.

(** The state in which the decision of lines 752-771 is taken: node
    [cnode] (position [k] of the ownership map) marked as owned and, on
    first contact, its cell area [cA] and constant term [c] added to the
    lake's area [a] and budget [v]. *)
Definition state_at_test (fz : bool) (cpit : Z) (k : nat) (a v cA c : Q)
    (s : @State Qu) : @State Qu :=
  let s1 := set_lake_map (<[k := cpit]> (lake_map s)) s in
  if fz then
    set_vol_rem_at_pit (<[cpit := (v + c)%Q]> (vol_rem_at_pit s))
      (set_accum_area_at_pit (<[cpit := (a + cA)%Q]> (accum_area_at_pit s)) s1)
  else s1.

End Views.

(** The lake area and the budget at the insufficiency test of line 758,
    after the first-contact updates of lines 740 and 747. *)
Definition area_at_test (flood_from_zero : bool) (a cA : Q) : Q :=
  if flood_from_zero then (a + cA)%Q else a.
Definition budget_at_test (flood_from_zero : bool) (v c : Q) : Q :=
  if flood_from_zero then (v + c)%Q else v.

(** The volume stored over the nodes owned by lake [p]: the sum of cell
    area times the depth of water above the initial water surface. *)
Fixpoint inundated_volume (p : Z) (level : Q) (lake_map : list Z)
    (area surf : list Q) : Q :=
  match lake_map, area, surf with
  | code :: lake_map, A :: area, z :: surf =>
      ((if code =? p then A * (level - z) else 0)
       + inundated_volume p level lake_map area surf)%Q
  | _, _, _ => 0%Q
  end.

(** ** The properties of the evaluator as the specification words them *)

Section EvaluatorClaims.

Context {Qu : Type}.
Local Open Scope Q_scope.

(** Partial fill: whenever the budget after the first-contact updates is
    below the volume required, the call fails, reports the budget divided
    by the volume required per unit depth, zeroes the budget and clears the
    spill designation. *)
Definition partial_fill_claim (cpit cnode : Z) (area : list Q) (z : Q)
    (terms : balance_term * balance_term) (fz : bool) (s : @State Qu) : Prop :=
  ∀ k a v aK cA c K,
    EvalReads s cpit cnode area terms k a v cA c K →
    accum_Ks_at_pit s !! cpit = Some aK →
    budget_at_test fz v c
      < V_increment_to_fill z (area_at_test fz a cA) (K + aK) →
    ∃ dz s',
      _raise_water_level cpit cnode area z terms fz s = Ok (false, dz, s') ∧
      dz == budget_at_test fz v c / (area_at_test fz a cA - (K + aK)) ∧
      vol_rem_at_pit s' !! cpit = Some 0 ∧
      lake_spill_node s' !! cpit = Some (-1)%Z.

(** Budget non-negativity: whatever the call returns, the budget it
    leaves behind is not negative. *)
Definition budget_nonneg_claim (cpit cnode : Z) (area : list Q) (z : Q)
    (terms : balance_term * balance_term) (fz : bool) (s : @State Qu) : Prop :=
  ∀ filled dz s',
    _raise_water_level cpit cnode area z terms fz s = Ok (filled, dz, s') →
    ∃ v', vol_rem_at_pit s' !! cpit = Some v' ∧ 0 <= v'.

End EvaluatorClaims.

(** The third and fifth calls of the evaluator's docstring: lake 5 on the
    3 x 3 example grid. *)
Module DocEvaluator.

Local Open Scope Q_scope.

Definition area_map : list Q := [2; 2; 2; 4; 3; 2; 1; 2; 2].

(** The state after the second call: nodes 3, 4 and 5 flooded, area 9,
    budget 33. *)
Definition before_third : @State ListQueue.t :=
  mkState [-1; -1; -1; 5; 5; 5; -1; -1; -1]%Z [] ∅ ∅
    {[5%Z := 9]} {[5%Z := 33]} {[5%Z := 0]} ∅ {[5%Z := 8%Z]}.

(** The state before the fifth call: node 6 flooded as well, area 10,
    budget 61, accumulated coefficient -3. *)
Definition before_fifth : @State ListQueue.t :=
  mkState [-1; -1; -1; 5; 5; 5; 5; -1; -1]%Z [] ∅ ∅
    {[5%Z := 10]} {[5%Z := 61]} {[5%Z := -3]} ∅ {[5%Z := 8%Z]}.

Definition per_node_terms : balance_term * balance_term :=
  (PerNode [0; 1; 2; 3; 4; 5; 6; 7; 8], PerNode (repeat 1 9)).

(** The state the third call leaves behind, with its budget of -1: what
    a resumed fill on node 6 starts from if the lake is not recharged. *)
Definition carried_deficit : @State ListQueue.t :=
  mkState [-1; -1; -1; 5; 5; 5; 5; -1; -1]%Z [] ∅ ∅
    {[5%Z := 10]} {[5%Z := -1]} {[5%Z := 0]} ∅ {[5%Z := (-1)%Z]}.

End DocEvaluator.

(** ** The merge precondition as the specification words it *)

(** Merging two lakes whose water levels are not equal fails on the
    assertion. *)
Definition merge_rejects_unequal_claim {Qu : Type} `{StablePriorityQueue Qu}
    (this_pit that_pit : Z) (z_topo : list Q) (s : @State Qu) : Prop :=
  ∀ l_this l_that,
    lake_water_level s !! this_pit = Some l_this →
    lake_water_level s !! that_pit = Some l_that →
    ¬ (l_this == l_that)%Q →
    _merge_two_lakes this_pit that_pit z_topo s = Err AssertionError.

(** Two lakes on a three-node strip, pits 0 and 2 around node 1. *)
Module TwoLakes.

Local Open Scope Q_scope.

Definition z_topo : list Q := [0; 2; 1].

(** Lake 0 stands at 2, lake 2 at [level2]. *)
Definition state (level2 : Q) : @State ListQueue.t :=
  mkState [0; 6; 2]%Z []
    {[0%Z := [(5, 7%Z)]; 2%Z := [(3, 8%Z); (6, 9%Z)]]}
    {[0%Z := 2; 2%Z := level2]}
    {[0%Z := 1; 2%Z := 4]}
    {[0%Z := 8; 2%Z := 3]}
    {[0%Z := -1; 2%Z := -2]}
    {[0%Z := false; 2%Z := true]}
    {[0%Z := 1%Z; 2%Z := (-1)%Z]}.

(** One part in a thousand million above 2. *)
Definition nearly_two : Q := 2000000001 # 1000000000.

End TwoLakes.

(** ** The properties of the engine as the specification words them *)

Section EngineClaims.

Context {Qu : Type} `{StablePriorityQueue Qu}.
Local Open Scope Q_scope.

(** Monotonic level: a call of the engine on lake [p] that returns leaves
    the level of [p] at least where it was. *)
Definition level_monotone_claim (fuel : nat) (env : Env) (p : Z)
    (s : @State Qu) : Prop :=
  ∀ s' l l',
    _raise_lake_to_limit fuel env p s = Ok s' →
    lake_water_level s !! p = Some l →
    lake_water_level s' !! p = Some l' →
    l <= l'.

(** The volume lake [p] holds above the initial water surface. *)
Definition stored_volume (env : Env) (p : Z) (s : @State Qu) : option Q :=
  level ← lake_water_level s !! p;
  Some (inundated_volume p level (lake_map s) (area_map env)
          (init_water_surface env)).

End EngineClaims.

(** The 6 x 6 grid of the engine's docstring, cell area 2, pits 7, 10 and
    27, node 34 closed, node 29 draining. *)
Module DocEngine.

Local Open Scope Q_scope.

Definition init_water_surface : list Q :=
  [ 0;  0;  0;  0;  0;  0;
    0; -9; -6;  0; -8;  0;
    0; -8; -5; -6; -7;  0;
    0; -7;  0; -7;  0;  0;
    0;  0;  0; -8; -3; -1;
    0;  0;  0;  0; -2;  0].

(** [grid.adjacent_nodes_at_node]: east, north, west, south; -1 where
    the grid ends. *)
Definition neighbors : list (list Z) :=
  [[1; 6; -1; -1]; [2; 7; 0; -1]; [3; 8; 1; -1];
     [4; 9; 2; -1]; [5; 10; 3; -1]; [-1; 11; 4; -1];
     [7; 12; -1; 0]; [8; 13; 6; 1]; [9; 14; 7; 2];
     [10; 15; 8; 3]; [11; 16; 9; 4]; [-1; 17; 10; 5];
     [13; 18; -1; 6]; [14; 19; 12; 7]; [15; 20; 13; 8];
     [16; 21; 14; 9]; [17; 22; 15; 10]; [-1; 23; 16; 11];
     [19; 24; -1; 12]; [20; 25; 18; 13]; [21; 26; 19; 14];
     [22; 27; 20; 15]; [23; 28; 21; 16]; [-1; 29; 22; 17];
     [25; 30; -1; 18]; [26; 31; 24; 19]; [27; 32; 25; 20];
     [28; 33; 26; 21]; [29; 34; 27; 22]; [-1; 35; 28; 23];
     [31; -1; -1; 24]; [32; -1; 30; 25]; [33; -1; 31; 26];
     [34; -1; 32; 27]; [35; -1; 33; 28]; [-1; -1; 34; 29]]%Z.

Definition env : Env :=
  mkEnv (repeat 2 36) init_water_surface (Scalar 0, Scalar 0) neighbors
    (<[34%nat := true]> (repeat false 36))
    (<[29%nat := true]> (repeat false 36)).

(** The docstring's set-up loop for one pit: every neighbour is queued
    at its elevation and coded [cpit + 36] in the ownership map. *)
Definition preload (cpit : Z) (s : @State ListQueue.t) : @State ListQueue.t :=
  let nghbs := default [] (neighbors !! Z.to_nat cpit) in
  let q :=
    fold_left
      (fun q n => add_task n (default 0 (init_water_surface !! Z.to_nat n)) q)
      nghbs (default [] (lake_q_dict s !! cpit)) in
  let lm :=
    fold_left (fun lm n => <[Z.to_nat n := (cpit + 36)%Z]> lm) nghbs
      (lake_map s) in
  set_lake_map lm (set_lake_q_dict (<[cpit := q]> (lake_q_dict s)) s).

(** The set-up loop the docstring uses for pit 27: as above, but a
    neighbour keeps its code when that is the larger one. *)
Definition preload_max (cpit : Z) (s : @State ListQueue.t)
  : @State ListQueue.t :=
  let nghbs := default [] (neighbors !! Z.to_nat cpit) in
  let q :=
    fold_left
      (fun q n => add_task n (default 0 (init_water_surface !! Z.to_nat n)) q)
      nghbs (default [] (lake_q_dict s !! cpit)) in
  let lm :=
    fold_left
      (fun lm n =>
         <[Z.to_nat n := Z.max (cpit + 36) (default 0 (lm !! Z.to_nat n))]> lm)%Z
      nghbs (lake_map s) in
  set_lake_map lm (set_lake_q_dict (<[cpit := q]> (lake_q_dict s)) s).

(** [vol_rem_at_pit[cpit] = vol]: the driver recharges a lake. *)
Definition recharge (cpit : Z) (vol : Q) (s : @State ListQueue.t)
  : @State ListQueue.t :=
  set_vol_rem_at_pit (<[cpit := vol]> (vol_rem_at_pit s)) s.

(** One more call of the engine, on the state a previous call left and
    the driver prepared. *)
Definition then_raise (cpit : Z)
    (prepare : @State ListQueue.t → @State ListQueue.t)
    (r : result (@State ListQueue.t)) : result (@State ListQueue.t) :=
  s ← r; _raise_lake_to_limit 10 env cpit (prepare s).

Definition start : @State ListQueue.t :=
  mkState (repeat (-1)%Z 36) []
    {[7%Z := [(-9, 7%Z)]; 10%Z := [(-8, 10%Z)]; 27%Z := [(-8, 27%Z)]]}
    {[7%Z := -9; 10%Z := -8; 27%Z := -8]}
    {[7%Z := 0; 10%Z := 0; 27%Z := 0]}
    {[7%Z := 100; 10%Z := 4; 27%Z := 100]}
    {[7%Z := 0; 10%Z := 0; 27%Z := 0]}
    {[7%Z := false; 10%Z := false; 27%Z := false]}
    {[7%Z := (-1)%Z; 10%Z := (-1)%Z; 27%Z := (-1)%Z]}.

(** The docstring's calls in sequence: lake 7, lake 10, lake 10 again
    after a recharge to 100, lake 10 once more, and lake 27. *)
Definition first_call : result (@State ListQueue.t) :=
  then_raise 7 (preload 7) (Ok start).
Definition second_call : result (@State ListQueue.t) :=
  then_raise 10 (preload 10) first_call.
Definition third_call : result (@State ListQueue.t) :=
  then_raise 10 (recharge 10 100) second_call.
Definition fourth_call : result (@State ListQueue.t) :=
  then_raise 10 id third_call.
Definition last_call : result (@State ListQueue.t) :=
  then_raise 27 (preload_max 27) fourth_call.

End DocEngine.

(** Two pits on a strip of five nodes: pit 0 at elevation 0, a sill at
    node 1 (elevation 2), pit 2 at elevation 1, then node 3 at 5 and node
    4 at 4. Cell area 1, no losses, nothing closed, nothing draining.
    Both queues are loaded with the pit and its neighbours. *)
Module Strip.

Local Open Scope Q_scope.

Definition env : Env :=
  mkEnv (repeat 1 5) [0; 2; 1; 5; 4] (Scalar 0, Scalar 0)
    [[1; -1]; [2; 0]; [3; 1]; [4; 2]; [-1; 3]]%Z
    (repeat false 5) (repeat false 5).

(** Lake 0 is given 10 units of water, lake 2 is given 4. *)
Definition start : @State ListQueue.t :=
  mkState [-1; 7; -1; 7; -1]%Z []
    {[0%Z := [(0, 0%Z); (2, 1%Z)];
      2%Z := [(1, 2%Z); (2, 1%Z); (5, 3%Z)]]}
    {[0%Z := 0; 2%Z := 1]}
    {[0%Z := 0; 2%Z := 0]}
    {[0%Z := 10; 2%Z := 4]}
    {[0%Z := 0; 2%Z := 0]}
    {[0%Z := false; 2%Z := false]}
    {[0%Z := (-1)%Z; 2%Z := (-1)%Z]}.

End Strip.

(** Two pits that share an outlet: a 3 x 5 raster with eight neighbours per
    node. The core nodes are pit 6 (elevation 0), a ridge 7 (elevation 5)
    and pit 8 (elevation 1); the boundary node 2 (elevation 2) is the open,
    draining outlet and touches both pits diagonally; every other boundary
    node is closed. Cell area 1, no losses, 3 units of water per pit. *)
Module SharedOutlet.

Local Open Scope Q_scope.

Definition init_water_surface : list Q :=
  [9; 9; 2; 9; 9;
   9; 0; 5; 1; 9;
   9; 9; 9; 9; 9].

(** East, north, west, south, then the four diagonals. *)
Definition neighbors : list (list Z) :=
  [[1; 5; -1; -1; 6; -1; -1; -1];
     [2; 6; 0; -1; 7; 5; -1; -1];
     [3; 7; 1; -1; 8; 6; -1; -1];
     [4; 8; 2; -1; 9; 7; -1; -1];
     [-1; 9; 3; -1; -1; 8; -1; -1];
     [6; 10; -1; 0; 11; -1; -1; 1];
     [7; 11; 5; 1; 12; 10; 0; 2];
     [8; 12; 6; 2; 13; 11; 1; 3];
     [9; 13; 7; 3; 14; 12; 2; 4];
     [-1; 14; 8; 4; -1; 13; 3; -1];
     [11; -1; -1; 5; -1; -1; -1; 6];
     [12; -1; 10; 6; -1; -1; 5; 7];
     [13; -1; 11; 7; -1; -1; 6; 8];
     [14; -1; 12; 8; -1; -1; 7; 9];
     [-1; -1; 13; 9; -1; -1; 8; -1]]%Z.

Definition closednodes : list bool :=
  [true; true; false; true; true;
   true; false; false; false; true;
   true; true; true; true; true].

Definition env : Env :=
  mkEnv (repeat 1 15) init_water_surface (Scalar 0, Scalar 0) neighbors
    closednodes (<[2%nat := true]> (repeat false 15)).

(** Each queue holds the pit and its open neighbours, the outlet 2 and
    the ridge 7, which carry the candidate code of the larger id. *)
Definition start : @State ListQueue.t :=
  mkState (<[2%nat := 23%Z]> (<[7%nat := 23%Z]> (repeat (-1)%Z 15))) []
    {[6%Z := [(0, 6%Z); (2, 2%Z); (5, 7%Z)];
      8%Z := [(1, 8%Z); (2, 2%Z); (5, 7%Z)]]}
    {[6%Z := 0; 8%Z := 1]}
    {[6%Z := 0; 8%Z := 0]}
    {[6%Z := 3; 8%Z := 3]}
    {[6%Z := 0; 8%Z := 0]}
    {[6%Z := false; 8%Z := false]}
    {[6%Z := (-1)%Z; 8%Z := (-1)%Z]}.

End SharedOutlet.

(** One pit that loses 5 units of volume per unit of flooded area: a
    strip of three nodes at elevations 0, 2 and 3, cell area 1, 3 units of
    water. *)
Module Deficit.

Local Open Scope Q_scope.

Definition env : Env :=
  mkEnv (repeat 1 3) [0; 2; 3] (Scalar (-5), Scalar 0)
    [[1; -1]; [2; 0]; [-1; 1]]%Z (repeat false 3) (repeat false 3).

Definition start : @State ListQueue.t :=
  mkState [-1; 3; -1]%Z []
    {[0%Z := [(0, 0%Z); (2, 1%Z)]]}
    {[0%Z := 0]} {[0%Z := 0]} {[0%Z := 3]} {[0%Z := 0]}
    {[0%Z := false]} {[0%Z := (-1)%Z]}.

End Deficit.

(** One pit in the middle of a 3 x 3 grid: the water surface stands at 1
    over the pit (node 4) and at 5 elsewhere; the cell area is 4 at the
    core node and 0 on the perimeter. *)
Module OnePit.

Local Open Scope Q_scope.

Definition mg : EntryPoint.Grid :=
  EntryPoint.mkGrid 9 [0; 0; 0; 0; 4; 0; 0; 0; 0].
Definition pit_nodes : list Z := [4]%Z.
Definition Vw_at_pits : list Q := [10].
Definition water_z : list Q := [5; 5; 5; 5; 1; 5; 5; 5; 5].

End OnePit.

(** The states the scenarios pass through. *)
Module Trace.

Local Open Scope Q_scope.

(** [Strip] after the first fill of the call on lake 0 (lines 372-378):
    node 0 flooded, the level lifted from 0 to the sill at 2. *)
Definition strip_first_fill : @State ListQueue.t :=
  mkState [0; 7; -1; 7; -1]%Z []
    {[0%Z := [(0, 0%Z); (2, 1%Z)];
      2%Z := [(1, 2%Z); (2, 1%Z); (5, 3%Z)]]}
    {[0%Z := 2; 2%Z := 1]}
    {[0%Z := 1; 2%Z := 0]}
    {[0%Z := 8; 2%Z := 4]}
    {[0%Z := 0; 2%Z := 0]}
    {[0%Z := false; 2%Z := false]}
    {[0%Z := (-1)%Z; 2%Z := (-1)%Z]}.

(** [Strip] after the call on lake 0: node 0 flooded up to the sill,
    node 1 claimed as the spill of lake 0 (code 0 + 2 * 5). *)
Definition strip_after_0 : @State ListQueue.t :=
  mkState [0; 10; -1; 7; -1]%Z [(2, 0%Z)]
    {[0%Z := []; 2%Z := [(1, 2%Z); (2, 1%Z); (5, 3%Z)]]}
    {[0%Z := 2; 2%Z := 1]}
    {[0%Z := 1; 2%Z := 0]}
    {[0%Z := 8; 2%Z := 4]}
    {[0%Z := 0; 2%Z := 0]}
    {[0%Z := false; 2%Z := false]}
    {[0%Z := 1%Z; 2%Z := (-1)%Z]}.

(** [Strip] after the call on lake 2: merged into lake 0 at the sill and
    lifted to node 3. *)
Definition strip_after_2 : @State ListQueue.t :=
  mkState [0; 0; 0; 12; -1]%Z [(5, 0%Z)]
    {[0%Z := []]} {[0%Z := 5]} {[0%Z := 2]} {[0%Z := 5]} {[0%Z := 0]}
    {[0%Z := false]} {[0%Z := 3%Z]}.

(** [SharedOutlet] after the call on lake 6: stopped at the outlet. *)
Definition outlet_after_6 : @State ListQueue.t :=
  mkState (<[2%nat := 36%Z]> (<[6%nat := 6%Z]> (<[7%nat := 23%Z]>
             (repeat (-1)%Z 15)))) []
    {[6%Z := [(5, 7%Z)]; 8%Z := [(1, 8%Z); (2, 2%Z); (5, 7%Z)]]}
    {[6%Z := 2; 8%Z := 1]}
    {[6%Z := 1; 8%Z := 0]}
    {[6%Z := 1; 8%Z := 3]}
    {[6%Z := 0; 8%Z := 0]}
    {[6%Z := false; 8%Z := false]}
    {[6%Z := 2%Z; 8%Z := (-1)%Z]}.

(** [SharedOutlet] after the call on lake 8. *)
Definition outlet_after_8 : @State ListQueue.t :=
  mkState (<[2%nat := 6%Z]> (<[6%nat := 6%Z]> (<[7%nat := 23%Z]>
             (<[8%nat := 6%Z]> (repeat (-1)%Z 15))))) []
    {[6%Z := [(21 # 6, 2%Z); (5, 7%Z)]]}
    {[6%Z := 21 # 6]} {[6%Z := 2]} {[6%Z := 0]} {[6%Z := 0]}
    {[6%Z := true]} {[6%Z := (-1)%Z]}.

(** [Deficit] after the first call: the constant term of node 0 has
    taken the budget to -2. *)
Definition deficit_after_1 : @State ListQueue.t :=
  mkState [0; 3; -1]%Z []
    {[0%Z := [(0, 0%Z); (2, 1%Z)]]}
    {[0%Z := 0]} {[0%Z := 1]} {[0%Z := -2]} {[0%Z := 0]}
    {[0%Z := true]} {[0%Z := (-1)%Z]}.

(** [Deficit] after the second call. *)
Definition deficit_after_2 : @State ListQueue.t :=
  mkState [0; 3; -1]%Z []
    {[0%Z := [(-4 # 2, 0%Z); (2, 1%Z)]]}
    {[0%Z := -4 # 2]} {[0%Z := 1]} {[0%Z := 0]} {[0%Z := 0]}
    {[0%Z := true]} {[0%Z := (-1)%Z]}.

End Trace.
(** ** How a call of the engine ends *)

Section ExitViews.

Context {Qu : Type}.
Implicit Types s : @State Qu.

(** Lake [p] ran out of water: it is flagged full, has no spill, and its
    budget is zero or a deficit. *)
Definition parked s (p : Z) : Prop :=
  lake_is_full s !! p = Some true ∧ lake_spill_node s !! p = Some (-1)%Z ∧
  ∃ v, vol_rem_at_pit s !! p = Some v ∧ (v <= 0)%Q.

(** Node [n] is the spill designation of lake [p], and the ownership map
    marks it with [code]. *)
Definition sill (code : Z) s (p n : Z) : Prop :=
  lake_spill_node s !! p = Some n ∧ arr_get (lake_map s) n = Ok code.

(** Lake [p] stands at a spill: it has a sill marked with [code], its
    water level is the initial water surface of that node, and its budget
    is not a deficit. *)
Definition spilled (surf_z : list Q) (code : Z) s (p : Z) : Prop :=
  ∃ n z l v,
    sill code s p n ∧
    arr_get surf_z n = Ok z ∧
    lake_water_level s !! p = Some l ∧ (l == z)%Q ∧
    vol_rem_at_pit s !! p = Some v ∧ (0 <= v)%Q.

(** From [s] to [s'] the ownership map has kept its length, and no id has
    become a key of the level, area, budget or loss dictionaries. *)
Definition no_new_lakes s s' : Prop :=
  length (lake_map s') = length (lake_map s) ∧
  dom (lake_water_level s') ⊆ dom (lake_water_level s) ∧
  dom (accum_area_at_pit s') ⊆ dom (accum_area_at_pit s) ∧
  dom (vol_rem_at_pit s') ⊆ dom (vol_rem_at_pit s) ∧
  dom (accum_Ks_at_pit s') ⊆ dom (accum_Ks_at_pit s).

End ExitViews.

(** Popping [q] gives the nodes [ns], in this order, and leaves [q']. *)
Fixpoint pops_to {Qu : Type} `{StablePriorityQueue Qu}
    (q : Qu) (ns : list Z) (q' : Qu) : Prop :=
  match ns with
  | [] => q = q'
  | n :: ns => ∃ q1, pop_task q = Ok (n, q1) ∧ pops_to q1 ns q'
  end.

(** A lake whose frontier holds nothing but a node it already owns. *)
Module UsedUp.

Local Open Scope Q_scope.

Definition env : Env :=
  mkEnv [1; 1] [0; 1] (Scalar 0, Scalar 0) [[1%Z]; [0%Z]]
        [false; false] [false; false].

Definition start : @State ListQueue.t :=
  mkState [0; 0]%Z [] {[0%Z := [(1, 0%Z); (1, 1%Z)]]}
    {[0%Z := 1]} {[0%Z := 2]} {[0%Z := 5]} {[0%Z := 0]}
    {[0%Z := true]} {[0%Z := (-1)%Z]}.

End UsedUp.

(** ** The order in which the entry point registers the pits *)

(** Every entry of a list stands in [R] to all the entries after it. *)
Fixpoint ascending {A : Type} (R : A → A → Prop) (l : list A) : Prop :=
  match l with
  | [] => True
  | x :: l => Forall (R x) l ∧ ascending R l
  end.

(** Positions [i] and [j] of [keys] both exist and the key at [i] is at
    most the key at [j]. *)
Definition key_le (keys : list Q) (i j : Z) : Prop :=
  ∃ ki kj, keys !! Z.to_nat i = Some ki ∧ keys !! Z.to_nat j = Some kj ∧
           (ki <= kj)%Q.

(** Three pits, given out of order of their water surface. *)
Module ThreePits.

Local Open Scope Q_scope.

Definition mg : EntryPoint.Grid := EntryPoint.mkGrid 5 [1; 2; 3; 4; 5].
Definition pit_nodes : list Z := [3; 1; 4]%Z.
Definition Vw_at_pits : list Q := [10; 20; 30].
Definition water_z : list Q := [7; 2; 9; 5; 1].

End ThreePits.

(** ** The first call of the evaluator's docstring *)

Module DocFirstCall.

Local Open Scope Q_scope.

(** Lake 5 owns its pit, node 4, with an area of 3 and 100 units of
    water. *)
Definition before_first : @State ListQueue.t :=
  mkState [-1; -1; -1; -1; 5; -1; -1; -1; -1]%Z [] ∅ ∅
    {[5%Z := 3]} {[5%Z := 100]} {[5%Z := 0]} ∅ {[5%Z := 8%Z]}.

(** Node 3 flooded to a depth of 3: area 7, budget 79. *)
Definition after_first : @State ListQueue.t :=
  mkState [-1; -1; -1; 5; 5; -1; -1; -1; -1]%Z [] ∅ ∅
    {[5%Z := 7]} {[5%Z := 79]} {[5%Z := 0]} ∅ {[5%Z := 8%Z]}.

End DocFirstCall.

(** ** The error clause of the merge, for the core as a whole *)

(** No exception on any other path: a call of the engine fails on the
    assertion of the merge or not at all ([OutOfFuel] is the bound of the
    embedding, not a Python exception). *)
Definition only_assertion_raised_claim {Qu : Type} `{StablePriorityQueue Qu}
    (fuel : nat) (env : Env) (p : Z) (s : @State Qu) : Prop :=
  ∀ e, _raise_lake_to_limit fuel env p s = Err e →
       e = AssertionError ∨ e = OutOfFuel.

(** One pit in a basin without an outlet: a strip of three nodes at
    elevations 0, 1 and 2, cell area 1, no losses, nothing closed, nothing
    draining, and 100 units of water, more than the basin holds below its
    highest node. The queue is loaded with the pit and its neighbour. *)
Module FullBasin.

Local Open Scope Q_scope.

Definition env : Env :=
  mkEnv (repeat 1 3) [0; 1; 2] (Scalar 0, Scalar 0)
    [[1; -1]; [2; 0]; [-1; 1]]%Z (repeat false 3) (repeat false 3).

Definition start : @State ListQueue.t :=
  mkState [-1; 3; -1]%Z []
    {[0%Z := [(0, 0%Z); (1, 1%Z)]]}
    {[0%Z := 0]} {[0%Z := 0]} {[0%Z := 100]} {[0%Z := 0]}
    {[0%Z := false]} {[0%Z := (-1)%Z]}.

End FullBasin.


(** * Properties *)

(** ** Comparisons *)

Lemma Qltb_lt x y : Qltb x y = true ↔ (x < y)%Q.
Proof.
  unfold Qltb. rewrite negb_true_iff. split.
  - intros H. apply Qnot_le_lt. intros Hle.
    apply Qle_bool_iff in Hle. congruence.
  - intros H. destruct (Qle_bool y x) eqn:E; [|reflexivity].
    apply Qle_bool_iff in E. exfalso. apply (Qlt_not_le _ _ H E).
Qed.

Lemma Qltb_ge x y : Qltb x y = false ↔ (y <= x)%Q.
Proof.
  unfold Qltb. rewrite negb_false_iff. apply Qle_bool_iff.
Qed.

Lemma Qzerob_true x : Qzerob x = true ↔ (x == 0)%Q.
Proof. apply Qeq_bool_iff. Qed.

Lemma Qzerob_false x : Qzerob x = false ↔ ¬ (x == 0)%Q.
Proof.
  unfold Qzerob. split.
  - intros H E. apply Qeq_bool_iff in E. congruence.
  - intros H. destruct (Qeq_bool x 0) eqn:E; [|reflexivity].
    apply Qeq_bool_iff in E. contradiction.
Qed.


(** ** The list model of the queue *)

Lemma list_queue_insert_tasks task priority q x :
  x ∈ ListQueue.tasks (ListQueue.insert task priority q) ↔
  x = task ∨ x ∈ ListQueue.tasks q.
Proof.
  unfold ListQueue.tasks. induction q as [|[p y] q IH]; cbn.
  - rewrite list_elem_of_singleton, elem_of_nil. tauto.
  - destruct (Qltb priority p); cbn.
    + rewrite !elem_of_cons. tauto.
    + rewrite !elem_of_cons, IH. tauto.
Qed.

Lemma list_queue_remove_tasks task q x :
  x ∈ ListQueue.tasks (ListQueue.remove task q) ↔
  x ≠ task ∧ x ∈ ListQueue.tasks q.
Proof.
  unfold ListQueue.tasks, ListQueue.remove.
  rewrite !list_elem_of_fmap. split.
  - intros ([p y] & -> & Hin). apply list_elem_of_filter in Hin as [Hne Hin].
    split; [exact Hne|]. by exists (p, y).
  - intros (Hne & [p y] & -> & Hin). exists (p, y). split; [reflexivity|].
    apply list_elem_of_filter. by split.
Qed.

Lemma list_queue_add_tasks task priority q x :
  x ∈ ListQueue.tasks (ListQueue.add task priority q) ↔
  x = task ∨ x ∈ ListQueue.tasks q.
Proof.
  unfold ListQueue.add.
  rewrite list_queue_insert_tasks, list_queue_remove_tasks.
  destruct (decide (x = task)); tauto.
Qed.

(** The tasks of a merged queue are the tasks of the two queues. *)
Lemma list_queue_merge_tasks q1 q2 x :
  x ∈ ListQueue.tasks (ListQueue.merge q1 q2) ↔
  x ∈ ListQueue.tasks q1 ∨ x ∈ ListQueue.tasks q2.
Proof.
  unfold ListQueue.merge. revert q1.
  induction q2 as [|[p y] q2 IH]; intros q1; cbn.
  - assert (x ∈ ListQueue.tasks [] ↔ False) as -> by apply elem_of_nil.
    tauto.
  - rewrite IH, list_queue_add_tasks.
    assert (x ∈ ListQueue.tasks ((p, y) :: q2)
            ↔ x = y ∨ x ∈ ListQueue.tasks q2) as -> by apply elem_of_cons.
    tauto.
Qed.

(** ** The node fill evaluator *)

Section EvaluatorFacts.

Context {Qu : Type}.
Implicit Types s : @State Qu.
Local Open Scope Q_scope.

Lemma get_float_terms_inv terms area cnode c K :
  _get_float_water_vol_balance_terms terms area cnode = Ok (c, K) →
  ∃ cA c0 K0, arr_get area cnode = Ok cA ∧ term_at terms.1 cnode = Ok c0 ∧
    term_at terms.2 cnode = Ok K0 ∧ c = c0 * cA ∧ K = K0 * cA.
Proof.
  unfold _get_float_water_vol_balance_terms. intros H.
  destruct (arr_get area cnode) as [cA|] eqn:E1; [|discriminate].
  destruct (term_at terms.1 cnode) as [c0|] eqn:E2; [|discriminate].
  destruct (term_at terms.2 cnode) as [K0|] eqn:E3; [|discriminate].
  cbn in H. exists cA, c0, K0. by simplify_eq.
Qed.

Lemma fill_decision_unfold cpit z K s a aK v :
  accum_area_at_pit s !! cpit = Some a →
  accum_Ks_at_pit s !! cpit = Some aK →
  vol_rem_at_pit s !! cpit = Some v →
  fill_decision cpit z K s =
    let V := V_increment_to_fill z a (K + aK) in
    if Qltb v V then
      if Qzerob V then Err ZeroDivisionError
      else Ok (false, v / V * z,
               set_vol_rem_at_pit (<[cpit := 0]> (vol_rem_at_pit s))
                 (set_lake_spill_node
                    (<[cpit := (-1)%Z]> (lake_spill_node s)) s))
    else Ok (true, z,
             set_vol_rem_at_pit (<[cpit := v - V]> (vol_rem_at_pit s))
               (set_accum_Ks_at_pit
                  (<[cpit := aK + K]> (accum_Ks_at_pit s)) s)).
Proof.
  intros Ha HK Hv. unfold fill_decision, dict_get.
  rewrite Ha, HK, Hv. reflexivity.
Qed.

Lemma raise_water_level_unfold cpit cnode area z terms fz s k a v cA c K :
  EvalReads s cpit cnode area terms k a v cA c K →
  _raise_water_level cpit cnode area z terms fz s =
    let s3 := state_at_test fz cpit k a v cA c s in
    if fz && Qltb (v + c) 0 then
      Ok (false, 0,
          set_lake_spill_node (<[cpit := (-1)%Z]> (lake_spill_node s)) s3)
    else fill_decision cpit z K s3.
Proof.
  intros [Hk Ha Hv HcA Ht].
  unfold _raise_water_level, arr_set, dict_get, state_at_test.
  rewrite Hk. cbn. destruct fz; cbn.
  - rewrite Ha. cbn. rewrite HcA. cbn. rewrite lookup_insert_eq. cbn.
    rewrite Ht. cbn. rewrite Hv. cbn. reflexivity.
  - rewrite Ha. cbn. rewrite Ht. cbn. reflexivity.
Qed.

Lemma state_at_test_lookups fz cpit k a v cA c s :
  accum_area_at_pit s !! cpit = Some a →
  vol_rem_at_pit s !! cpit = Some v →
  let s3 := state_at_test fz cpit k a v cA c s in
  accum_area_at_pit s3 !! cpit = Some (area_at_test fz a cA) ∧
  vol_rem_at_pit s3 !! cpit = Some (budget_at_test fz v c) ∧
  accum_Ks_at_pit s3 = accum_Ks_at_pit s ∧
  lake_spill_node s3 = lake_spill_node s.
Proof.
  intros Ha Hv. unfold state_at_test, area_at_test, budget_at_test.
  destruct fz; cbn; rewrite ?lookup_insert_eq; auto.
Qed.

(** The evaluator, as a function of what it reads. *)
Lemma raise_water_level_cases cpit cnode area z terms fz s k a v aK cA c K :
  EvalReads s cpit cnode area terms k a v cA c K →
  accum_Ks_at_pit s !! cpit = Some aK →
  let s3 := state_at_test fz cpit k a v cA c s in
  let v' := budget_at_test fz v c in
  let V := V_increment_to_fill z (area_at_test fz a cA) (K + aK) in
  _raise_water_level cpit cnode area z terms fz s =
    if fz && Qltb v' 0 then
      Ok (false, 0,
          set_lake_spill_node (<[cpit := (-1)%Z]> (lake_spill_node s)) s3)
    else if Qltb v' V then
      if Qzerob V then Err ZeroDivisionError
      else Ok (false, v' / V * z,
               set_vol_rem_at_pit (<[cpit := 0]> (vol_rem_at_pit s3))
                 (set_lake_spill_node
                    (<[cpit := (-1)%Z]> (lake_spill_node s3)) s3))
    else Ok (true, z,
             set_vol_rem_at_pit (<[cpit := v' - V]> (vol_rem_at_pit s3))
               (set_accum_Ks_at_pit
                  (<[cpit := aK + K]> (accum_Ks_at_pit s3)) s3)).
Proof.
  intros R HK. rewrite (raise_water_level_unfold _ _ _ _ _ _ _ _ _ _ _ _ _ R).
  destruct R as [Hk Ha Hv HcA Ht].
  destruct (state_at_test_lookups fz cpit k a v cA c s Ha Hv)
    as (Ha' & Hv' & HK' & _).
  cbn zeta. rewrite <- HK' in HK.
  rewrite (fill_decision_unfold _ _ _ _ _ _ _ Ha' HK Hv').
  cbn zeta. unfold budget_at_test at 1. destruct fz; reflexivity.
Qed.

(** A call that returns has read all of these. *)
Lemma raise_water_level_reads cpit cnode area z terms fz s r :
  _raise_water_level cpit cnode area z terms fz s = Ok r →
  ∃ k a v cA c K, EvalReads s cpit cnode area terms k a v cA c K.
Proof.
  unfold _raise_water_level, arr_set, dict_get. intros H.
  destruct (py_index (length (lake_map s)) cnode) as [k|] eqn:Hk;
    [|discriminate].
  cbn in H.
  destruct (accum_area_at_pit s !! cpit) as [a|] eqn:Ha;
    [|destruct fz; cbn in H; rewrite ?Ha in H; discriminate].
  assert (∃ cA, arr_get area cnode = Ok cA) as (cA & HcA).
  { destruct (arr_get area cnode) as [cA|] eqn:E; [by exists cA|].
    unfold _get_float_water_vol_balance_terms in H. rewrite E in H.
    destruct fz; cbn in H; rewrite ?Ha in H; discriminate. }
  destruct (_get_float_water_vol_balance_terms terms area cnode)
    as [[c K]|] eqn:Ht.
  2:{ destruct fz; cbn in H; rewrite ?Ha, ?HcA in H; cbn in H;
        rewrite ?lookup_insert_eq, ?Ha in H; discriminate. }
  assert (∃ v, vol_rem_at_pit s !! cpit = Some v) as (v & Hv).
  { destruct (vol_rem_at_pit s !! cpit) as [v|] eqn:Hv; [by exists v|].
    destruct fz; cbn in H; rewrite ?Ha, ?HcA in H; cbn in H;
      rewrite ?lookup_insert_eq, ?Ha in H; cbn in H; rewrite ?Hv in H;
      [discriminate|].
    unfold fill_decision, dict_get in H. cbn in H. rewrite Ha, Hv in H.
    cbn in H. destruct (accum_Ks_at_pit s !! cpit); discriminate. }
  exists k, a, v, cA, c, K. by constructor.
Qed.

Lemma fill_decision_reads cpit z K s r :
  fill_decision cpit z K s = Ok r →
  ∃ a aK v, accum_area_at_pit s !! cpit = Some a ∧
    accum_Ks_at_pit s !! cpit = Some aK ∧ vol_rem_at_pit s !! cpit = Some v.
Proof.
  unfold fill_decision, dict_get. intros H.
  destruct (accum_area_at_pit s !! cpit) as [a|]; [|discriminate].
  destruct (accum_Ks_at_pit s !! cpit) as [aK|]; [|discriminate].
  destruct (vol_rem_at_pit s !! cpit) as [v|]; [|discriminate].
  by exists a, aK, v.
Qed.

End EvaluatorFacts.

Section EvaluatorTheorems.

Context {Qu : Type}.
Implicit Types s : @State Qu.
Local Open Scope Q_scope.

Lemma Qltb_false_of_le x y : y <= x → Qltb x y = false.
Proof. apply Qltb_ge. Qed.

Lemma Qltb_true_of_lt x y : x < y → Qltb x y = true.
Proof. apply Qltb_lt. Qed.

(** C1 (amended). When the budget after the first-contact updates is not
    negative and is below the volume required, the call reports failure,
    the depth it reports is the budget divided by the volume required per
    unit depth, the stored budget is exactly zero and the spill designation
    is cleared. *)
Theorem partial_fill_correct cpit cnode area z terms fz s k a v aK cA c K :
  EvalReads s cpit cnode area terms k a v cA c K →
  accum_Ks_at_pit s !! cpit = Some aK →
  0 <= budget_at_test fz v c →
  budget_at_test fz v c
    < V_increment_to_fill z (area_at_test fz a cA) (K + aK) →
  ∃ dz s',
    _raise_water_level cpit cnode area z terms fz s = Ok (false, dz, s') ∧
    dz == budget_at_test fz v c / (area_at_test fz a cA - (K + aK)) ∧
    vol_rem_at_pit s' !! cpit = Some 0 ∧
    lake_spill_node s' !! cpit = Some (-1)%Z.
Proof.
  intros R HK Hnn Hlt.
  rewrite (raise_water_level_cases _ _ _ z _ fz _ _ _ _ _ _ _ _ R HK).
  cbn zeta.
  generalize dependent (budget_at_test fz v c). intros v' Hnn.
  generalize (area_at_test fz a cA). intros A Hlt.
  rewrite (Qltb_false_of_le _ _ Hnn), andb_false_r.
  rewrite (Qltb_true_of_lt _ _ Hlt).
  assert (HV : 0 < V_increment_to_fill z A (K + aK))
    by (eapply Qle_lt_trans; eassumption).
  assert (HVz : Qzerob (V_increment_to_fill z A (K + aK)) = false).
  { apply Qzerob_false. intros E. rewrite E in HV. lra. }
  rewrite HVz. eexists _, _. split; [reflexivity|].
  split; [|split].
  - unfold V_increment_to_fill in *.
    assert (¬ z == 0) by (intros E; rewrite E in HV; lra).
    assert (¬ A - (K + aK) == 0).
    { intros E. assert (z * A - (K + aK) * z == z * (A - (K + aK))) as E2
        by ring. rewrite E2, E in HV. lra. }
    field. split; [assumption|]. lra.
  - cbn. apply lookup_insert_eq.
  - cbn. apply lookup_insert_eq.
Qed.

(** C9. Division by zero at line 760 happens exactly on a resumed fill
    (no first contact) that carries a negative budget and needs a volume
    of zero. With a budget that is not negative when the test of line 758
    runs, the divisor of a partial fill is strictly positive and the call
    cannot fail by dividing by zero. *)
Theorem division_safety cpit cnode area z terms fz s k a v aK cA c K :
  EvalReads s cpit cnode area terms k a v cA c K →
  accum_Ks_at_pit s !! cpit = Some aK →
  let v' := budget_at_test fz v c in
  let V := V_increment_to_fill z (area_at_test fz a cA) (K + aK) in
  (0 <= v' → v' < V → 0 < V) ∧
  (0 <= v' →
   _raise_water_level cpit cnode area z terms fz s ≠ Err ZeroDivisionError) ∧
  (_raise_water_level cpit cnode area z terms fz s = Err ZeroDivisionError ↔
   fz = false ∧ v < 0 ∧ V == 0).
Proof.
  intros R HK v' V.
  assert (Hiff :
    _raise_water_level cpit cnode area z terms fz s = Err ZeroDivisionError ↔
    fz = false ∧ v < 0 ∧ V == 0).
  { rewrite (raise_water_level_cases _ _ _ z _ fz _ _ _ _ _ _ _ _ R HK).
    cbn zeta. fold v' V.
    destruct fz; cbn [andb].
    - destruct (Qltb v' 0) eqn:E0.
      + split; [discriminate | intros [? _]; discriminate].
      + split; [|intros [? _]; discriminate].
        apply Qltb_ge in E0. destruct (Qltb v' V) eqn:E1; [|discriminate].
        apply Qltb_lt in E1. destruct (Qzerob V) eqn:E2; [|discriminate].
        apply Qzerob_true in E2. lra.
    - unfold budget_at_test in v'. subst v'.
      destruct (Qltb v V) eqn:E1.
      + apply Qltb_lt in E1. destruct (Qzerob V) eqn:E2.
        * apply Qzerob_true in E2. split; [|reflexivity].
          intros _. repeat split; [lra | assumption].
        * apply Qzerob_false in E2. split; [discriminate|].
          intros (_ & _ & E). contradiction.
      + apply Qltb_ge in E1. split; [discriminate|].
        intros (_ & Hneg & E). lra. }
  split; [intros; lra|]. split; [|exact Hiff].
  intros Hnn Herr. apply Hiff in Herr as (-> & Hneg & _).
  unfold v', budget_at_test in Hnn. lra.
Qed.

End EvaluatorTheorems.

(** ** The evaluator on its docstring examples *)

Section EvaluatorExamples.

Import DocEvaluator.
Local Open Scope Q_scope.

(** The third call of the docstring: flooding node 6 costs more than the
    budget holds, the call answers (False, 0) and leaves a budget of -1. *)
Example doc_third_call :
  _raise_water_level 5 6 area_map 1 (Scalar (-34), Scalar (-3)) true
    before_third
  = Ok (false, 0,
        mkState [-1; -1; -1; 5; 5; 5; 5; -1; -1]%Z [] ∅ ∅
          {[5%Z := 10]} {[5%Z := -1]} {[5%Z := 0]} ∅ {[5%Z := (-1)%Z]}).
Proof. vm_compute. reflexivity. Qed.

Lemma doc_third_reads :
  EvalReads before_third 5 6 area_map (Scalar (-34), Scalar (-3))
    6%nat 9 33 1 (-34) (-3).
Proof. constructor; reflexivity. Qed.

Lemma doc_fifth_reads :
  EvalReads before_fifth 5 2 area_map per_node_terms 2%nat 10 61 2 4 2.
Proof. constructor; reflexivity. Qed.

(** C1, counterexample. On the docstring's third call the budget after the
    first-contact update, -1, is below the 13 units required, yet the
    stored budget stays -1 and the depth reported is 0, not -1/13. On a
    resumed fill with a carried budget of -1 and no rise requested the
    call fails on the division instead of returning. *)
Lemma partial_fill_claim_fails :
  ¬ partial_fill_claim 5 6 area_map 1 (Scalar (-34), Scalar (-3)) true
      before_third ∧
  ¬ partial_fill_claim 5 6 area_map 0 (Scalar 0, Scalar 0) false
      carried_deficit.
Proof.
  split; intros Hclaim.
  - destruct (Hclaim 6%nat 9 33 0 1 (-34) (-3) doc_third_reads eq_refl)
      as (dz & s' & Hcall & _ & Hvol & _).
    + reflexivity.
    + rewrite doc_third_call in Hcall. injection Hcall as _ <-.
      vm_compute in Hvol. discriminate.
  - destruct (Hclaim 6%nat 10 (-1) 0 1 0 0) as (dz & s' & Hcall & _).
    + constructor; reflexivity.
    + reflexivity.
    + reflexivity.
    + vm_compute in Hcall. discriminate.
Qed.

(** The fifth call of the docstring is a partial fill: half of the ten
    units of depth asked for, and an empty budget. *)
Lemma partial_fill_correct_witness :
  ∃ dz s',
    _raise_water_level 5 2 area_map 10 per_node_terms true before_fifth
      = Ok (false, dz, s') ∧
    dz == budget_at_test true 61 4 / (area_at_test true 10 2 - (2 + -3)) ∧
    vol_rem_at_pit s' !! 5%Z = Some 0 ∧
    lake_spill_node s' !! 5%Z = Some (-1)%Z.
Proof.
  apply (partial_fill_correct (Qu := ListQueue.t) 5 2 area_map 10
           per_node_terms true before_fifth 2%nat 10 61 (-3) 2 4 2).
  - exact doc_fifth_reads.
  - reflexivity.
  - vm_compute. discriminate.
  - reflexivity.
Defined.

(** C3, counterexample. The docstring's third call returns and leaves
    the budget at -1. *)
Lemma budget_nonneg_claim_fails :
  ¬ budget_nonneg_claim 5 6 area_map 1 (Scalar (-34), Scalar (-3)) true
      before_third.
Proof.
  intros Hclaim.
  destruct (Hclaim _ _ _ doc_third_call) as (v' & Hv' & Hnn).
  vm_compute in Hv'. injection Hv' as <-. revert Hnn. vm_compute. auto.
Qed.

(** The parenthesis of C9 on a concrete call: a resumed fill that carries
    a budget of -1 and asks for no rise divides by zero. *)
Example carried_deficit_divides_by_zero :
  _raise_water_level 5 6 area_map 0 (Scalar 0, Scalar 0) false carried_deficit
  = Err ZeroDivisionError.
Proof. reflexivity. Qed.

Lemma division_safety_witness :
  (0 <= budget_at_test true 61 4 →
   budget_at_test true 61 4
     < V_increment_to_fill 10 (area_at_test true 10 2) (2 + -3) →
   0 < V_increment_to_fill 10 (area_at_test true 10 2) (2 + -3)) ∧
  (0 <= budget_at_test true 61 4 →
   _raise_water_level 5 2 area_map 10 per_node_terms true before_fifth
     ≠ Err ZeroDivisionError) ∧
  (_raise_water_level 5 2 area_map 10 per_node_terms true before_fifth
     = Err ZeroDivisionError ↔
   true = false ∧ 61 < 0 ∧
   V_increment_to_fill 10 (area_at_test true 10 2) (2 + -3) == 0).
Proof.
  apply (division_safety (Qu := ListQueue.t) 5 2 area_map 10 per_node_terms
           true before_fifth 2%nat 10 61 (-3) 2 4 2).
  - exact doc_fifth_reads.
  - reflexivity.
Defined.

End EvaluatorExamples.

(** ** The lake merge procedure *)

Section MergeFacts.

Context {Qu : Type} `{SPQ : StablePriorityQueue Qu}.
Implicit Types s : @State Qu.
Local Open Scope Q_scope.

Lemma isclose_of_Qeq a b : a == b → isclose a b = true.
Proof.
  intros E. unfold isclose. apply Qle_bool_iff.
  assert (Qabs (a - b) == 0) as ->.
  { assert (a - b == 0) as -> by lra. reflexivity. }
  pose proof (Qabs_nonneg b). unfold atol, rtol. nra.
Qed.

Lemma lake_at_Some s p L :
  lake_at s p = Some L →
  lake_q_dict s !! p = Some (lk_queue L) ∧
  lake_water_level s !! p = Some (lk_level L) ∧
  accum_area_at_pit s !! p = Some (lk_area L) ∧
  vol_rem_at_pit s !! p = Some (lk_vol L) ∧
  accum_Ks_at_pit s !! p = Some (lk_Ks L) ∧
  lake_is_full s !! p = Some (lk_full L) ∧
  lake_spill_node s !! p = Some (lk_spill L).
Proof.
  unfold lake_at. intros H.
  destruct (lake_q_dict s !! p); [|discriminate].
  destruct (lake_water_level s !! p); [|discriminate].
  destruct (accum_area_at_pit s !! p); [|discriminate].
  destruct (vol_rem_at_pit s !! p); [|discriminate].
  destruct (accum_Ks_at_pit s !! p); [|discriminate].
  destruct (lake_is_full s !! p); [|discriminate].
  destruct (lake_spill_node s !! p); [|discriminate].
  cbn in H. injection H as <-. cbn. repeat split; reflexivity.
Qed.

Lemma dict_add_pop_Some (d : gmap Z Q) low hi x y :
  d !! low = Some x → d !! hi = Some y →
  dict_add_pop d low hi = Ok (<[low := x + y]> (delete hi d)).
Proof.
  intros Hl Hh. unfold dict_add_pop, dict_pop, dict_get.
  rewrite Hl. cbn. rewrite Hh. reflexivity.
Qed.

Lemma dict_pop_Some {V} (d : gmap Z V) k x :
  d !! k = Some x → dict_pop d k = Ok (x, delete k d).
Proof. intros H. unfold dict_pop, dict_get. rewrite H. reflexivity. Qed.

(** The merge as a function of the two lakes it reads; [low] and [hi] are
    the survivor and the retired lake. *)
Lemma merge_two_lakes_unfold this that z_topo s L1 L2 z1 z2 :
  lake_at s this = Some L1 →
  lake_at s that = Some L2 →
  arr_get z_topo this = Ok z1 →
  arr_get z_topo that = Ok z2 →
  isclose (lk_level L1) (lk_level L2) = true →
  let low := if Qltb z1 z2 then this else that in
  let hi := if Qltb z1 z2 then that else this in
  let Llow := if Qltb z1 z2 then L1 else L2 in
  let Lhi := if Qltb z1 z2 then L2 else L1 in
  _merge_two_lakes this that z_topo s =
    Ok (low,
        mkState (reassign hi low (lake_map s)) (master_pit_q s)
          (delete hi (<[low := merge_queues (lk_queue Llow) (lk_queue Lhi)]>
                        (lake_q_dict s)))
          (delete hi (lake_water_level s))
          (<[low := lk_area Llow + lk_area Lhi]>
             (delete hi (accum_area_at_pit s)))
          (<[low := lk_vol Llow + lk_vol Lhi]> (delete hi (vol_rem_at_pit s)))
          (<[low := lk_Ks Llow + lk_Ks Lhi]> (delete hi (accum_Ks_at_pit s)))
          (delete hi (lake_is_full s))
          (<[low := (-1)%Z]> (delete hi (lake_spill_node s)))).
Proof.
  intros H1 H2 Hz1 Hz2 Hclose.
  apply lake_at_Some in H1 as (Hq1 & Hl1 & Ha1 & Hv1 & Hk1 & Hf1 & Hs1).
  apply lake_at_Some in H2 as (Hq2 & Hl2 & Ha2 & Hv2 & Hk2 & Hf2 & Hs2).
  unfold _merge_two_lakes, dict_get.
  rewrite Hl1, Hl2. cbn. rewrite Hclose. cbn. rewrite Hz1, Hz2. cbn.
  assert (Hpop : ∀ (q : Qu) low hi (qh : Qu),
            lake_q_dict s !! hi = Some qh →
            dict_pop (<[low := q]> (lake_q_dict s)) hi
            = Ok (if decide (low = hi) then q else qh,
                  delete hi (<[low := q]> (lake_q_dict s)))).
  { intros q low hi qh Hh. unfold dict_pop, dict_get.
    rewrite lookup_insert. destruct (decide (low = hi)); [reflexivity|].
    cbn. rewrite Hh. reflexivity. }
  destruct (Qltb z1 z2); cbn zeta.
  - rewrite Hq1, Hq2. cbn. rewrite (Hpop _ _ _ _ Hq2). cbn.
    rewrite (dict_add_pop_Some _ _ _ _ _ Ha1 Ha2). cbn.
    rewrite (dict_add_pop_Some _ _ _ _ _ Hv1 Hv2). cbn.
    rewrite (dict_add_pop_Some _ _ _ _ _ Hk1 Hk2). cbn.
    rewrite (dict_pop_Some _ _ _ Hl2), (dict_pop_Some _ _ _ Hf2),
      (dict_pop_Some _ _ _ Hs2). reflexivity.
  - rewrite Hq1, Hq2. cbn. rewrite (Hpop _ _ _ _ Hq1). cbn.
    rewrite (dict_add_pop_Some _ _ _ _ _ Ha2 Ha1). cbn.
    rewrite (dict_add_pop_Some _ _ _ _ _ Hv2 Hv1). cbn.
    rewrite (dict_add_pop_Some _ _ _ _ _ Hk2 Hk1). cbn.
    rewrite (dict_pop_Some _ _ _ Hl1), (dict_pop_Some _ _ _ Hf1),
      (dict_pop_Some _ _ _ Hs1). reflexivity.
Qed.

Lemma reassign_lookup hi low (lm : list Z) (i : nat) x :
  lm !! i = Some x →
  reassign hi low lm !! i = Some (if (x =? hi)%Z then low else x).
Proof. intros H. unfold reassign. rewrite list_lookup_fmap, H. reflexivity. Qed.

Lemma reassign_length hi low (lm : list Z) :
  length (reassign hi low lm) = length lm.
Proof. unfold reassign. apply length_fmap. Qed.

End MergeFacts.

Section MergeTheorems.

Context {Qu : Type} `{SPQ : StablePriorityQueue Qu}.
Implicit Types s : @State Qu.
Local Open Scope Q_scope.

(** C5. Merging two distinct lakes that stand at the same level: the lake
    whose pit is lower in [z_topo] survives and its id is returned; its
    queue is the survivor's queue merged with the other one; its area,
    budget and loss coefficient are the sums of the two; the other id is a
    key of no per-lake dictionary any more; every entry of the ownership
    map that held the retired id holds the survivor's, the other entries
    are untouched; the survivor's spill designation is -1. *)
Theorem merge_two_lakes_correct this that z_topo s L1 L2 z1 z2 :
  this ≠ that →
  lake_at s this = Some L1 →
  lake_at s that = Some L2 →
  arr_get z_topo this = Ok z1 →
  arr_get z_topo that = Ok z2 →
  lk_level L1 == lk_level L2 →
  let low := if Qltb z1 z2 then this else that in
  let hi := if Qltb z1 z2 then that else this in
  let Llow := if Qltb z1 z2 then L1 else L2 in
  let Lhi := if Qltb z1 z2 then L2 else L1 in
  ∃ s',
    _merge_two_lakes this that z_topo s = Ok (low, s') ∧
    (z1 < z2 → low = this ∧ hi = that) ∧
    (z2 < z1 → low = that ∧ hi = this) ∧
    lake_q_dict s' !! low
      = Some (merge_queues (lk_queue Llow) (lk_queue Lhi)) ∧
    accum_area_at_pit s' !! low = Some (lk_area Llow + lk_area Lhi) ∧
    vol_rem_at_pit s' !! low = Some (lk_vol Llow + lk_vol Lhi) ∧
    accum_Ks_at_pit s' !! low = Some (lk_Ks Llow + lk_Ks Lhi) ∧
    retired s' hi ∧
    length (lake_map s') = length (lake_map s) ∧
    (∀ (i : nat) x, lake_map s !! i = Some x →
       lake_map s' !! i = Some (if (x =? hi)%Z then low else x)) ∧
    lake_spill_node s' !! low = Some (-1)%Z.
Proof.
  intros Hne H1 H2 Hz1 Hz2 Hlevel low hi Llow Lhi.
  pose proof (isclose_of_Qeq _ _ Hlevel) as Hclose.
  rewrite (merge_two_lakes_unfold _ _ _ _ _ _ _ _ H1 H2 Hz1 Hz2 Hclose).
  fold low hi Llow Lhi.
  assert (Hlh : low ≠ hi).
  { unfold low, hi. destruct (Qltb z1 z2); congruence. }
  eexists. split; [reflexivity|]. cbn.
  split; [|split].
  - intros Hlt. apply Qltb_lt in Hlt. unfold low, hi. by rewrite Hlt.
  - intros Hlt. assert (Qltb z1 z2 = false) as E by (apply Qltb_ge; lra).
    unfold low, hi. by rewrite E.
  - unfold retired. cbn.
    repeat split; try (by simplify_map_eq).
    + apply reassign_length.
    + intros i x Hx. by apply reassign_lookup.
Qed.

End MergeTheorems.

Section MergeExamples.

Import TwoLakes.
Local Open Scope Q_scope.

Lemma two_lakes_lake_0 level2 :
  lake_at (state level2) 0 = Some (mkLake [(5, 7%Z)] 2 1 8 (-1) false 1%Z).
Proof. reflexivity. Qed.

Lemma two_lakes_lake_2 level2 :
  lake_at (state level2) 2
  = Some (mkLake [(3, 8%Z); (6, 9%Z)] level2 4 3 (-2) true (-1)%Z).
Proof. reflexivity. Qed.

(** Lake 2 reaches lake 0 at level 2; pit 0 is the lower one and survives. *)
Lemma merge_two_lakes_correct_witness :
  ∃ s',
    _merge_two_lakes 2 0 z_topo (state 2) = Ok (0%Z, s') ∧
    (1 < 0 → 0%Z = 2%Z ∧ 2%Z = 0%Z) ∧
    (0 < 1 → 0%Z = 0%Z ∧ 2%Z = 2%Z) ∧
    lake_q_dict s' !! 0%Z
      = Some (merge_queues [(5, 7%Z)] [(3, 8%Z); (6, 9%Z)]) ∧
    accum_area_at_pit s' !! 0%Z = Some (1 + 4) ∧
    vol_rem_at_pit s' !! 0%Z = Some (8 + 3) ∧
    accum_Ks_at_pit s' !! 0%Z = Some (-1 + -2) ∧
    retired s' 2 ∧
    length (lake_map s') = length (lake_map (state 2)) ∧
    (∀ (i : nat) x, lake_map (state 2) !! i = Some x →
       lake_map s' !! i = Some (if (x =? 2)%Z then 0%Z else x)) ∧
    lake_spill_node s' !! 0%Z = Some (-1)%Z.
Proof.
  exact (merge_two_lakes_correct (Qu := ListQueue.t) 2 0 z_topo (state 2)
           _ _ 1 0 ltac:(discriminate) (two_lakes_lake_2 2)
           (two_lakes_lake_0 2) eq_refl eq_refl ltac:(reflexivity)).
Defined.

(** The queue the survivor is left with in that merge. *)
Example merged_queue :
  merge_queues [(5, 7%Z)] [(3, 8%Z); (6, 9%Z)]
  = [(3, 8%Z); (5, 7%Z); (6, 9%Z)].
Proof. reflexivity. Qed.

End MergeExamples.

(** ** The level-raising engine *)

Section EngineTheorems.

Context {Qu : Type} `{SPQ : StablePriorityQueue Qu}.
Implicit Types s : @State Qu.
Local Open Scope Q_scope.

(** C4. On a lake whose spill node is already determined the engine
    returns at once and hands back the state it was given: ownership map,
    queues, levels, areas, budgets, loss accumulators, full flags and spill
    designations. *)
Theorem raise_lake_to_limit_reentry fuel env cpit s spill :
  lake_spill_node s !! cpit = Some spill →
  spill ≠ (-1)%Z →
  _raise_lake_to_limit fuel env cpit s = Ok s.
Proof.
  intros Hsp Hne. unfold _raise_lake_to_limit, dict_get. rewrite Hsp. cbn.
  destruct (spill =? -1)%Z eqn:E; [|reflexivity].
  apply Z.eqb_eq in E. contradiction.
Qed.

(** What the evaluator hands back to line 378: on a request that is not
    negative, with a budget that is not negative unless the node is
    flooded for the first time, the depth reported is not negative. The
    water levels are not touched by the evaluator. *)
Lemma raise_water_level_increment cpit cnode area z terms fz s filled dz s' v :
  _raise_water_level cpit cnode area z terms fz s = Ok (filled, dz, s') →
  vol_rem_at_pit s !! cpit = Some v →
  0 <= z →
  (fz = false → 0 <= v) →
  0 <= dz ∧ lake_water_level s' = lake_water_level s.
Proof.
  intros H Hv0 Hz Hnn.
  destruct (raise_water_level_reads _ _ _ _ _ _ _ _ H)
    as (k & a & v1 & cA & c & K & R).
  rewrite (raise_water_level_unfold _ _ _ z _ fz _ _ _ _ _ _ _ R) in H.
  cbn zeta in H. destruct R as [Hk Ha Hv HcA Ht].
  assert (v1 = v) as -> by congruence.
  destruct (state_at_test_lookups fz cpit k a v cA c s Ha Hv)
    as (Ha' & Hv' & HK' & Hsp).
  assert (Hlvl : lake_water_level (state_at_test fz cpit k a v cA c s)
                 = lake_water_level s).
  { unfold state_at_test. destruct fz; reflexivity. }
  destruct (fz && Qltb (v + c) 0) eqn:Hearly.
  - injection H as <- <- <-. split; [lra | exact Hlvl].
  - destruct (fill_decision_reads _ _ _ _ _ H)
      as (a2 & aK & v2 & Ha2 & HK & Hv2).
    rewrite (fill_decision_unfold _ _ _ _ _ _ _ Ha2 HK Hv2) in H.
    cbn zeta in H.
    assert (Hv2nn : 0 <= v2).
    { rewrite Hv' in Hv2. injection Hv2 as <-. unfold budget_at_test.
      destruct fz; [|auto]. cbn in Hearly. by apply Qltb_ge. }
    destruct (Qltb v2 _) eqn:Hlt.
    + destruct (Qzerob _); [discriminate|].
      injection H as <- <- <-. split; [|exact Hlvl].
      apply Qltb_lt in Hlt.
      apply Qmult_le_0_compat; [|exact Hz].
      apply Qle_shift_div_l; [eapply Qle_lt_trans; eassumption | lra].
    + injection H as <- <- <-. split; [exact Hz | exact Hlvl].
Qed.

(** After a successful fill up to a draining node that carries no spill
    code, the node is coded as this lake's spill node and the loop is
    left. *)
Lemma after_fill_draining env nnodes pit_nghb_code spill_code cpit nnode s
    code (k : nat) :
  arr_get (lake_map s) nnode = Ok code →
  py_index (length (lake_map s)) nnode = Some k →
  (code < 2 * nnodes)%Z →
  arr_get (drainingnodes env) nnode = Ok true →
  after_fill env nnodes pit_nghb_code spill_code cpit nnode s
  = Ok (Break (set_lake_spill_node (<[cpit := nnode]> (lake_spill_node s))
                 (set_lake_map (<[k := spill_code]> (lake_map s)) s))).
Proof.
  intros Hcode Hk Hlt Hdr. unfold after_fill, arr_set.
  rewrite Hcode. cbn.
  destruct (2 * nnodes <=? code)%Z eqn:E; [apply Z.leb_le in E; lia|].
  rewrite Hdr. cbn. rewrite Hk. reflexivity.
Qed.

(** A node that carries a spill code sends the engine into the merge and
    back to the loop head, whether or not it is draining: the draining
    flag is not read. *)
Lemma after_fill_spill_code env nnodes pit_nghb_code spill_code cpit nnode s
    code :
  arr_get (lake_map s) nnode = Ok code →
  (2 * nnodes <= code)%Z →
  after_fill env nnodes pit_nghb_code spill_code cpit nnode s
  = ('(low_pit, s1) ←
       _merge_two_lakes cpit (code - 2 * nnodes)%Z (init_water_surface env) s;
     lm ← arr_set (lake_map s1) nnode low_pit;
     Ok (Continue low_pit nnode (set_lake_map lm s1))).
Proof.
  intros Hcode Hge. unfold after_fill. rewrite Hcode. cbn.
  apply Z.leb_le in Hge. rewrite Hge. reflexivity.
Qed.

End EngineTheorems.

Section EngineExamples.

Import Trace.
Local Open Scope Q_scope.

Ltac observe :=
  repeat match goal with
  | |- _ ∧ _ => split
  | |- ∃ _, _ => eexists
  | |- _ => vm_compute; reflexivity
  end.

(** The first call of the engine's docstring, on lake 7: the ownership
    map, the level, the area, the budget and the spill node it lists. The
    20 units taken from the budget stand over the four flooded nodes. *)
Example doc_engine_first_call :
  ∃ s', DocEngine.first_call = Ok s' ∧
    lake_map s' = [-1; 43; 43; -1; -1; -1;
                   43;  7;  7; 43; -1; -1;
                   43;  7; 79; -1; -1; -1;
                   43;  7; 43; -1; -1; -1;
                   -1; 43; -1; -1; -1; -1;
                   -1; -1; -1; -1; -1; -1]%Z ∧
    tasks_currently_in_queue (master_pit_q s') = [7%Z] ∧
    lake_water_level s' !! 7%Z = Some (-5) ∧
    accum_area_at_pit s' !! 7%Z = Some 8 ∧
    vol_rem_at_pit s' !! 7%Z = Some 80 ∧
    lake_is_full s' !! 7%Z = Some false ∧
    lake_spill_node s' !! 7%Z = Some 14%Z ∧
    stored_volume DocEngine.env 7 s' = Some (100 - 80).
Proof. observe. Qed.

(** The second call, on lake 10 with 4 units of water: a partial fill to
    -6.5 that leaves the lake full. *)
Example doc_engine_second_call :
  ∃ s' level stored, DocEngine.second_call = Ok s' ∧
    lake_map s' = [-1; 43; 43; -1; 46; -1;
                   43;  7;  7; 46; 10; 46;
                   43;  7; 79; 46; 10; 46;
                   43;  7; 43; -1; 46; -1;
                   -1; 43; -1; -1; -1; -1;
                   -1; -1; -1; -1; -1; -1]%Z ∧
    tasks_currently_in_queue (master_pit_q s') = [7%Z] ∧
    lake_water_level s' !! 10%Z = Some level ∧ level == -13 # 2 ∧
    accum_area_at_pit s' !! 10%Z = Some 4 ∧
    vol_rem_at_pit s' !! 10%Z = Some 0 ∧
    lake_is_full s' !! 10%Z = Some true ∧
    lake_spill_node s' !! 10%Z = Some (-1)%Z ∧
    stored_volume DocEngine.env 10 s' = Some stored ∧ stored == 4 - 0.
Proof. observe. Qed.

(** The third call, on lake 10 recharged to 100: up to the sill at node
    15, and into the cross-lake queue. *)
Example doc_engine_third_call :
  ∃ s' level vol stored, DocEngine.third_call = Ok s' ∧
    lake_map s' = [-1; 43; 43; -1; 46; -1;
                   43;  7;  7; 46; 10; 46;
                   43;  7; 79; 82; 10; 46;
                   43;  7; 43; -1; 46; -1;
                   -1; 43; -1; -1; -1; -1;
                   -1; -1; -1; -1; -1; -1]%Z ∧
    tasks_currently_in_queue (master_pit_q s') = [10%Z; 7%Z] ∧
    lake_water_level s' !! 10%Z = Some level ∧ level == -6 ∧
    accum_area_at_pit s' !! 10%Z = Some 4 ∧
    vol_rem_at_pit s' !! 10%Z = Some vol ∧ vol == 98 ∧
    lake_is_full s' !! 10%Z = Some false ∧
    lake_spill_node s' !! 10%Z = Some 15%Z ∧
    stored_volume DocEngine.env 10 s' = Some stored ∧
    stored == (4 + 100) - 98.
Proof. observe. Qed.

(** The fourth call: nothing happens, the lake is at a sill already. *)
Example doc_engine_fourth_call :
  DocEngine.fourth_call = DocEngine.third_call.
Proof. vm_compute. reflexivity. Qed.

(** The last call of the docstring, on lake 27, for which it lists no
    result: lake 27 meets lake 10 at its sill (node 15), the two meet lake
    7 at its sill (node 14), and the merged lake 7 stops at the draining
    node 29. It owns eleven nodes of area 2 but its accumulated area is
    18, and it stores 126 units where 100 + (4 + 100) + 100 - 196 = 108
    left the budgets: the two sills are flooded but were never counted. *)
Example doc_engine_last_call :
  ∃ s' vol, DocEngine.last_call = Ok s' ∧
    lake_map s' = [-1; 43; 43; -1; 46; -1;
                   43;  7;  7; 46;  7; 46;
                   43;  7;  7;  7;  7; 46;
                   43;  7; 63;  7; 63; -1;
                   -1; 43; 63;  7;  7; 99;
                   -1; -1; -1; 63; -1; -1]%Z ∧
    retired s' 10 ∧ retired s' 27 ∧
    lake_water_level s' !! 7%Z = Some (-1) ∧
    accum_area_at_pit s' !! 7%Z = Some 18 ∧
    vol_rem_at_pit s' !! 7%Z = Some vol ∧ vol == 196 ∧
    lake_spill_node s' !! 7%Z = Some 29%Z ∧
    stored_volume DocEngine.env 7 s' = Some 126.
Proof.
  eexists _, _. split; [vm_compute; reflexivity|].
  split; [reflexivity|]. split; [vm_compute; tauto|].
  split; [vm_compute; tauto|]. observe.
Qed.

Example strip_first_call :
  _raise_lake_to_limit 10 Strip.env 0 Strip.start = Ok strip_after_0.
Proof. vm_compute. reflexivity. Qed.

Example strip_second_call :
  _raise_lake_to_limit 10 Strip.env 2 strip_after_0 = Ok strip_after_2.
Proof. vm_compute. reflexivity. Qed.

Example outlet_first_call :
  _raise_lake_to_limit 10 SharedOutlet.env 6 SharedOutlet.start
  = Ok outlet_after_6.
Proof. vm_compute. reflexivity. Qed.

Example outlet_second_call :
  _raise_lake_to_limit 10 SharedOutlet.env 8 outlet_after_6
  = Ok outlet_after_8.
Proof. vm_compute. reflexivity. Qed.

Example deficit_first_call :
  _raise_lake_to_limit 10 Deficit.env 0 Deficit.start = Ok deficit_after_1.
Proof. vm_compute. reflexivity. Qed.

Example deficit_second_call :
  _raise_lake_to_limit 10 Deficit.env 0 deficit_after_1 = Ok deficit_after_2.
Proof. vm_compute. reflexivity. Qed.

End EngineExamples.

Section EngineWitnesses.

Import Trace.
Local Open Scope Q_scope.

(** A second call on lake 0 of [Strip], whose spill node is node 1. *)
Lemma raise_lake_to_limit_reentry_witness :
  _raise_lake_to_limit 10 Strip.env 0 strip_after_0 = Ok strip_after_0.
Proof.
  apply (raise_lake_to_limit_reentry (Qu := ListQueue.t) 10 Strip.env 0
           strip_after_0 1).
  - reflexivity.
  - discriminate.
Defined.

(** C8, the engine on the failing input. On [Deficit] the first call
    floods node 0 for the first time: the constant term of the node takes
    the budget from 3 to -2, the evaluator takes its first-contact return
    and reports a depth of 0, so the level stays at 0 and the lake is left
    full with a budget of -2. The second call resumes on node 0, which the
    lake now owns: the evaluator divides the budget of -2 by the 2 units
    the rise to node 1 requires and reports a depth of -2, and line 378
    adds it to the level, which goes from 0 down to -2, below the surface
    of the pit itself. *)
Theorem carried_deficit_lowers_level :
  init_water_surface Deficit.env !! 0%nat = Some 0 ∧
  lake_water_level Deficit.start !! 0%Z = Some 0 ∧
  _raise_lake_to_limit 10 Deficit.env 0 Deficit.start = Ok deficit_after_1 ∧
  lake_water_level deficit_after_1 !! 0%Z = Some 0 ∧
  vol_rem_at_pit deficit_after_1 !! 0%Z = Some (-2) ∧
  lake_is_full deficit_after_1 !! 0%Z = Some true ∧
  (∃ dz s', _raise_water_level 0 0 (area_map Deficit.env) (2 - 0)
              (water_vol_balance_terms Deficit.env) false deficit_after_1
            = Ok (false, dz, s') ∧ dz == -2) ∧
  _raise_lake_to_limit 10 Deficit.env 0 deficit_after_1 = Ok deficit_after_2 ∧
  (∃ level, lake_water_level deficit_after_2 !! 0%Z = Some level ∧
            level == -2 ∧ level < 0) ∧
  ¬ level_monotone_claim 10 Deficit.env 0 deficit_after_1.
Proof.
  do 2 (split; [reflexivity|]). split; [exact deficit_first_call|].
  do 3 (split; [reflexivity|]).
  split; [eexists _, _; split; [vm_compute; reflexivity | reflexivity]|].
  split; [exact deficit_second_call|].
  split; [eexists; split; [reflexivity|]; split; reflexivity|].
  intros Hclaim.
  specialize (Hclaim deficit_after_2 0 (-4 # 2) deficit_second_call
                eq_refl eq_refl).
  revert Hclaim. vm_compute. intros Hclaim. apply Hclaim. reflexivity.
Qed.

(** C2, the engine on the failing input. On [Strip], lake 0 (10 units)
    stops at its sill, node 1; lake 2 (4 units) then reaches the sill,
    merges into lake 0 and is lifted to node 3. The merged lake owns
    nodes 0, 1 and 2 and stands at 5: it stores 5 + 3 + 4 = 12 units above
    the initial surface, while only 14 - 5 = 9 units left the budget. *)
Theorem strip_merge_breaks_conservation :
  _raise_lake_to_limit 10 Strip.env 0 Strip.start = Ok strip_after_0 ∧
  _raise_lake_to_limit 10 Strip.env 2 strip_after_0 = Ok strip_after_2 ∧
  retired strip_after_2 2 ∧
  lake_map strip_after_2 = [0; 0; 0; 12; -1]%Z ∧
  accum_area_at_pit strip_after_2 !! 0%Z = Some 2 ∧
  vol_rem_at_pit strip_after_2 !! 0%Z = Some 5 ∧
  ∃ stored,
    stored_volume Strip.env 0 strip_after_2 = Some stored ∧
    stored == 12 ∧ ¬ stored == (10 + 4) - 5.
Proof.
  split; [exact strip_first_call|]. split; [exact strip_second_call|].
  split; [vm_compute; tauto|]. do 3 (split; [reflexivity|]).
  eexists. split; [vm_compute; reflexivity|].
  split; [reflexivity | vm_compute; discriminate].
Qed.

(** C7, the engine on the failing input. On [SharedOutlet], lake 6 reaches
    the draining node 2 and stops, with node 2 as its spill node. Lake 8
    then pops the same node, fills up to it, and is merged into lake 6
    instead of stopping: node 2 ends up owned, no spill node is set, and
    the level is lifted to 3.5, above the outlet at 2. *)
Theorem shared_outlet_overtopped :
  drainingnodes SharedOutlet.env !! 2%nat = Some true ∧
  init_water_surface SharedOutlet.env !! 2%nat = Some 2 ∧
  _raise_lake_to_limit 10 SharedOutlet.env 6 SharedOutlet.start
    = Ok outlet_after_6 ∧
  lake_spill_node outlet_after_6 !! 6%Z = Some 2%Z ∧
  lake_map outlet_after_6 !! 2%nat = Some (6 + 2 * 15)%Z ∧
  lake_water_level outlet_after_6 !! 6%Z = Some 2 ∧
  _raise_lake_to_limit 10 SharedOutlet.env 8 outlet_after_6
    = Ok outlet_after_8 ∧
  retired outlet_after_8 8 ∧
  lake_map outlet_after_8 !! 2%nat = Some 6%Z ∧
  lake_spill_node outlet_after_8 !! 6%Z = Some (-1)%Z ∧
  lake_water_level outlet_after_8 !! 6%Z = Some (21 # 6) ∧
  2 < 21 # 6.
Proof.
  do 2 (split; [reflexivity|]). split; [exact outlet_first_call|].
  do 3 (split; [reflexivity|]). split; [exact outlet_second_call|].
  split; [vm_compute; tauto|]. repeat split; reflexivity.
Qed.

End EngineWitnesses.

(** ** The public entry point *)

Section EntryPointTheorems.

Import EntryPoint.
Local Open Scope Q_scope.

Lemma register_pits_lake_map l pits vols areas levels :
  lake_map (register_pits l pits vols areas levels) = lake_map l.
Proof.
  revert l vols areas levels.
  induction pits as [|pit pits IH]; intros l vols areas levels; [reflexivity|].
  destruct vols, areas, levels; try reflexivity. cbn. by rewrite IH.
Qed.

(** Whatever the input, the ownership map the entry point builds holds -1
    at every node when the body ends. *)
Lemma entry_point_claims_nothing mg pit_nodes Vw_at_pits water_z l :
  fill_depression_from_pit_discharges mg pit_nodes Vw_at_pits water_z = Ok l →
  lake_map l = repeat (-1)%Z (number_of_nodes mg).
Proof.
  unfold fill_depression_from_pit_discharges. intros H.
  destruct (take water_z pit_nodes); [|discriminate]. cbn in H.
  destruct (take water_z _); [|discriminate]. cbn in H.
  destruct (take pit_nodes _); [|discriminate]. cbn in H.
  destruct (take Vw_at_pits _); [|discriminate]. cbn in H.
  destruct (take (cell_area_at_node mg) _); [|discriminate]. cbn in H.
  injection H as <-. by rewrite register_pits_lake_map.
Qed.

(** C10, the entry point on the failing input. With the single pit 4 of
    [OnePit] the sort order is [0], and the level and the area registered
    for pit 4 are those of node 0 (5 and 0), not those of the pit (1 and
    4). The volume is the one supplied and no node is claimed. *)
Theorem entry_point_reads_wrong_rows :
  ∃ l,
    fill_depression_from_pit_discharges OnePit.mg OnePit.pit_nodes
      OnePit.Vw_at_pits OnePit.water_z = Ok l ∧
    pit_nodes_in_order l = [4]%Z ∧
    vol_rem_at_pit l !! 4%Z = Some 10 ∧
    lake_water_level l !! 4%Z = Some 5 ∧
    OnePit.water_z !! 4%nat = Some 1 ∧
    accum_area_at_pit l !! 4%Z = Some 0 ∧
    cell_area_at_node OnePit.mg !! 4%nat = Some 4 ∧
    lake_is_full l !! 4%Z = Some false ∧
    lake_water_volume_balance l !! 4%Z = Some 0 ∧
    accum_Ks_at_pit l !! 4%Z = Some 0 ∧
    lake_map l = repeat (-1)%Z 9.
Proof. eexists. split; [vm_compute; reflexivity|]. vm_compute. tauto. Qed.

End EntryPointTheorems.
(** * Further properties of the code *)

(** ** Reading a returned result backwards *)

Section Inversion.

Local Open Scope Q_scope.

Lemma bind_Ok {A B} (m : result A) (f : A → result B) r :
  m ≫= f = Ok r → ∃ a, m = Ok a ∧ f a = Ok r.
Proof. destruct m as [a|e]; [|discriminate]. intros H. by exists a. Qed.

Lemma dict_get_Ok {V} (d : gmap Z V) k x : dict_get d k = Ok x → d !! k = Some x.
Proof.
  unfold dict_get. destruct (d !! k); [|discriminate]. cbn. congruence.
Qed.

Lemma dict_get_Some {V} (d : gmap Z V) k x : d !! k = Some x → dict_get d k = Ok x.
Proof. intros H. unfold dict_get. by rewrite H. Qed.

Lemma dict_pop_Ok {V} (d : gmap Z V) k x d' :
  dict_pop d k = Ok (x, d') → d !! k = Some x ∧ d' = delete k d.
Proof.
  unfold dict_pop. intros H. apply bind_Ok in H as (y & Hy & H).
  apply dict_get_Ok in Hy. by simplify_eq.
Qed.

Lemma dict_add_pop_Ok (d : gmap Z Q) low hi d' :
  dict_add_pop d low hi = Ok d' →
  ∃ x y, d !! low = Some x ∧ d !! hi = Some y ∧
    d' = <[low := (x + y)%Q]> (delete hi d).
Proof.
  unfold dict_add_pop. intros H.
  apply bind_Ok in H as (x & Hx & H). apply dict_get_Ok in Hx.
  apply bind_Ok in H as ([y d1] & Hy & H).
  apply dict_pop_Ok in Hy as [Hy ->].
  exists x, y. by simplify_eq.
Qed.

Lemma py_index_lt n i k : py_index n i = Some k → (k < n)%nat.
Proof.
  unfold py_index. intros H.
  destruct ((0 <=? i)%Z && (i <? Z.of_nat n)%Z) eqn:E1.
  - injection H as <-. apply andb_true_iff in E1 as [H1 H2].
    apply Z.leb_le in H1. apply Z.ltb_lt in H2. lia.
  - destruct ((- Z.of_nat n <=? i)%Z && (i <? 0)%Z) eqn:E2; [|discriminate].
    injection H as <-. apply andb_true_iff in E2 as [H1 H2].
    apply Z.leb_le in H1. apply Z.ltb_lt in H2. lia.
Qed.

Lemma arr_get_insert_same {A} (a : list A) i k x :
  py_index (length a) i = Some k → arr_get (<[k := x]> a) i = Ok x.
Proof.
  intros Hk. unfold arr_get. rewrite length_insert, Hk. cbn.
  rewrite list_lookup_insert_eq; [reflexivity|]. by eapply py_index_lt.
Qed.

Lemma arr_get_Ok {A} (a : list A) i x :
  arr_get a i = Ok x →
  ∃ k, py_index (length a) i = Some k ∧ a !! k = Some x.
Proof.
  unfold arr_get. intros H.
  destruct (py_index (length a) i) as [k|]; [|discriminate]. cbn in H.
  destruct (a !! k) eqn:E; [|discriminate]. cbn in H.
  exists k. split; congruence.
Qed.

Lemma arr_set_Ok {A} (a : list A) i v a' :
  arr_set a i v = Ok a' →
  ∃ k, py_index (length a) i = Some k ∧ a' = <[k := v]> a.
Proof.
  unfold arr_set. intros H.
  destruct (py_index (length a) i) as [k|]; [|discriminate]. cbn in H.
  exists k. split; congruence.
Qed.

Lemma arr_get_Some {A} (a : list A) i k x :
  py_index (length a) i = Some k → a !! k = Some x → arr_get a i = Ok x.
Proof. intros Hk Hx. unfold arr_get. rewrite Hk. cbn. by rewrite Hx. Qed.

Lemma arr_get_insert_other {A} (a : list A) j kj k v x :
  py_index (length a) j = Some kj → kj ≠ k →
  arr_get a j = Ok x → arr_get (<[k := v]> a) j = Ok x.
Proof.
  intros Hj Hne H. apply arr_get_Ok in H as (k' & Hk' & Hx).
  rewrite Hj in Hk'. injection Hk' as <-.
  apply (arr_get_Some _ _ kj); [by rewrite length_insert|].
  by rewrite list_lookup_insert_ne.
Qed.

End Inversion.

(** ** The node fill evaluator, case by case *)

Section EvaluatorShape.

Context {Qu : Type}.
Implicit Types s : @State Qu.
Local Open Scope Q_scope.

(** Every call that returns took one of the three exits of the function,
    and the state it leaves is the one written out here. *)
Lemma raise_water_level_shape cpit cnode area z terms fz s filled dz s' :
  _raise_water_level cpit cnode area z terms fz s = Ok (filled, dz, s') →
  ∃ k a v cA c K,
    EvalReads s cpit cnode area terms k a v cA c K ∧
    let s3 := state_at_test fz cpit k a v cA c s in
    let v' := budget_at_test fz v c in
    ((fz = true ∧ v' < 0 ∧ filled = false ∧ dz = 0 ∧
      s' = set_lake_spill_node (<[cpit := (-1)%Z]> (lake_spill_node s)) s3) ∨
     (∃ aK, accum_Ks_at_pit s !! cpit = Some aK ∧ (fz = true → 0 <= v') ∧
        let V := V_increment_to_fill z (area_at_test fz a cA) (K + aK) in
        ((v' < V ∧ ¬ V == 0 ∧ filled = false ∧ dz = v' / V * z ∧
          s' = set_vol_rem_at_pit (<[cpit := 0]> (vol_rem_at_pit s3))
                 (set_lake_spill_node
                    (<[cpit := (-1)%Z]> (lake_spill_node s3)) s3)) ∨
         (V <= v' ∧ filled = true ∧ dz = z ∧
          s' = set_vol_rem_at_pit (<[cpit := v' - V]> (vol_rem_at_pit s3))
                 (set_accum_Ks_at_pit
                    (<[cpit := aK + K]> (accum_Ks_at_pit s3)) s3))))).
Proof.
  intros H.
  destruct (raise_water_level_reads _ _ _ _ _ _ _ _ H)
    as (k & a & v & cA & c & K & R).
  exists k, a, v, cA, c, K. split; [exact R|]. cbn zeta.
  rewrite (raise_water_level_unfold _ _ _ z _ fz _ _ _ _ _ _ _ R) in H.
  cbn zeta in H. destruct R as [Hk Ha Hv HcA Ht].
  destruct (state_at_test_lookups fz cpit k a v cA c s Ha Hv)
    as (Ha' & Hv' & HK' & Hsp).
  destruct (fz && Qltb (v + c) 0) eqn:Hearly.
  - apply andb_true_iff in Hearly as [-> Hneg]. apply Qltb_lt in Hneg.
    injection H as <- <- <-. left. by repeat split.
  - right.
    destruct (fill_decision_reads _ _ _ _ _ H)
      as (a2 & aK & v2 & Ha2 & HK & Hv2).
    rewrite (fill_decision_unfold _ _ _ _ _ _ _ Ha2 HK Hv2) in H.
    cbn zeta in H.
    rewrite Ha' in Ha2. injection Ha2 as <-.
    rewrite Hv' in Hv2. injection Hv2 as <-.
    rewrite HK' in HK. exists aK. split; [exact HK|]. split.
    { intros ->. cbn in Hearly. by apply Qltb_ge. }
    destruct (Qltb (budget_at_test fz v c) _) eqn:Hlt.
    + destruct (Qzerob _) eqn:Hz0; [discriminate|].
      apply Qltb_lt in Hlt. apply Qzerob_false in Hz0.
      injection H as <- <- <-. left. by repeat split.
    + apply Qltb_ge in Hlt. injection H as <- <- <-. right. by repeat split.
Qed.

(** The parts of that state the engine relies on. *)
Lemma raise_water_level_effects cpit cnode area z terms fz s filled dz s' :
  _raise_water_level cpit cnode area z terms fz s = Ok (filled, dz, s') →
  (∃ k, py_index (length (lake_map s)) cnode = Some k ∧
        lake_map s' = <[k := cpit]> (lake_map s)) ∧
  master_pit_q s' = master_pit_q s ∧
  lake_q_dict s' = lake_q_dict s ∧
  lake_water_level s' = lake_water_level s ∧
  lake_is_full s' = lake_is_full s ∧
  (filled = false → lake_spill_node s' !! cpit = Some (-1)%Z) ∧
  (filled = true → dz = z).
Proof.
  intros H.
  destruct (raise_water_level_shape _ _ _ _ _ _ _ _ _ _ H)
    as (k & a & v & cA & c & K & [Hk _ _ _ _] & Hcases).
  cbn zeta in Hcases.
  destruct Hcases as [(_ & _ & -> & _ & ->)
                     |(aK & _ & _ & [(_ & _ & -> & _ & ->)
                                    |(_ & -> & -> & ->)])];
    (split; [exists k; split; [exact Hk|];
             unfold state_at_test; destruct fz; reflexivity|]);
    unfold state_at_test; destruct fz; cbn;
    repeat split; try reflexivity; try discriminate;
    try (intros _; by simplify_map_eq).
Qed.

(** The budget a call leaves: none after the answer False, no deficit
    after the answer True. *)
Lemma raise_water_level_budget cpit cnode area z terms fz s filled dz s' :
  _raise_water_level cpit cnode area z terms fz s = Ok (filled, dz, s') →
  ∃ v, vol_rem_at_pit s' !! cpit = Some v ∧
       (filled = false → v <= 0) ∧ (filled = true → 0 <= v).
Proof.
  intros H.
  destruct (raise_water_level_shape _ _ _ _ _ _ _ _ _ _ H)
    as (k & a & v & cA & c & K & [Hk Ha Hv _ _] & Hcases).
  cbn zeta in Hcases.
  destruct (state_at_test_lookups fz cpit k a v cA c s Ha Hv)
    as (Ha' & Hv' & HK' & Hsp).
  destruct Hcases as [(-> & Hneg & -> & _ & ->)
                     |(aK & _ & _ & [(_ & _ & -> & _ & ->)
                                    |(Hle & -> & _ & ->)])].
  - exists (budget_at_test true v c).
    split; [exact Hv'|]. split; [intros _; by apply Qlt_le_weak|discriminate].
  - exists 0. cbn. rewrite lookup_insert_eq.
    split; [reflexivity|]. split; [intros _; lra|discriminate].
  - eexists. cbn. rewrite lookup_insert_eq.
    split; [reflexivity|]. split; [discriminate|intros _; lra].
Qed.

End EvaluatorShape.

(** ** The budget a call of the evaluator leaves behind *)

Section EvaluatorBudget.

Context {Qu : Type}.
Implicit Types s : @State Qu.
Local Open Scope Q_scope.

(** C3 (amended). A call that returns has read the lake's budget [v] and
    the node's terms [c] and [K], and the budget [v'] it stores is this.
    On first contact with [v + c] below zero (line 748) the answer is
    (False, 0), the spill designation is cleared and [v'] is [v + c], a
    negative number. In every other case the decision of lines 758-771 is
    taken and [v'] is not negative: with a budget below the volume
    required the answer is False, [v'] is exactly 0 and the depth reported
    is the fraction budget / volume required of the rise asked for (for a
    volume required that is not zero); with a budget that covers it the
    answer is (True, z_increment) and [v'] is the budget minus the volume
    required. *)
Theorem budget_nonneg_after_decision cpit cnode area z terms fz s filled dz s' :
  _raise_water_level cpit cnode area z terms fz s = Ok (filled, dz, s') →
  ∃ k a v cA c K v',
    EvalReads s cpit cnode area terms k a v cA c K ∧
    vol_rem_at_pit s' !! cpit = Some v' ∧
    (fz = true → v + c < 0 →
       filled = false ∧ dz = 0 ∧ v' = v + c ∧
       lake_spill_node s' !! cpit = Some (-1)%Z) ∧
    (¬ (fz = true ∧ v + c < 0) →
       ∃ aK, accum_Ks_at_pit s !! cpit = Some aK ∧
         let v0 := budget_at_test fz v c in
         let V := V_increment_to_fill z (area_at_test fz a cA) (K + aK) in
         (v0 < V →
            filled = false ∧ v' = 0 ∧ (¬ V == 0 → dz = v0 / V * z)) ∧
         (V <= v0 → filled = true ∧ dz = z ∧ v' = v0 - V) ∧
         0 <= v') ∧
    (0 <= v' ∨
     (fz = true ∧ filled = false ∧ dz = 0 ∧ v' < 0 ∧ v' = v + c)).
Proof.
  intros H.
  destruct (raise_water_level_shape _ _ _ _ _ _ _ _ _ _ H)
    as (k & a & v & cA & c & K & R & Hcases).
  cbn zeta in Hcases. pose proof R as [Hk Ha Hv _ _].
  destruct (state_at_test_lookups fz cpit k a v cA c s Ha Hv)
    as (Ha' & Hv' & HK' & Hsp).
  exists k, a, v, cA, c, K.
  destruct Hcases as [(-> & Hneg & -> & -> & ->)
                     |(aK & HK & Hnn & [(Hlt & _ & -> & -> & ->)
                                       |(Hle & -> & -> & ->)])].
  - exists (v + c). split; [exact R|]. cbn in Hneg.
    split; [exact Hv'|]. split; [|split].
    + intros _ _. repeat split. cbn. apply lookup_insert_eq.
    + intros Hno. exfalso. apply Hno. by split.
    + right. by repeat split.
  - exists 0. split; [exact R|].
    split; [cbn; apply lookup_insert_eq|]. split; [|split].
    + intros -> Hneg. specialize (Hnn eq_refl). cbn in Hnn. lra.
    + intros _. exists aK. split; [exact HK|]. cbn zeta.
      split; [by intros _|]. split; [intros Hle; lra|lra].
    + left. lra.
  - eexists. split; [exact R|].
    split; [cbn; apply lookup_insert_eq|]. split; [|split].
    + intros -> Hneg. specialize (Hnn eq_refl). cbn in Hnn. lra.
    + intros _. exists aK. split; [exact HK|]. cbn zeta.
      split; [intros Hlt; lra|]. split; [by intros _|lra].
    + left. lra.
Qed.

End EvaluatorBudget.

Section EvaluatorBudgetExamples.

Import DocEvaluator.
Local Open Scope Q_scope.

(** The docstring's third call takes the first-contact return: budget 33,
    constant term -34. *)
Lemma budget_nonneg_after_decision_witness :
  ∃ k a v cA c K v',
    EvalReads before_third 5 6 area_map (Scalar (-34), Scalar (-3))
      k a v cA c K ∧
    vol_rem_at_pit
      (mkState [-1; -1; -1; 5; 5; 5; 5; -1; -1]%Z ([] : ListQueue.t) ∅ ∅
         {[5%Z := 10]} {[5%Z := -1]} {[5%Z := 0]} ∅ {[5%Z := (-1)%Z]})
      !! 5%Z = Some v' ∧
    (true = true → v + c < 0 →
       false = false ∧ 0 = 0 ∧ v' = v + c ∧
       lake_spill_node
         (mkState [-1; -1; -1; 5; 5; 5; 5; -1; -1]%Z ([] : ListQueue.t) ∅ ∅
            {[5%Z := 10]} {[5%Z := -1]} {[5%Z := 0]} ∅ {[5%Z := (-1)%Z]})
         !! 5%Z = Some (-1)%Z) ∧
    (¬ (true = true ∧ v + c < 0) →
       ∃ aK, accum_Ks_at_pit before_third !! 5%Z = Some aK ∧
         let v0 := budget_at_test true v c in
         let V := V_increment_to_fill 1 (area_at_test true a cA) (K + aK) in
         (v0 < V →
            false = false ∧ v' = 0 ∧ (¬ V == 0 → 0 = v0 / V * 1)) ∧
         (V <= v0 → false = true ∧ 0 = 1 ∧ v' = v0 - V) ∧
         0 <= v') ∧
    (0 <= v' ∨
     (true = true ∧ false = false ∧ 0 = 0 ∧ v' < 0 ∧ v' = v + c)).
Proof.
  apply (budget_nonneg_after_decision (Qu := ListQueue.t) 5 6 area_map 1
           (Scalar (-34), Scalar (-3)) true before_third false 0).
  exact doc_third_call.
Defined.

End EvaluatorBudgetExamples.

Section EvaluatorExtras.

Context {Qu : Type}.
Implicit Types s : @State Qu.
Local Open Scope Q_scope.

(** X1. A fill the budget can pay for: when the first-contact update has
    not taken the budget below zero and the budget covers the volume
    required, the call answers (True, z_increment), takes exactly the
    volume required from the budget, adds the node's depth-proportional
    term to the lake's accumulated coefficient and leaves every spill
    designation as it was. *)
Theorem raise_water_level_full_fill cpit cnode area z terms fz s k a v aK cA
    c K :
  EvalReads s cpit cnode area terms k a v cA c K →
  accum_Ks_at_pit s !! cpit = Some aK →
  (fz = true → 0 <= budget_at_test fz v c) →
  V_increment_to_fill z (area_at_test fz a cA) (K + aK)
    <= budget_at_test fz v c →
  ∃ s',
    _raise_water_level cpit cnode area z terms fz s = Ok (true, z, s') ∧
    vol_rem_at_pit s' !! cpit
      = Some (budget_at_test fz v c
              - V_increment_to_fill z (area_at_test fz a cA) (K + aK)) ∧
    accum_Ks_at_pit s' !! cpit = Some (aK + K) ∧
    accum_area_at_pit s' !! cpit = Some (area_at_test fz a cA) ∧
    lake_spill_node s' = lake_spill_node s.
Proof.
  intros R HK Hnn Hle.
  rewrite (raise_water_level_cases _ _ _ z _ fz _ _ _ _ _ _ _ _ R HK).
  cbn zeta. destruct R as [Hk Ha Hv HcA Ht].
  destruct (state_at_test_lookups fz cpit k a v cA c s Ha Hv)
    as (Ha' & Hv' & HK' & Hsp).
  assert (fz && Qltb (budget_at_test fz v c) 0 = false) as ->.
  { destruct fz; [|reflexivity]. cbn. apply Qltb_ge. by apply Hnn. }
  assert (Qltb (budget_at_test fz v c)
            (V_increment_to_fill z (area_at_test fz a cA) (K + aK)) = false)
    as -> by (by apply Qltb_ge).
  eexists. split; [reflexivity|]. cbn.
  rewrite !lookup_insert_eq. repeat split; assumption.
Qed.

(** X2. Whatever its answer, a call that returns has written the lake id at
    the node's place in the ownership map, and nowhere else: reading the
    node back gives the lake, every other place holds what it held, and
    the map keeps its length. *)
Theorem raise_water_level_owns_node cpit cnode area z terms fz s filled dz s' :
  _raise_water_level cpit cnode area z terms fz s = Ok (filled, dz, s') →
  arr_get (lake_map s') cnode = Ok cpit ∧
  length (lake_map s') = length (lake_map s) ∧
  ∃ k, py_index (length (lake_map s)) cnode = Some k ∧
    ∀ j, j ≠ k → lake_map s' !! j = lake_map s !! j.
Proof.
  intros H.
  destruct (raise_water_level_shape _ _ _ _ _ _ _ _ _ _ H)
    as (k & a & v & cA & c & K & [Hk Ha Hv HcA Ht] & Hcases).
  cbn zeta in Hcases.
  assert (Hmap : lake_map s' = <[k := cpit]> (lake_map s)).
  { destruct Hcases as [(_ & _ & _ & _ & ->)
                       |(aK & _ & _ & [(_ & _ & _ & _ & ->)
                                      |(_ & _ & _ & ->)])];
      unfold state_at_test; destruct fz; reflexivity. }
  rewrite Hmap. split; [by apply arr_get_insert_same|].
  split; [apply length_insert|].
  exists k. split; [exact Hk|]. intros j Hj.
  by apply list_lookup_insert_ne.
Qed.

(** X3. The evaluator works on one lake only. It never touches the queues,
    the water levels or the full flags, and in the four dictionaries it
    does write (area, budget, loss coefficient, spill node) the entries of
    every other lake stay as they were. *)
Theorem raise_water_level_frame cpit cnode area z terms fz s filled dz s' :
  _raise_water_level cpit cnode area z terms fz s = Ok (filled, dz, s') →
  master_pit_q s' = master_pit_q s ∧
  lake_q_dict s' = lake_q_dict s ∧
  lake_water_level s' = lake_water_level s ∧
  lake_is_full s' = lake_is_full s ∧
  ∀ p, p ≠ cpit →
    accum_area_at_pit s' !! p = accum_area_at_pit s !! p ∧
    vol_rem_at_pit s' !! p = vol_rem_at_pit s !! p ∧
    accum_Ks_at_pit s' !! p = accum_Ks_at_pit s !! p ∧
    lake_spill_node s' !! p = lake_spill_node s !! p.
Proof.
  intros H.
  destruct (raise_water_level_shape _ _ _ _ _ _ _ _ _ _ H)
    as (k & a & v & cA & c & K & _ & Hcases).
  cbn zeta in Hcases.
  destruct Hcases as [(_ & _ & _ & _ & ->)
                     |(aK & _ & _ & [(_ & _ & _ & _ & ->)
                                    |(_ & _ & _ & ->)])];
    unfold state_at_test; destruct fz; cbn;
    (repeat split; try reflexivity; by simplify_map_eq).
Qed.

(** X4. A partial fill stops short of the node it was aiming at: with a
    budget that is not negative but below the volume required for a
    positive rise, the depth reported is at least zero and strictly less
    than the rise asked for. *)
Theorem raise_water_level_partial_bound cpit cnode area z terms fz s k a v aK
    cA c K :
  EvalReads s cpit cnode area terms k a v cA c K →
  accum_Ks_at_pit s !! cpit = Some aK →
  0 < z →
  0 <= budget_at_test fz v c →
  budget_at_test fz v c
    < V_increment_to_fill z (area_at_test fz a cA) (K + aK) →
  ∃ dz s',
    _raise_water_level cpit cnode area z terms fz s = Ok (false, dz, s') ∧
    0 <= dz ∧ dz < z.
Proof.
  intros R HK Hz Hnn Hlt.
  rewrite (raise_water_level_cases _ _ _ z _ fz _ _ _ _ _ _ _ _ R HK).
  cbn zeta.
  generalize dependent (budget_at_test fz v c). intros v' Hnn.
  generalize (area_at_test fz a cA). intros A Hlt.
  rewrite (Qltb_false_of_le _ _ Hnn), andb_false_r.
  rewrite (Qltb_true_of_lt _ _ Hlt).
  assert (HV : 0 < V_increment_to_fill z A (K + aK))
    by (eapply Qle_lt_trans; eassumption).
  assert (HVz : Qzerob (V_increment_to_fill z A (K + aK)) = false).
  { apply Qzerob_false. intros E. rewrite E in HV. lra. }
  rewrite HVz. eexists _, _. split; [reflexivity|].
  set (V := V_increment_to_fill z A (K + aK)) in *.
  assert (Hfrac0 : 0 <= v' / V) by (apply Qle_shift_div_l; [exact HV | lra]).
  assert (Hfrac1 : v' / V < 1) by (apply Qlt_shift_div_r; [exact HV | lra]).
  generalize dependent (v' / V). intros frac Hfrac0 Hfrac1.
  split; [apply Qmult_le_0_compat; lra | nra].
Qed.

(** X5. What a failed fill leaves behind, and what a full fill does not
    touch: after the answer False the lake's accumulated loss coefficient
    is what it was and its spill designation is -1; after the answer True
    the spill designation is what it was. *)
Theorem raise_water_level_spill_and_Ks cpit cnode area z terms fz s filled dz
    s' :
  _raise_water_level cpit cnode area z terms fz s = Ok (filled, dz, s') →
  (filled = false →
     accum_Ks_at_pit s' = accum_Ks_at_pit s ∧
     lake_spill_node s' !! cpit = Some (-1)%Z) ∧
  (filled = true → dz = z ∧ lake_spill_node s' = lake_spill_node s).
Proof.
  intros H.
  destruct (raise_water_level_shape _ _ _ _ _ _ _ _ _ _ H)
    as (k & a & v & cA & c & K & _ & Hcases).
  cbn zeta in Hcases.
  destruct Hcases as [(_ & _ & -> & _ & ->)
                     |(aK & _ & _ & [(_ & _ & -> & _ & ->)
                                    |(_ & -> & -> & ->)])];
    unfold state_at_test; destruct fz; cbn;
    (split; [intros ?|intros ?]; try discriminate;
     split; try reflexivity; by simplify_map_eq).
Qed.

(** X6. When the evaluator returns, for a lake id that the 64-bit integers
    of the ownership map hold.  A call that returns has found the node in
    the ownership map, the area map and any per-node coefficient array and
    the lake in the area and budget dictionaries, and either the
    first-contact update has taken the budget below zero, or the lake is a
    key of the coefficient dictionary.  Conversely these reads suffice for
    the call to return, as long as the division of line 760 is not that of
    a deficit by a volume of zero (where Python floats raise and NumPy
    floats go on with a depth that is no number). *)
Theorem raise_water_level_returns_when cpit cnode area z terms fz s :
  (- 2 ^ 63 <= cpit < 2 ^ 63)%Z →
  (∀ r, _raise_water_level cpit cnode area z terms fz s = Ok r →
     ∃ k a v cA c K,
       EvalReads s cpit cnode area terms k a v cA c K ∧
       ((fz = true ∧ budget_at_test fz v c < 0) ∨
        ∃ aK, accum_Ks_at_pit s !! cpit = Some aK)) ∧
  (∀ k a v cA c K,
     EvalReads s cpit cnode area terms k a v cA c K →
     ((fz = true ∧ budget_at_test fz v c < 0) ∨
      ∃ aK, accum_Ks_at_pit s !! cpit = Some aK ∧
        ¬ (budget_at_test fz v c < 0 ∧
           V_increment_to_fill z (area_at_test fz a cA) (K + aK) == 0)) →
     ∃ r, _raise_water_level cpit cnode area z terms fz s = Ok r).
Proof.
  intros _. split.
  - intros [[filled dz] s'] H.
    destruct (raise_water_level_shape _ _ _ _ _ _ _ _ _ _ H)
      as (k & a & v & cA & c & K & R & Hcases).
    exists k, a, v, cA, c, K. split; [exact R|]. cbn zeta in Hcases.
    destruct Hcases as [(-> & Hneg & _)|(aK & HK & _)].
    + left. by split.
    + right. by exists aK.
  - intros k a v cA c K R Hcases.
    destruct Hcases as [[-> Hneg]|(aK & HK & Hsafe)].
    + rewrite (raise_water_level_unfold _ _ _ z _ true _ _ _ _ _ _ _ R).
      cbn zeta. unfold budget_at_test in Hneg.
      rewrite (Qltb_true_of_lt _ _ Hneg). cbn. by eexists.
    + rewrite (raise_water_level_cases _ _ _ z _ fz _ _ _ _ _ _ _ _ R HK).
      cbn zeta.
      destruct (fz && Qltb (budget_at_test fz v c) 0); [by eexists|].
      destruct (Qltb (budget_at_test fz v c) _) eqn:Hlt; [|by eexists].
      destruct (Qzerob _) eqn:Hz0; [|by eexists].
      exfalso. apply Hsafe. apply Qltb_lt in Hlt. apply Qzerob_true in Hz0.
      split; [lra | exact Hz0].
Qed.

(** X7. Without gains or losses at the node and in the lake, a call that
    returns takes from the budget exactly the lake area times the depth it
    reports, as long as it is not a resumed fill that carries a deficit
    and needs no volume (the division by zero of line 760). *)
Theorem raise_water_level_conserves cpit cnode area z terms fz s filled dz s'
    a v c K :
  _raise_water_level cpit cnode area z terms fz s = Ok (filled, dz, s') →
  accum_area_at_pit s !! cpit = Some a →
  vol_rem_at_pit s !! cpit = Some v →
  _get_float_water_vol_balance_terms terms area cnode = Ok (c, K) →
  c == 0 → K == 0 →
  (∀ aK, accum_Ks_at_pit s !! cpit = Some aK → aK == 0) →
  (fz = false → v < 0 → ¬ z * a == 0) →
  ∃ v' A', vol_rem_at_pit s' !! cpit = Some v' ∧
    accum_area_at_pit s' !! cpit = Some A' ∧ v - v' == A' * dz.
Proof.
  intros H Ha0 Hv0 Ht0 Hc HK HaK _.
  destruct (raise_water_level_reads _ _ _ _ _ _ _ _ H)
    as (k & a1 & v1 & cA & c1 & K1 & R).
  rewrite (raise_water_level_unfold _ _ _ z _ fz _ _ _ _ _ _ _ R) in H.
  cbn zeta in H. destruct R as [Hk Ha Hv HcA Ht].
  assert (v1 = v) as -> by congruence.
  assert (a1 = a) as -> by congruence.
  assert (c1 = c ∧ K1 = K) as [-> ->] by (split; congruence).
  destruct (state_at_test_lookups fz cpit k a v cA c s Ha Hv)
    as (Ha' & Hv' & HK' & Hsp).
  destruct (fz && Qltb (v + c) 0) eqn:Hearly.
  - apply andb_true_iff in Hearly as [-> _]. injection H as <- <- <-.
    cbn. exists (v + c), (a + cA). rewrite !lookup_insert_eq.
    repeat split. lra.
  - destruct (fill_decision_reads _ _ _ _ _ H)
      as (a2 & aK & v2 & Ha2 & HK2 & Hv2).
    rewrite (fill_decision_unfold _ _ _ _ _ _ _ Ha2 HK2 Hv2) in H.
    cbn zeta in H. rewrite HK' in HK2. specialize (HaK _ HK2).
    rewrite Ha' in Ha2. injection Ha2 as <-.
    rewrite Hv' in Hv2. injection Hv2 as <-.
    assert (HV : V_increment_to_fill z (area_at_test fz a cA) (K + aK)
                 == z * area_at_test fz a cA).
    { unfold V_increment_to_fill. rewrite HK, HaK. ring. }
    assert (Hb : budget_at_test fz v c == v).
    { unfold budget_at_test. destruct fz; [rewrite Hc; ring | reflexivity]. }
    destruct (Qltb (budget_at_test fz v c) _) eqn:Hlt.
    + destruct (Qzerob _) eqn:Hz0; [discriminate|].
      apply Qzerob_false in Hz0. injection H as <- <- <-.
      exists 0, (area_at_test fz a cA). cbn. rewrite lookup_insert_eq.
      split; [reflexivity|]. split; [exact Ha'|].
      rewrite HV in Hz0 |- *. rewrite Hb.
      assert (¬ z == 0) by (intros E; apply Hz0; rewrite E; ring).
      assert (¬ area_at_test fz a cA == 0)
        by (intros E; apply Hz0; rewrite E; ring).
      field. split; assumption.
    + injection H as <- <- <-. eexists _, (area_at_test fz a cA). cbn.
      rewrite lookup_insert_eq. split; [reflexivity|]. split; [exact Ha'|].
      rewrite HV, Hb. ring.
Qed.

(** X8. A per-node array that holds the same value at every node gives
    what the float gives: for a node inside the grid, the two terms
    returned for constant arrays [c] and [K] are those returned for the
    floats [c] and [K]. *)
Theorem get_float_terms_constant_array c K area node :
  is_Some (py_index (length area) node) →
  _get_float_water_vol_balance_terms
    (PerNode (repeat c (length area)), PerNode (repeat K (length area)))
    area node
  = _get_float_water_vol_balance_terms (Scalar c, Scalar K) area node.
Proof.
  intros [k Hk]. pose proof (py_index_lt _ _ _ Hk) as Hlt.
  assert (Hrep : ∀ x : Q, arr_get (repeat x (length area)) node = Ok x).
  { intros x. apply (arr_get_Some _ _ k); [by rewrite repeat_length|].
    clear Hk. revert k Hlt.
    induction (length area) as [|n IH]; intros k Hlt; [lia|].
    destruct k as [|k]; [reflexivity|]. cbn. apply IH. lia. }
  unfold _get_float_water_vol_balance_terms. cbn. by rewrite !Hrep.
Qed.

End EvaluatorExtras.

(** ** The lake merge procedure, beyond the two lakes it merges *)

Section MergeExtras.

Context {Qu : Type} `{SPQ : StablePriorityQueue Qu}.
Implicit Types s : @State Qu.
Local Open Scope Q_scope.

Lemma reassign_same p (lm : list Z) : reassign p p lm = lm.
Proof.
  unfold reassign. induction lm as [|x lm IH]; [reflexivity|].
  cbn. rewrite IH. destruct (x =? p)%Z eqn:E; [|reflexivity].
  apply Z.eqb_eq in E. by subst.
Qed.

(** A merge that returns: what it has read, and the state it leaves. *)
Lemma merge_two_lakes_inv this that z_topo s r :
  _merge_two_lakes this that z_topo s = Ok r →
  ∃ l1 l2 z1 z2 ql qh al ah vl vh kl kh,
    lake_water_level s !! this = Some l1 ∧
    lake_water_level s !! that = Some l2 ∧
    isclose l1 l2 = true ∧
    arr_get z_topo this = Ok z1 ∧ arr_get z_topo that = Ok z2 ∧
    let low := if Qltb z1 z2 then this else that in
    let hi := if Qltb z1 z2 then that else this in
    lake_q_dict s !! low = Some ql ∧ lake_q_dict s !! hi = Some qh ∧
    accum_area_at_pit s !! low = Some al ∧ accum_area_at_pit s !! hi = Some ah ∧
    vol_rem_at_pit s !! low = Some vl ∧ vol_rem_at_pit s !! hi = Some vh ∧
    accum_Ks_at_pit s !! low = Some kl ∧ accum_Ks_at_pit s !! hi = Some kh ∧
    is_Some (lake_is_full s !! hi) ∧ is_Some (lake_spill_node s !! hi) ∧
    r = (low,
         mkState (reassign hi low (lake_map s)) (master_pit_q s)
           (delete hi (<[low := merge_queues ql qh]> (lake_q_dict s)))
           (delete hi (lake_water_level s))
           (<[low := al + ah]> (delete hi (accum_area_at_pit s)))
           (<[low := vl + vh]> (delete hi (vol_rem_at_pit s)))
           (<[low := kl + kh]> (delete hi (accum_Ks_at_pit s)))
           (delete hi (lake_is_full s))
           (<[low := (-1)%Z]> (delete hi (lake_spill_node s)))).
Proof.
  unfold _merge_two_lakes. intros H.
  apply bind_Ok in H as (l1 & Hl1 & H). apply dict_get_Ok in Hl1.
  apply bind_Ok in H as (l2 & Hl2 & H). apply dict_get_Ok in Hl2.
  destruct (isclose l1 l2) eqn:Hc; [|discriminate]. cbn [negb] in H.
  apply bind_Ok in H as (z1 & Hz1 & H).
  apply bind_Ok in H as (z2 & Hz2 & H).
  exists l1, l2, z1, z2. cbn zeta.
  generalize dependent (if Qltb z1 z2 then this else that). intros low.
  generalize dependent (if Qltb z1 z2 then that else this).
  intros hi H.
  apply bind_Ok in H as (ql & Hql & H). apply dict_get_Ok in Hql.
  apply bind_Ok in H as (qh & Hqh & H). apply dict_get_Ok in Hqh.
  apply bind_Ok in H as ([? qd] & Hqd & H).
  apply dict_pop_Ok in Hqd as [_ ->].
  apply bind_Ok in H as (area & Ha & H).
  apply dict_add_pop_Ok in Ha as (al & ah & Hal & Hah & ->).
  apply bind_Ok in H as (vol & Hv & H).
  apply dict_add_pop_Ok in Hv as (vl & vh & Hvl & Hvh & ->).
  apply bind_Ok in H as (Ks & Hk & H).
  apply dict_add_pop_Ok in Hk as (kl & kh & Hkl & Hkh & ->).
  apply bind_Ok in H as ([? lvl] & Hl & H).
  apply dict_pop_Ok in Hl as [_ ->].
  apply bind_Ok in H as ([fh full] & Hf & H).
  apply dict_pop_Ok in Hf as [Hfh ->].
  apply bind_Ok in H as ([sh spill] & Hs & H).
  apply dict_pop_Ok in Hs as [Hsh ->].
  exists ql, qh, al, ah, vl, vh, kl, kh.
  repeat (split; [done || by eexists|]). by simplify_eq.
Qed.

(** The merge run forward from the entries it reads. *)
Lemma merge_two_lakes_run this that z_topo s l1 l2 z1 z2 :
  lake_water_level s !! this = Some l1 →
  lake_water_level s !! that = Some l2 →
  isclose l1 l2 = true →
  arr_get z_topo this = Ok z1 → arr_get z_topo that = Ok z2 →
  let low := if Qltb z1 z2 then this else that in
  let hi := if Qltb z1 z2 then that else this in
  is_Some (lake_q_dict s !! low) → is_Some (accum_area_at_pit s !! low) →
  is_Some (vol_rem_at_pit s !! low) → is_Some (accum_Ks_at_pit s !! low) →
  is_Some (lake_at s hi) →
  ∃ s', _merge_two_lakes this that z_topo s = Ok (low, s').
Proof.
  intros Hl1 Hl2 Hc Hz1 Hz2 low hi [ql Hql] [al Hal] [vl Hvl] [kl Hkl] [L HL].
  apply lake_at_Some in HL as (Hqh & Hlh & Hah & Hvh & Hkh & Hfh & Hsh).
  unfold _merge_two_lakes.
  rewrite (dict_get_Some _ _ _ Hl1), (dict_get_Some _ _ _ Hl2). cbn.
  rewrite Hc. cbn. rewrite Hz1, Hz2. cbn. fold low hi.
  rewrite (dict_get_Some _ _ _ Hql), (dict_get_Some _ _ _ Hqh). cbn.
  assert (Hpop : ∃ x, dict_pop (<[low := merge_queues ql (lk_queue L)]>
                                  (lake_q_dict s)) hi
                      = Ok (x, delete hi (<[low := merge_queues ql (lk_queue L)]>
                                            (lake_q_dict s)))).
  { unfold dict_pop, dict_get. rewrite lookup_insert.
    destruct (decide (low = hi)); [by eexists|].
    cbn. rewrite Hqh. by eexists. }
  destruct Hpop as [x ->]. cbn.
  rewrite (dict_add_pop_Some _ _ _ _ _ Hal Hah). cbn.
  rewrite (dict_add_pop_Some _ _ _ _ _ Hvl Hvh). cbn.
  rewrite (dict_add_pop_Some _ _ _ _ _ Hkl Hkh). cbn.
  rewrite (dict_pop_Some _ _ _ Hlh), (dict_pop_Some _ _ _ Hfh),
    (dict_pop_Some _ _ _ Hsh). cbn. by eexists.
Qed.

Lemma Qltb_antisym_false a b : Qltb a b = true → Qltb b a = false.
Proof. intros H. apply Qltb_lt in H. apply Qltb_ge. lra. Qed.

(** X9. A merge that returns has touched the two lakes it was given and
    nothing else: the master queue is the same, every lake id other than
    the two arguments has the same entry (or none) in each of the seven
    per-lake dictionaries, every node owned by neither argument keeps its
    entry in the ownership map, and the id returned is one of the two
    arguments.  For two distinct ids the survivor keeps its own water
    level and full flag. *)
Theorem merge_two_lakes_frame this that z_topo s low s' :
  _merge_two_lakes this that z_topo s = Ok (low, s') →
  (low = this ∨ low = that) ∧
  master_pit_q s' = master_pit_q s ∧
  (∀ p, p ≠ this → p ≠ that →
     lake_q_dict s' !! p = lake_q_dict s !! p ∧
     lake_water_level s' !! p = lake_water_level s !! p ∧
     accum_area_at_pit s' !! p = accum_area_at_pit s !! p ∧
     vol_rem_at_pit s' !! p = vol_rem_at_pit s !! p ∧
     accum_Ks_at_pit s' !! p = accum_Ks_at_pit s !! p ∧
     lake_is_full s' !! p = lake_is_full s !! p ∧
     lake_spill_node s' !! p = lake_spill_node s !! p) ∧
  (∀ (i : nat) x, lake_map s !! i = Some x → x ≠ this → x ≠ that →
     lake_map s' !! i = Some x) ∧
  (this ≠ that →
     lake_water_level s' !! low = lake_water_level s !! low ∧
     lake_is_full s' !! low = lake_is_full s !! low).
Proof.
  intros H.
  apply merge_two_lakes_inv in H
    as (l1 & l2 & z1 & z2 & ql & qh & al & ah & vl & vh & kl & kh
        & _ & _ & _ & _ & _ & _ & _ & _ & _ & _ & _ & _ & _ & _ & _ & E).
  injection E as -> ->. cbn.
  split; [destruct (Qltb z1 z2); auto|].
  split; [reflexivity|].
  split; [|split].
  - intros p H1 H2.
    assert (p ≠ (if Qltb z1 z2 then this else that))
      by (destruct (Qltb z1 z2); done).
    assert (p ≠ (if Qltb z1 z2 then that else this))
      by (destruct (Qltb z1 z2); done).
    repeat split; by simplify_map_eq.
  - intros i x Hx H1 H2. rewrite (reassign_lookup _ _ _ _ _ Hx).
    destruct (x =? _)%Z eqn:E; [|reflexivity].
    apply Z.eqb_eq in E. destruct (Qltb z1 z2); congruence.
  - intros Hne.
    assert ((if Qltb z1 z2 then this else that)
            ≠ (if Qltb z1 z2 then that else this))
      by (destruct (Qltb z1 z2); congruence).
    split; by simplify_map_eq.
Qed.

(** X10. The merge returns exactly when: both ids have a water level and
    the two are within NumPy's tolerance, both ids index [z_topo], the
    lake that survives has a queue, an area, a budget and a loss
    coefficient, and the lake that is retired has an entry in every
    per-lake dictionary.  The survivor's full flag and spill designation
    are never read. *)
Theorem merge_two_lakes_returns_iff this that z_topo s :
  (∃ r, _merge_two_lakes this that z_topo s = Ok r) ↔
  ∃ l1 l2 z1 z2,
    lake_water_level s !! this = Some l1 ∧
    lake_water_level s !! that = Some l2 ∧
    isclose l1 l2 = true ∧
    arr_get z_topo this = Ok z1 ∧ arr_get z_topo that = Ok z2 ∧
    let low := if Qltb z1 z2 then this else that in
    let hi := if Qltb z1 z2 then that else this in
    is_Some (lake_q_dict s !! low) ∧ is_Some (accum_area_at_pit s !! low) ∧
    is_Some (vol_rem_at_pit s !! low) ∧ is_Some (accum_Ks_at_pit s !! low) ∧
    is_Some (lake_at s hi).
Proof.
  split.
  - intros [r H].
    apply merge_two_lakes_inv in H
      as (l1 & l2 & z1 & z2 & ql & qh & al & ah & vl & vh & kl & kh
          & Hl1 & Hl2 & Hc & Hz1 & Hz2 & Hql & Hqh & Hal & Hah & Hvl & Hvh
          & Hkl & Hkh & [f Hf] & [sp Hsp] & _).
    exists l1, l2, z1, z2. do 5 (split; [done|]). cbn zeta.
    repeat (split; [by eexists|]).
    assert (is_Some (lake_water_level s !! (if Qltb z1 z2 then that else this)))
      as [lh Hlh] by (destruct (Qltb z1 z2); by eexists).
    unfold lake_at. rewrite Hqh, Hlh, Hah, Hvh, Hkh, Hf, Hsp. by eexists.
  - intros (l1 & l2 & z1 & z2 & Hl1 & Hl2 & Hc & Hz1 & Hz2 & Hq & Ha & Hv
            & Hk & Hhi).
    destruct (merge_two_lakes_run _ _ _ _ _ _ _ _ Hl1 Hl2 Hc Hz1 Hz2
                Hq Ha Hv Hk Hhi) as [s' Hs'].
    by eexists.
Qed.

(** X11. Once two distinct lakes are merged, the id that did not survive
    is stale: whatever else the state holds, any later merge that names
    it, as first or as second argument and with any partner and any
    elevations, fails with a [KeyError]. *)
Theorem merge_retired_id_fails this that z_topo s low s' :
  this ≠ that →
  _merge_two_lakes this that z_topo s = Ok (low, s') →
  ∃ hi, (hi = this ∨ hi = that) ∧ hi ≠ low ∧
    ∀ p z', _merge_two_lakes hi p z' s' = Err KeyError ∧
            _merge_two_lakes p hi z' s' = Err KeyError.
Proof.
  intros Hne H.
  apply merge_two_lakes_inv in H
    as (l1 & l2 & z1 & z2 & ql & qh & al & ah & vl & vh & kl & kh
        & _ & _ & _ & _ & _ & _ & _ & _ & _ & _ & _ & _ & _ & _ & _ & E).
  injection E as -> ->.
  exists (if Qltb z1 z2 then that else this).
  split; [destruct (Qltb z1 z2); auto|].
  split; [destruct (Qltb z1 z2); congruence|].
  set (hi := if Qltb z1 z2 then that else this).
  assert (Hhi : dict_get (delete hi (lake_water_level s)) hi
                = @Err Q KeyError).
  { unfold dict_get. by rewrite lookup_delete_eq. }
  intros p z'. unfold _merge_two_lakes. cbn [lake_water_level].
  split.
  - rewrite Hhi; done.
  - destruct (dict_get (delete hi (lake_water_level s)) p) as [l|e] eqn:E.
    + cbn. rewrite Hhi; done.
    + unfold dict_get in E. destruct (_ !! p); [discriminate|].
      cbn in E. by injection E as <-.
Qed.

(** X12. Merging a lake with itself is not refused: with the lake present
    in every dictionary and its pit inside [z_topo], the call returns the
    same id, leaves the ownership map as it is, removes the lake's queue,
    water level and full flag, doubles its area, budget and loss
    coefficient, and sets its spill designation to -1. *)
Theorem merge_two_lakes_self p z_topo s L z :
  lake_at s p = Some L →
  arr_get z_topo p = Ok z →
  ∃ s', _merge_two_lakes p p z_topo s = Ok (p, s') ∧
    lake_map s' = lake_map s ∧
    lake_q_dict s' !! p = None ∧
    lake_water_level s' !! p = None ∧
    lake_is_full s' !! p = None ∧
    accum_area_at_pit s' !! p = Some (lk_area L + lk_area L) ∧
    vol_rem_at_pit s' !! p = Some (lk_vol L + lk_vol L) ∧
    accum_Ks_at_pit s' !! p = Some (lk_Ks L + lk_Ks L) ∧
    lake_spill_node s' !! p = Some (-1)%Z.
Proof.
  intros HL Hz.
  assert (Hc : isclose (lk_level L) (lk_level L) = true)
    by (apply isclose_of_Qeq; reflexivity).
  rewrite (merge_two_lakes_unfold _ _ _ _ _ _ _ _ HL HL Hz Hz Hc).
  assert (E : ∀ (A : Type) (x y : A), (if Qltb z z then x else y) = y).
  { intros A x y. assert (Qltb z z = false) as -> by (apply Qltb_ge; lra).
    reflexivity. }
  rewrite !E. eexists. split; [reflexivity|]. cbn.
  split; [apply reassign_same|].
  repeat split; by simplify_map_eq.
Qed.

(** X13. The order of the two arguments decides the survivor only on a
    tie.  For two lakes whose levels pass the tolerance test both ways:
    if the two pit elevations differ, both orders give the same id and
    the same state; if they are equal, each order returns its second
    argument. *)
Theorem merge_two_lakes_argument_order this that z_topo s L1 L2 z1 z2 :
  lake_at s this = Some L1 →
  lake_at s that = Some L2 →
  arr_get z_topo this = Ok z1 →
  arr_get z_topo that = Ok z2 →
  isclose (lk_level L1) (lk_level L2) = true →
  isclose (lk_level L2) (lk_level L1) = true →
  (¬ z1 == z2 →
     _merge_two_lakes this that z_topo s = _merge_two_lakes that this z_topo s) ∧
  (z1 == z2 →
     ∃ s1 s2, _merge_two_lakes this that z_topo s = Ok (that, s1) ∧
              _merge_two_lakes that this z_topo s = Ok (this, s2)).
Proof.
  intros H1 H2 Hz1 Hz2 Hc12 Hc21.
  rewrite (merge_two_lakes_unfold _ _ _ _ _ _ _ _ H1 H2 Hz1 Hz2 Hc12).
  rewrite (merge_two_lakes_unfold _ _ _ _ _ _ _ _ H2 H1 Hz2 Hz1 Hc21).
  split.
  - intros Hne. destruct (Qltb z1 z2) eqn:E12.
    + rewrite (Qltb_antisym_false _ _ E12). reflexivity.
    + assert (Qltb z2 z1 = true) as ->; [|reflexivity].
      apply Qltb_true_of_lt. apply Qltb_ge in E12.
      destruct (Qlt_le_dec z2 z1) as [Hlt|Hle]; [exact Hlt|].
      exfalso. apply Hne. lra.
  - intros Heq.
    assert (Qltb z1 z2 = false) as -> by (apply Qltb_ge; lra).
    assert (Qltb z2 z1 = false) as -> by (apply Qltb_ge; lra).
    eexists _, _. split; reflexivity.
Qed.

End MergeExtras.
(** ** The level-raising engine, exit by exit *)

Section EngineSteps.

Context {Qu : Type} `{SPQ : StablePriorityQueue Qu}.
Implicit Types s : @State Qu.
Local Open Scope Q_scope.

Local Ltac conj := repeat match goal with |- _ ∧ _ => split end.

Lemma dom_insert_within {V} (m : gmap Z V) k x v :
  m !! k = Some x → dom (<[k := v]> m) ⊆ dom m.
Proof. intros H. by rewrite dom_insert_lookup_L. Qed.

Lemma dom_delete_within {V} (m : gmap Z V) k : dom (delete k m) ⊆ dom m.
Proof. rewrite dom_delete_L. apply subseteq_difference_l. done. Qed.

Lemma no_new_lakes_refl s : no_new_lakes s s.
Proof. by repeat split. Qed.

Lemma no_new_lakes_trans s1 s2 s3 :
  no_new_lakes s1 s2 → no_new_lakes s2 s3 → no_new_lakes s1 s3.
Proof.
  intros (H1 & H2 & H3 & H4 & H5) (G1 & G2 & G3 & G4 & G5).
  repeat split; [congruence|by etrans..].
Qed.

(** The evaluator adds no lake. *)
Lemma raise_water_level_no_new_lakes cpit cnode area z terms fz s filled dz s' :
  _raise_water_level cpit cnode area z terms fz s = Ok (filled, dz, s') →
  no_new_lakes s s'.
Proof.
  intros H.
  destruct (raise_water_level_shape _ _ _ _ _ _ _ _ _ _ H)
    as (k & a & v & cA & c & K & [Hk Ha Hv _ _] & Hcases).
  cbn zeta in Hcases.
  destruct (state_at_test_lookups fz cpit k a v cA c s Ha Hv)
    as (Ha' & Hv' & HK' & Hsp).
  assert (H3 : no_new_lakes s (state_at_test fz cpit k a v cA c s)).
  { unfold state_at_test. destruct fz; cbn.
    - repeat split; cbn; try done.
      + by rewrite length_insert.
      + by eapply dom_insert_within.
      + by eapply dom_insert_within.
    - repeat split; cbn; try done. by rewrite length_insert. }
  eapply no_new_lakes_trans; [exact H3|].
  destruct Hcases as [(_ & _ & _ & _ & ->)
                     |(aK & HaK & _ & [(_ & _ & _ & _ & ->)
                                      |(_ & _ & _ & ->)])].
  - by repeat split.
  - repeat split; cbn; try done. by eapply dom_insert_within.
  - rewrite <- HK' in HaK.
    repeat split; cbn; try done; by eapply dom_insert_within.
Qed.

(** Lines 372-378 read backwards. *)
Lemma raise_to_effects env nnodes cpit cnode nnode s filled s' :
  raise_to env nnodes cpit cnode nnode s = Ok (filled, s') →
  no_new_lakes s s' ∧
  master_pit_q s' = master_pit_q s ∧
  lake_q_dict s' = lake_q_dict s ∧
  lake_is_full s' = lake_is_full s ∧
  (filled = false → lake_spill_node s' !! cpit = Some (-1)%Z) ∧
  (∃ v, vol_rem_at_pit s' !! cpit = Some v ∧
        (filled = false → v <= 0) ∧ (filled = true → 0 <= v)) ∧
  ∃ z_n l l',
    arr_get (init_water_surface env) nnode = Ok z_n ∧
    lake_water_level s !! cpit = Some l ∧
    lake_water_level s' !! cpit = Some l' ∧
    (filled = true → l' == z_n).
Proof.
  unfold raise_to. intros H.
  apply bind_Ok in H as (code & _ & H).
  apply bind_Ok in H as (z_n & Hz & H).
  apply bind_Ok in H as (l & Hl & H). apply dict_get_Ok in Hl.
  apply bind_Ok in H as ([[f dz] s1] & Hev & H).
  apply bind_Ok in H as (l1 & Hl1 & H). apply dict_get_Ok in Hl1.
  injection H as <- <-.
  pose proof (raise_water_level_no_new_lakes _ _ _ _ _ _ _ _ _ _ Hev) as Hf.
  destruct (raise_water_level_effects _ _ _ _ _ _ _ _ _ _ Hev)
    as (_ & Hm & Hq & Hlv & Hfull & Hsp & Hdz).
  split.
  { eapply no_new_lakes_trans; [exact Hf|].
    repeat split; cbn; try done. by eapply dom_insert_within. }
  cbn. do 3 (split; [done|]). split; [exact Hsp|].
  split; [by eapply raise_water_level_budget|].
  exists z_n, l, (l1 + dz). split; [done|]. split; [done|].
  split; [by simplify_map_eq|].
  intros Ht. rewrite (Hdz Ht). rewrite Hlv, Hl in Hl1. injection Hl1 as <-.
  ring.
Qed.

(** Lines 387-390 read backwards. *)
Lemma park_lake_effects env cpit cnode nnode s s' :
  park_lake env cpit cnode nnode s = Ok s' →
  lake_map s' = lake_map s ∧
  master_pit_q s' = master_pit_q s ∧
  lake_water_level s' = lake_water_level s ∧
  accum_area_at_pit s' = accum_area_at_pit s ∧
  vol_rem_at_pit s' = vol_rem_at_pit s ∧
  accum_Ks_at_pit s' = accum_Ks_at_pit s ∧
  lake_spill_node s' = lake_spill_node s ∧
  lake_is_full s' = <[cpit := true]> (lake_is_full s).
Proof.
  unfold park_lake. intros H.
  apply bind_Ok in H as (q & _ & H).
  apply bind_Ok in H as (z_n & _ & H).
  apply bind_Ok in H as (q2 & _ & H).
  apply bind_Ok in H as (l & _ & H).
  injection H as <-. by repeat split.
Qed.

Section Scan.

Variable env : Env.
Variables pit_nghb_code spill_code : Z.
Hypothesis codes_ordered : (pit_nghb_code <= spill_code)%Z.

(** Lines 434-458 read backwards, one neighbour. *)
Lemma scan_neighbor_effects cpit cnode s b n s' b' :
  scan_neighbor env pit_nghb_code spill_code cpit cnode (s, b) n
    = Ok (s', b') →
  length (lake_map s') = length (lake_map s) ∧
  lake_water_level s' = lake_water_level s ∧
  accum_area_at_pit s' = accum_area_at_pit s ∧
  vol_rem_at_pit s' = vol_rem_at_pit s ∧
  accum_Ks_at_pit s' = accum_Ks_at_pit s ∧
  lake_is_full s' = lake_is_full s ∧
  (sill spill_code s cpit cnode → sill spill_code s' cpit cnode) ∧
  (b' = true → b = true ∨ sill spill_code s' cpit cnode).
Proof.
  unfold scan_neighbor. cbn [fst snd]. intros H.
  apply bind_Ok in H as (closed & _ & H).
  destruct closed.
  { injection H as <- <-. conj; auto. }
  apply bind_Ok in H as (code & Hcode & H).
  destruct ((code =? cpit)%Z || (code =? pit_nghb_code)%Z).
  { injection H as <- <-. conj; auto. }
  apply bind_Ok in H as (z_n & _ & H).
  apply bind_Ok in H as (z_c & _ & H).
  destruct (Qltb z_n z_c).
  - apply bind_Ok in H as (lm & Hlm & H).
    apply arr_set_Ok in Hlm as (k & Hk & ->).
    apply bind_Ok in H as (lvl & _ & H).
    injection H as <- <-. cbn.
    assert (Hs : sill spill_code
                   (set_master_pit_q
                      (add_task cpit lvl (master_pit_q s))
                      (set_lake_spill_node
                         (<[cpit := cnode]> (lake_spill_node s))
                         (set_lake_map (<[k := spill_code]> (lake_map s)) s)))
                   cpit cnode).
    { split; cbn; [by simplify_map_eq|]. by apply arr_get_insert_same. }
    conj; try done; try (by rewrite length_insert);
      try (intros _; exact Hs); try (intros _; right; exact Hs).
  - apply bind_Ok in H as (q & _ & H).
    apply bind_Ok in H as (code2 & Hcode2 & H). cbn in Hcode2.
    apply bind_Ok in H as (lm & Hlm & H). cbn in Hlm.
    apply arr_set_Ok in Hlm as (k & Hk & ->).
    injection H as <- <-. cbn.
    assert (Hs : sill spill_code s cpit cnode →
                 sill spill_code
                   (set_lake_map
                      (<[k := Z.max pit_nghb_code code2]> (lake_map s))
                      (set_lake_q_dict
                         (<[cpit := add_task n z_n q]> (lake_q_dict s)) s))
                   cpit cnode).
    { intros [Hsp Hc]. split; [exact Hsp|]. cbn.
      destruct (arr_get_Ok _ _ _ Hc) as (kc & Hkc & Hx).
      destruct (decide (kc = k)) as [->|Hne].
      - destruct (arr_get_Ok _ _ _ Hcode2) as (k2 & Hk2 & Hx2).
        rewrite Hk in Hk2. injection Hk2 as <-.
        rewrite Hx in Hx2. injection Hx2 as <-.
        rewrite Z.max_r by exact codes_ordered.
        by apply arr_get_insert_same.
      - by eapply arr_get_insert_other. }
    conj; try done; try (by rewrite length_insert); auto.
Qed.

Lemma scan_neighbors_effects cpit cnode cnghbs s b s' b' :
  scan_neighbors env pit_nghb_code spill_code cpit cnode cnghbs (s, b)
    = Ok (s', b') →
  length (lake_map s') = length (lake_map s) ∧
  lake_water_level s' = lake_water_level s ∧
  accum_area_at_pit s' = accum_area_at_pit s ∧
  vol_rem_at_pit s' = vol_rem_at_pit s ∧
  accum_Ks_at_pit s' = accum_Ks_at_pit s ∧
  lake_is_full s' = lake_is_full s ∧
  (sill spill_code s cpit cnode → sill spill_code s' cpit cnode) ∧
  (b' = true → b = true ∨ sill spill_code s' cpit cnode).
Proof.
  revert s b. induction cnghbs as [|n rest IH]; intros s b H.
  - injection H as <- <-. conj; auto.
  - cbn in H. apply bind_Ok in H as ([s1 b1] & H1 & H).
    apply scan_neighbor_effects in H1
      as (A1 & A2 & A3 & A4 & A5 & A6 & A7 & A8).
    apply IH in H as (B1 & B2 & B3 & B4 & B5 & B6 & B7 & B8).
    conj; try congruence; auto.
    intros Hb. destruct (B8 Hb) as [->|Hs]; [|by right].
    destruct (A8 eq_refl) as [->|Hs]; [by left|right; auto].
Qed.

End Scan.

End EngineSteps.
Section EngineExits.

Context {Qu : Type} `{SPQ : StablePriorityQueue Qu}.
Implicit Types s : @State Qu.
Local Open Scope Q_scope.

Lemma dom_insert_delete_within {V} (m : gmap Z V) low hi x v :
  m !! low = Some x → dom (<[low := v]> (delete hi m)) ⊆ dom m.
Proof.
  intros H. rewrite dom_insert_L, dom_delete_L.
  apply union_subseteq. split.
  - apply singleton_subseteq_l. by eapply elem_of_dom_2.
  - by apply subseteq_difference_l.
Qed.

(** A merge adds no lake. *)
Lemma merge_two_lakes_no_new_lakes this that z_topo s low s' :
  _merge_two_lakes this that z_topo s = Ok (low, s') → no_new_lakes s s'.
Proof.
  intros H.
  apply merge_two_lakes_inv in H
    as (l1 & l2 & z1 & z2 & ql & qh & al & ah & vl & vh & kl & kh
        & _ & _ & _ & _ & _ & _ & _ & Hal & _ & Hvl & _ & Hkl & _ & _ & _ & E).
  injection E as -> ->.
  repeat split; cbn.
  - apply reassign_length.
  - apply dom_delete_within.
  - by eapply dom_insert_delete_within.
  - by eapply dom_insert_delete_within.
  - by eapply dom_insert_delete_within.
Qed.

Lemma no_new_lakes_level_None s s' p :
  no_new_lakes s s' →
  lake_water_level s !! p = None → lake_water_level s' !! p = None.
Proof.
  intros (_ & H & _) Hp. apply not_elem_of_dom. apply not_elem_of_dom in Hp.
  intros Hin. apply Hp. by apply H.
Qed.

(** After a merge the first argument is the survivor or has no level. *)
Lemma merge_two_lakes_survivor this that z_topo s low s' :
  _merge_two_lakes this that z_topo s = Ok (low, s') →
  low = this ∨ lake_water_level s' !! this = None.
Proof.
  intros H.
  apply merge_two_lakes_inv in H
    as (l1 & l2 & z1 & z2 & ql & qh & al & ah & vl & vh & kl & kh
        & _ & _ & _ & _ & _ & _ & _ & _ & _ & _ & _ & _ & _ & _ & _ & E).
  injection E as -> ->. cbn.
  destruct (Qltb z1 z2); [by left|right]. by rewrite lookup_delete_eq.
Qed.

Section Exits.

Variable env : Env.
Variables nnodes pit_nghb_code spill_code : Z.
Hypothesis codes_ordered : (pit_nghb_code <= spill_code)%Z.

(** Lines 395-458 read backwards. *)
Lemma after_fill_effects cpit nnode s r :
  after_fill env nnodes pit_nghb_code spill_code cpit nnode s = Ok r →
  match r with
  | Continue cpit' _ s' =>
      no_new_lakes s s' ∧ (cpit' = cpit ∨ lake_water_level s' !! cpit = None)
  | Break s' =>
      no_new_lakes s s' ∧ sill spill_code s' cpit nnode ∧
      lake_water_level s' = lake_water_level s ∧
      vol_rem_at_pit s' = vol_rem_at_pit s
  end.
Proof.
  unfold after_fill. intros H.
  apply bind_Ok in H as (code & _ & H).
  destruct (2 * nnodes <=? code)%Z.
  - apply bind_Ok in H as ([low s1] & Hm & H).
    apply bind_Ok in H as (lm & Hlm & H).
    apply arr_set_Ok in Hlm as (k & _ & ->).
    injection H as <-. split.
    + eapply no_new_lakes_trans;
        [by eapply merge_two_lakes_no_new_lakes|].
      repeat split; cbn; try done. by rewrite length_insert.
    + cbn. by eapply merge_two_lakes_survivor.
  - apply bind_Ok in H as (draining & _ & H).
    destruct draining.
    + apply bind_Ok in H as (lm & Hlm & H).
      apply arr_set_Ok in Hlm as (k & Hk & ->).
      injection H as <-. cbn.
      split; [|split; [|split; reflexivity]].
      * repeat split; cbn; try done. by rewrite length_insert.
      * split; cbn; [by simplify_map_eq|by apply arr_get_insert_same].
    + apply bind_Ok in H as (cnghbs & _ & H).
      apply bind_Ok in H as ([s1 tobreak] & Hscan & H).
      apply (scan_neighbors_effects _ _ _ codes_ordered) in Hscan
        as (A1 & A2 & A3 & A4 & A5 & A6 & A7 & A8).
      assert (Hf : no_new_lakes s s1).
      { repeat split; try done; by (rewrite A2 || rewrite A3
                                    || rewrite A4 || rewrite A5). }
      destruct tobreak; injection H as <-; [|split; [exact Hf|by left]].
      split; [exact Hf|]. split; [|split; [exact A2|exact A4]].
      destruct (A8 eq_refl) as [?|?]; [discriminate|done].
Qed.

(** Lines 356-458 read backwards: where one pass through the loop body
    leaves the state. *)
Lemma raise_iteration_effects cpit cnode s r :
  raise_iteration env nnodes pit_nghb_code spill_code cpit cnode s = Ok r →
  match r with
  | Continue cpit' _ s' =>
      no_new_lakes s s' ∧ (cpit' = cpit ∨ lake_water_level s' !! cpit = None)
  | Break s' =>
      no_new_lakes s s' ∧
      (parked s' cpit ∨ spilled (init_water_surface env) spill_code s' cpit)
  end.
Proof.
  unfold raise_iteration. intros H.
  apply bind_Ok in H as (q & _ & H).
  apply bind_Ok in H as ([nnode q'] & _ & H).
  apply bind_Ok in H as (code & _ & H). cbn in H.
  set (s1 := set_lake_q_dict (<[cpit := q']> (lake_q_dict s)) s) in *.
  assert (H1 : no_new_lakes s s1) by by repeat split.
  destruct ((0 <=? code)%Z && (code <? nnodes)%Z).
  { injection H as <-. split; [exact H1|by left]. }
  apply bind_Ok in H as ([filled s2] & Hr & H).
  apply raise_to_effects in Hr
    as (F2 & _ & _ & Hfull & Hsp & (v & Hv & Hv0 & Hv1)
        & z_n & l & l' & Hz & _ & Hl' & Hlz).
  pose proof (no_new_lakes_trans _ _ _ H1 F2) as H2.
  destruct filled; cbn [negb] in H.
  - apply after_fill_effects in H. destruct r as [? ? s'|s']; cbn.
    + destruct H as [F3 Hc]. split; [by eapply no_new_lakes_trans|exact Hc].
    + destruct H as (F3 & Hsill & Hlv & Hvol).
      split; [by eapply no_new_lakes_trans|].
      right. exists nnode, z_n, l', v. split; [done|]. split; [done|].
      split; [by rewrite Hlv|]. split; [by apply Hlz|].
      split; [by rewrite Hvol|by apply Hv1].
  - apply bind_Ok in H as (s3 & Hp & H). injection H as <-.
    apply park_lake_effects in Hp
      as (P1 & P2 & P3 & P4 & P5 & P6 & P7 & P8).
    split.
    + eapply no_new_lakes_trans; [exact H2|].
      repeat split; by (rewrite P1 || rewrite P3 || rewrite P4
                        || rewrite P5 || rewrite P6).
    + left. split; [rewrite P8; by simplify_map_eq|].
      split; [rewrite P7; by apply Hsp|].
      exists v. split; [by rewrite P5|by apply Hv0].
Qed.

Lemma raise_loop_effects fuel cpit cnode s s' :
  raise_loop env nnodes pit_nghb_code spill_code fuel cpit cnode s = Ok s' →
  no_new_lakes s s' ∧
  ∃ p, (p = cpit ∨ lake_water_level s' !! cpit = None) ∧
       (parked s' p ∨ spilled (init_water_surface env) spill_code s' p).
Proof.
  revert cpit cnode s. induction fuel as [|fuel IH]; intros cpit cnode s H;
    [discriminate|].
  cbn in H. apply bind_Ok in H as (r & Hit & H).
  apply raise_iteration_effects in Hit.
  destruct r as [cpit' cnode' s1|s1].
  - destruct Hit as [F1 Hc]. apply IH in H as (F & p & Hp & E).
    split; [by eapply no_new_lakes_trans|].
    exists p. split; [|exact E].
    destruct Hc as [->|Hnone]; [exact Hp|].
    right. by eapply no_new_lakes_level_None.
  - injection H as <-. destruct Hit as [F E]. split; [exact F|].
    exists cpit. split; [by left|exact E].
Qed.

End Exits.

Lemma raise_lake_to_limit_inv fuel env cp s s' :
  lake_spill_node s !! cp = Some (-1)%Z →
  _raise_lake_to_limit fuel env cp s = Ok s' →
  let nnodes := Z.of_nat (length (init_water_surface env)) in
  ∃ q cnode q',
    lake_q_dict s !! cp = Some q ∧ pop_task q = Ok (cnode, q') ∧
    raise_loop env nnodes (cp + nnodes) (cp + nnodes + nnodes) fuel cp cnode
      (set_lake_q_dict (<[cp := q']> (lake_q_dict s))
         (set_lake_is_full (<[cp := false]> (lake_is_full s)) s)) = Ok s'.
Proof.
  intros Hsp H. unfold _raise_lake_to_limit in H.
  rewrite (dict_get_Some _ _ _ Hsp) in H. cbn in H.
  apply bind_Ok in H as (q & Hq & H). apply dict_get_Ok in Hq. cbn in Hq.
  apply bind_Ok in H as ([cnode q'] & Hpop & H).
  by exists q, cnode, q'.
Qed.

(** X14. How a call of the engine on a lake without a spill ends.  If
    the call returns, some lake [p] is in one of two conditions: either
    it is flagged full, has no spill and has a budget of zero or less
    (the water ran out), or it has a spill node, the ownership map holds
    at that node the spill code of the lake the call was made for,
    [current_pit + 2 * nnodes], the water level of [p] equals the initial
    water surface of that node and its budget is not negative.
    That lake is the one the call was made for, unless a merge has
    retired it, and then it has no water level any more. *)
Theorem raise_lake_to_limit_exit fuel env cp s s' :
  lake_spill_node s !! cp = Some (-1)%Z →
  _raise_lake_to_limit fuel env cp s = Ok s' →
  let nnodes := Z.of_nat (length (init_water_surface env)) in
  ∃ p, (p = cp ∨ lake_water_level s' !! cp = None) ∧
       (parked s' p ∨
        spilled (init_water_surface env) (cp + 2 * nnodes) s' p).
Proof.
  intros Hsp H nnodes.
  destruct (raise_lake_to_limit_inv _ _ _ _ _ Hsp H)
    as (q & cnode & q' & _ & _ & Hloop).
  apply raise_loop_effects in Hloop as [_ E]; [|lia].
  fold nnodes in E.
  replace (cp + 2 * nnodes)%Z with (cp + nnodes + nnodes)%Z by lia.
  exact E.
Qed.

(** X15. The engine creates no lake and keeps the size of the grid: when
    a call returns, the ownership map has the length it had, and every id
    that is a key of the water level, area, budget or loss coefficient
    dictionary was one before the call. *)
Theorem raise_lake_to_limit_no_new_lakes fuel env cp s s' :
  _raise_lake_to_limit fuel env cp s = Ok s' → no_new_lakes s s'.
Proof.
  intros H. pose proof H as H0. unfold _raise_lake_to_limit in H.
  apply bind_Ok in H as (spill & Hsp & H). apply dict_get_Ok in Hsp.
  destruct (spill =? -1)%Z eqn:E; cbn [negb] in H.
  - apply Z.eqb_eq in E. subst spill.
    destruct (raise_lake_to_limit_inv _ _ _ _ _ Hsp H0)
      as (q & cnode & q' & _ & _ & Hloop).
    apply raise_loop_effects in Hloop as [F _]; [|lia].
    eapply no_new_lakes_trans; [|exact F]. by repeat split.
  - injection H as <-. apply no_new_lakes_refl.
Qed.

End EngineExits.
(** ** The public entry point, for every input *)

Section EntryPointSteps.

Import EntryPoint.
Local Open Scope Q_scope.

Lemma py_index_of_nat n i :
  is_Some (py_index n (Z.of_nat i)) ↔ (i < n)%nat.
Proof.
  unfold py_index. split.
  - intros [k Hk].
    destruct ((0 <=? Z.of_nat i)%Z && (Z.of_nat i <? Z.of_nat n)%Z) eqn:E.
    + apply andb_true_iff in E as [_ E]. apply Z.ltb_lt in E. lia.
    + destruct ((- Z.of_nat n <=? Z.of_nat i)%Z && (Z.of_nat i <? 0)%Z) eqn:E2;
        [|discriminate].
      apply andb_true_iff in E2 as [_ E2]. apply Z.ltb_lt in E2. lia.
  - intros Hlt.
    assert ((0 <=? Z.of_nat i)%Z && (Z.of_nat i <? Z.of_nat n)%Z = true) as ->.
    { apply andb_true_iff. split; [apply Z.leb_le|apply Z.ltb_lt]; lia. }
    by eexists.
Qed.

Lemma py_index_of_nat_Some n i k :
  py_index n (Z.of_nat i) = Some k → k = i.
Proof.
  unfold py_index.
  destruct ((0 <=? Z.of_nat i)%Z && (Z.of_nat i <? Z.of_nat n)%Z) eqn:E.
  - intros [= <-]. lia.
  - destruct ((- Z.of_nat n <=? Z.of_nat i)%Z && (Z.of_nat i <? 0)%Z) eqn:E2;
      [|discriminate].
    apply andb_true_iff in E2 as [_ E2]. apply Z.ltb_lt in E2. lia.
Qed.

Lemma arr_get_returns_iff {A} (a : list A) i :
  (∃ x, arr_get a i = Ok x) ↔ is_Some (py_index (length a) i).
Proof.
  split.
  - intros [x H]. apply arr_get_Ok in H as (k & Hk & _). by eexists.
  - intros [k Hk]. pose proof (py_index_lt _ _ _ Hk) as Hlt.
    destruct (lookup_lt_is_Some_2 a k Hlt) as [x Hx].
    exists x. by eapply arr_get_Some.
Qed.

(** [a[idx]] returns exactly when every index is in range, and then it
    holds, position by position, the entries the indices select. *)
Lemma take_returns_iff {A} (a : list A) idx :
  (∃ l, take a idx = Ok l) ↔
  Forall (λ i, is_Some (py_index (length a) i)) idx.
Proof.
  induction idx as [|i idx IH]; cbn.
  - split; [constructor|by eexists].
  - split.
    + intros [l H]. apply bind_Ok in H as (x & Hx & H).
      apply bind_Ok in H as (xs & Hxs & _).
      constructor; [apply arr_get_returns_iff; by eexists|].
      apply IH. by eexists.
    + intros H. apply Forall_cons in H as [Hi Hidx].
      apply arr_get_returns_iff in Hi as [x ->].
      apply IH in Hidx as [xs ->]. by eexists.
Qed.

Lemma take_length {A} (a : list A) idx l :
  take a idx = Ok l → length l = length idx.
Proof.
  revert l. induction idx as [|i idx IH]; intros l H; cbn in H.
  - by injection H as <-.
  - apply bind_Ok in H as (x & _ & H). apply bind_Ok in H as (xs & Hxs & H).
    injection H as <-. cbn. f_equal. by apply IH.
Qed.

Lemma take_lookup {A} (a : list A) idx l (j : nat) i :
  take a idx = Ok l → idx !! j = Some i →
  ∃ x, arr_get a i = Ok x ∧ l !! j = Some x.
Proof.
  revert l j. induction idx as [|i0 idx IH]; intros l j H Hj; [done|].
  cbn in H. apply bind_Ok in H as (x & Hx & H).
  apply bind_Ok in H as (xs & Hxs & H). injection H as <-.
  destruct j as [|j]; cbn in Hj.
  - injection Hj as <-. by exists x.
  - by apply (IH xs j).
Qed.

Lemma take_lookup_nat {A} (a : list A) idx l (j i : nat) :
  take a idx = Ok l → idx !! j = Some (Z.of_nat i) → l !! j = a !! i.
Proof.
  intros H Hj. destruct (take_lookup _ _ _ _ _ H Hj) as (x & Hx & ->).
  apply arr_get_Ok in Hx as (k & Hk & Hx).
  apply py_index_of_nat_Some in Hk. by subst.
Qed.

(** The sort order is a rearrangement of the positions [0 .. n-1]. *)
Lemma argsort_insert_perm keys i sorted :
  argsort_insert keys i sorted ≡ₚ i :: sorted.
Proof.
  induction sorted as [|j rest IH]; cbn; [done|].
  destruct (keys !! Z.to_nat i), (keys !! Z.to_nat j); try done.
  destruct (Qltb _ _); [done|]. rewrite IH. apply Permutation_swap.
Qed.

Lemma argsort_fold_perm keys l acc :
  fold_left (λ sorted i, argsort_insert keys i sorted) l acc ≡ₚ l ++ acc.
Proof.
  revert acc. induction l as [|i l IH]; intros acc; cbn; [done|].
  rewrite IH, argsort_insert_perm. by rewrite Permutation_middle.
Qed.

Lemma argsort_perm keys :
  argsort keys ≡ₚ Z.of_nat <$> seq 0 (length keys).
Proof. unfold argsort. by rewrite argsort_fold_perm, app_nil_r. Qed.

Lemma argsort_length keys : length (argsort keys) = length keys.
Proof. by rewrite argsort_perm, length_fmap, length_seq. Qed.

(** Indexing with the sort order works exactly on arrays that are at
    least as long as the array sorted. *)
Lemma take_argsort_iff {A} (a : list A) keys :
  (∃ l, take a (argsort keys) = Ok l) ↔ (length keys <= length a)%nat.
Proof.
  rewrite take_returns_iff, argsort_perm, Forall_fmap, Forall_seq.
  split.
  - intros H. destruct (length keys) as [|n] eqn:E; [lia|].
    assert (Hn : is_Some (py_index (length a) (Z.of_nat n)))
      by (apply (H n); lia).
    apply py_index_of_nat in Hn. lia.
  - intros H j Hj. cbn. apply py_index_of_nat. lia.
Qed.

End EntryPointSteps.
Section EntryPointOrder.

Import EntryPoint.
Local Open Scope Q_scope.

Lemma take_positions {A} (a : list A) :
  take a (Z.of_nat <$> seq 0 (length a)) = Ok a.
Proof.
  assert (Hex : ∃ l, take a (Z.of_nat <$> seq 0 (length a)) = Ok l).
  { apply take_returns_iff. rewrite Forall_fmap, Forall_seq.
    intros j Hj. cbn. apply py_index_of_nat. lia. }
  destruct Hex as [l Hl]. rewrite Hl. f_equal.
  pose proof (take_length _ _ _ Hl) as Hlen.
  rewrite length_fmap, length_seq in Hlen.
  apply list_eq. intros j.
  destruct (decide (j < length a)%nat) as [Hj|Hj].
  - apply (take_lookup_nat _ _ _ _ _ Hl).
    rewrite list_lookup_fmap, lookup_seq_lt by done. reflexivity.
  - rewrite !lookup_ge_None_2 by lia. reflexivity.
Qed.

Lemma take_Permutation {A} (a : list A) idx idx' l :
  idx ≡ₚ idx' → take a idx = Ok l →
  ∃ l', take a idx' = Ok l' ∧ l ≡ₚ l'.
Proof.
  intros Hp. revert l.
  induction Hp as [|i idx idx' Hp IH|i j idx|idx1 idx2 idx3 H12 IH12 H23 IH23];
    intros l H.
  - exists l. by split.
  - cbn in H. apply bind_Ok in H as (x & Hx & H).
    apply bind_Ok in H as (xs & Hxs & H). injection H as <-.
    destruct (IH _ Hxs) as (xs' & Hxs' & Hperm).
    exists (x :: xs'). cbn. rewrite Hx, Hxs'. cbn. split; [done|].
    by constructor.
  - cbn in H. apply bind_Ok in H as (x & Hx & H).
    apply bind_Ok in H as (l1 & H1 & H). injection H as <-.
    apply bind_Ok in H1 as (y & Hy & H1).
    apply bind_Ok in H1 as (xs & Hxs & H1). injection H1 as <-.
    exists (y :: x :: xs). cbn. rewrite Hy, Hx, Hxs. cbn. split; [done|].
    apply Permutation_swap.
  - destruct (IH12 _ H) as (l2 & H2 & P12).
    destruct (IH23 _ H2) as (l3 & H3 & P23).
    exists l3. split; [done|]. by etrans.
Qed.

(** The pits in sort order are the pits given, rearranged. *)
Lemma take_argsort_perm {A} (a : list A) keys l :
  length keys = length a → take a (argsort keys) = Ok l → l ≡ₚ a.
Proof.
  intros Hlen H.
  destruct (take_Permutation _ _ _ _ (argsort_perm keys) H) as (l' & Hl' & P).
  rewrite Hlen, take_positions in Hl'. injection Hl' as <-. exact P.
Qed.

(** Indexing twice is indexing the selection. *)
Lemma take_take {A} (a : list A) (idx : list Z) keys sort pio :
  take a idx = Ok keys → take idx sort = Ok pio →
  take a pio = take keys sort.
Proof.
  intros Hk. revert pio. induction sort as [|i sort IH]; intros pio H.
  - by injection H as <-.
  - cbn in H. apply bind_Ok in H as (p & Hp & H).
    apply bind_Ok in H as (ps & Hps & H). injection H as <-.
    cbn. rewrite (IH _ Hps).
    apply arr_get_Ok in Hp as (k & Hki & Hkp).
    destruct (take_lookup _ _ _ _ _ Hk Hkp) as (x & Hx & Hkx).
    rewrite Hx.
    assert (arr_get keys i = Ok x) as ->; [|reflexivity].
    apply (arr_get_Some _ _ k); [|done].
    by rewrite (take_length _ _ _ Hk).
Qed.

Lemma ascending_Forall_perm {A} (R : A → A → Prop) x (l l' : list A) :
  l ≡ₚ l' → Forall (R x) l → Forall (R x) l'.
Proof. intros P H. by rewrite <- P. Qed.

Lemma key_le_trans keys i j k :
  key_le keys i j → key_le keys j k → key_le keys i k.
Proof.
  intros (ki & kj & Hi & Hj & Hle) (kj' & kk & Hj' & Hk & Hle').
  rewrite Hj in Hj'. injection Hj' as <-.
  exists ki, kk. split; [done|]. split; [done|]. lra.
Qed.

(** Insertion keeps the keys ascending. *)
Lemma argsort_insert_ascending keys i sorted :
  is_Some (keys !! Z.to_nat i) →
  Forall (λ j, is_Some (keys !! Z.to_nat j)) sorted →
  ascending (key_le keys) sorted →
  ascending (key_le keys) (argsort_insert keys i sorted).
Proof.
  intros [ki Hi] Hv. induction sorted as [|j rest IH]; intros Hs.
  - cbn. by split.
  - apply Forall_cons in Hv as [[kj Hj] Hv]. destruct Hs as [Hj_rest Hs].
    cbn. rewrite Hi, Hj.
    destruct (Qltb ki kj) eqn:E.
    + assert (Hij : key_le keys i j).
      { exists ki, kj. split; [done|]. split; [done|].
        apply Qltb_lt in E. lra. }
      split; [|by split]. constructor; [exact Hij|].
      eapply Forall_impl; [exact Hj_rest|].
      intros k Hjk. by eapply key_le_trans.
    + split; [|by apply IH].
      eapply ascending_Forall_perm;
        [symmetry; apply argsort_insert_perm|].
      constructor; [|exact Hj_rest].
      exists kj, ki. split; [done|]. split; [done|]. by apply Qltb_ge.
Qed.

Lemma argsort_fold_ascending keys l acc :
  Forall (λ j, is_Some (keys !! Z.to_nat j)) l →
  Forall (λ j, is_Some (keys !! Z.to_nat j)) acc →
  ascending (key_le keys) acc →
  ascending (key_le keys)
    (fold_left (λ sorted i, argsort_insert keys i sorted) l acc).
Proof.
  revert acc. induction l as [|i l IH]; intros acc Hl Hacc Hs; [done|].
  apply Forall_cons in Hl as [Hi Hl]. cbn. apply IH; [done| |].
  - rewrite argsort_insert_perm. by constructor.
  - by apply argsort_insert_ascending.
Qed.

Lemma argsort_ascending keys : ascending (key_le keys) (argsort keys).
Proof.
  unfold argsort. apply argsort_fold_ascending; [|constructor|done].
  rewrite Forall_fmap, Forall_seq. intros j Hj. cbn.
  rewrite Nat2Z.id. apply lookup_lt_is_Some_2. lia.
Qed.

(** The keys read in an ascending order of positions ascend. *)
Lemma take_ascending keys sort zs :
  Forall (λ j, (0 <= j)%Z) sort →
  ascending (key_le keys) sort →
  take keys sort = Ok zs → ascending Qle zs.
Proof.
  revert zs. induction sort as [|i sort IH]; intros zs Hnn Hs H.
  - by injection H as <-.
  - apply Forall_cons in Hnn as [Hi Hnn]. destruct Hs as [Hhd Hs].
    cbn in H. apply bind_Ok in H as (x & Hx & H).
    apply bind_Ok in H as (xs & Hxs & H). injection H as <-.
    split; [|by apply IH].
    apply Forall_lookup_2. intros j y Hy.
    destruct (lookup_lt_is_Some_2 sort j) as [k Hk].
    { rewrite <- (take_length _ _ _ Hxs). by eapply lookup_lt_Some. }
    destruct (take_lookup _ _ _ _ _ Hxs Hk) as (y' & Hy' & Hjy).
    rewrite Hy in Hjy. injection Hjy as <-.
    pose proof (proj1 (Forall_lookup _ _) Hhd _ _ Hk)
      as (ki & kk & Hki & Hkk & Hle).
    pose proof (proj1 (Forall_lookup _ _) Hnn _ _ Hk) as Hk0. cbn in Hk0.
    assert (Hxi : keys !! Z.to_nat i = Some x).
    { apply arr_get_Ok in Hx as (n & Hn & Hx).
      rewrite <- (Z2Nat.id i) in Hn by done.
      apply py_index_of_nat_Some in Hn. by subst. }
    assert (Hyk : keys !! Z.to_nat k = Some y).
    { apply arr_get_Ok in Hy' as (n & Hn & Hy').
      rewrite <- (Z2Nat.id k) in Hn by done.
      apply py_index_of_nat_Some in Hn. by subst. }
    rewrite Hxi in Hki. injection Hki as <-.
    rewrite Hyk in Hkk. injection Hkk as <-. exact Hle.
Qed.

Lemma argsort_nonneg keys : Forall (λ j, (0 <= j)%Z) (argsort keys).
Proof.
  rewrite argsort_perm, Forall_fmap, Forall_seq. intros j Hj. cbn. lia.
Qed.

(** What the loop of lines 71-79 leaves in the dictionaries. *)
Lemma register_pits_fixed l pits vols areas levels :
  disch_map (register_pits l pits vols areas levels) = disch_map l ∧
  pit_nodes_in_order (register_pits l pits vols areas levels)
    = pit_nodes_in_order l.
Proof.
  revert l vols areas levels.
  induction pits as [|pit pits IH]; intros l vols areas levels; [done|].
  destruct vols, areas, levels; try done. cbn.
  destruct (IH (register_pit l pit q q0 q1) vols areas levels) as [-> ->].
  done.
Qed.

Lemma register_pits_other l pits vols areas levels p :
  p ∉ pits →
  let l' := register_pits l pits vols areas levels in
  vol_rem_at_pit l' !! p = vol_rem_at_pit l !! p ∧
  accum_area_at_pit l' !! p = accum_area_at_pit l !! p ∧
  lake_water_level l' !! p = lake_water_level l !! p ∧
  lake_water_volume_balance l' !! p = lake_water_volume_balance l !! p ∧
  accum_Ks_at_pit l' !! p = accum_Ks_at_pit l !! p ∧
  lake_is_full l' !! p = lake_is_full l !! p.
Proof.
  revert l vols areas levels.
  induction pits as [|pit pits IH]; intros l vols areas levels Hp; [done|].
  apply not_elem_of_cons in Hp as [Hne Hp].
  destruct vols as [|v vols], areas as [|a areas], levels as [|z levels];
    try done.
  cbn zeta. cbn [register_pits].
  destruct (IH (register_pit l pit v a z) vols areas levels Hp)
    as (-> & -> & -> & -> & -> & ->).
  cbn. repeat split; by simplify_map_eq.
Qed.

Lemma register_pits_at l pits vols areas levels (j : nat) p v a z :
  NoDup pits →
  pits !! j = Some p → vols !! j = Some v →
  areas !! j = Some a → levels !! j = Some z →
  let l' := register_pits l pits vols areas levels in
  vol_rem_at_pit l' !! p = Some v ∧
  accum_area_at_pit l' !! p = Some a ∧
  lake_water_level l' !! p = Some z ∧
  lake_water_volume_balance l' !! p = Some 0 ∧
  accum_Ks_at_pit l' !! p = Some 0 ∧
  lake_is_full l' !! p = Some false.
Proof.
  revert l vols areas levels j.
  induction pits as [|pit pits IH]; intros l vols areas levels j Hnd Hp Hv Ha Hz;
    [done|].
  apply NoDup_cons in Hnd as [Hnotin Hnd].
  destruct vols as [|v0 vols], areas as [|a0 areas], levels as [|z0 levels];
    try done.
  cbn zeta. cbn [register_pits].
  destruct j as [|j]; cbn in Hp, Hv, Ha, Hz.
  - injection Hp as ->. injection Hv as ->. injection Ha as ->.
    injection Hz as ->.
    destruct (register_pits_other (register_pit l p v a z) pits vols areas
                levels p Hnotin) as (-> & -> & -> & -> & -> & ->).
    cbn. repeat split; by simplify_map_eq.
  - by apply (IH _ _ _ _ j).
Qed.

(** The body of the entry point read backwards. *)
Lemma entry_point_inv mg pit_nodes Vw_at_pits water_z l :
  fill_depression_from_pit_discharges mg pit_nodes Vw_at_pits water_z = Ok l →
  ∃ keys zw pio vio ar,
    take water_z pit_nodes = Ok keys ∧
    take water_z (argsort keys) = Ok zw ∧
    take pit_nodes (argsort keys) = Ok pio ∧
    take Vw_at_pits (argsort keys) = Ok vio ∧
    take (cell_area_at_node mg) (argsort keys) = Ok ar ∧
    l = register_pits
          (mkLocals (repeat 0 (number_of_nodes mg))
             (repeat (-1)%Z (number_of_nodes mg)) pio ∅ ∅ ∅ ∅ ∅ ∅)
          pio vio ar zw.
Proof.
  unfold fill_depression_from_pit_discharges. intros H.
  apply bind_Ok in H as (keys & Hkeys & H).
  apply bind_Ok in H as (zw & Hzw & H).
  apply bind_Ok in H as (pio & Hpio & H).
  apply bind_Ok in H as (vio & Hvio & H).
  apply bind_Ok in H as (ar & Har & H).
  injection H as <-. by exists keys, zw, pio, vio, ar.
Qed.

End EntryPointOrder.
(** ** The engine on a frontier that is used up *)

Section EngineFailures.

Context {Qu : Type} `{SPQ : StablePriorityQueue Qu}.
Implicit Types s : @State Qu.
Local Open Scope Q_scope.

(** The loop on a queue that holds owned nodes only: every one of them is
    popped and dropped, and the pop that follows fails. *)
Lemma raise_loop_used_up env nnodes pit_nghb_code spill_code cpit cnode e q2 :
  pop_task q2 = Err e →
  ∀ ns fuel s q,
    lake_q_dict s !! cpit = Some q →
    pops_to q ns q2 →
    Forall (λ n, ∃ code, arr_get (lake_map s) n = Ok code ∧
                         (0 <= code < nnodes)%Z) ns →
    (length ns < fuel)%nat →
    raise_loop env nnodes pit_nghb_code spill_code fuel cpit cnode s = Err e.
Proof.
  intros He ns. induction ns as [|n ns IH]; intros fuel s q Hq Hpops Hown Hfuel.
  - cbn in Hpops. subst q2.
    destruct fuel as [|fuel]; [cbn in Hfuel; lia|].
    cbn. unfold raise_iteration.
    rewrite (dict_get_Some _ _ _ Hq). cbn. by rewrite He.
  - destruct Hpops as (q1 & Hpop & Hpops).
    apply Forall_cons in Hown as [(code & Hcode & Hc1 & Hc2) Hown].
    destruct fuel as [|fuel]; [cbn in Hfuel; lia|].
    cbn. unfold raise_iteration.
    rewrite (dict_get_Some _ _ _ Hq). cbn. rewrite Hpop. cbn.
    rewrite Hcode. cbn.
    assert ((0 <=? code)%Z && (code <? nnodes)%Z = true) as ->.
    { apply andb_true_iff. split; [by apply Z.leb_le|by apply Z.ltb_lt]. }
    cbn. apply (IH fuel _ q1); cbn; [by simplify_map_eq|done|done|].
    cbn in Hfuel. lia.
Qed.

(** X16. The loop has no exit for a frontier that is used up.  On a lake
    without a spill whose queue gives a start node and then only nodes
    that some lake already owns, every one of those nodes is dropped and
    the failure of the pop that follows is the outcome of the call. *)
Theorem raise_lake_to_limit_frontier_used_up fuel env cp s q cnode q1 ns q2 e :
  lake_spill_node s !! cp = Some (-1)%Z →
  lake_q_dict s !! cp = Some q →
  pop_task q = Ok (cnode, q1) →
  pops_to q1 ns q2 →
  pop_task q2 = Err e →
  Forall (λ n, ∃ code, arr_get (lake_map s) n = Ok code ∧
             (0 <= code < Z.of_nat (length (init_water_surface env)))%Z) ns →
  (length ns < fuel)%nat →
  _raise_lake_to_limit fuel env cp s = Err e.
Proof.
  intros Hsp Hq Hpop Hpops He Hown Hfuel.
  unfold _raise_lake_to_limit.
  rewrite (dict_get_Some _ _ _ Hsp). cbn.
  rewrite (dict_get_Some _ _ _ Hq). cbn. rewrite Hpop. cbn.
  eapply (raise_loop_used_up _ _ _ _ _ _ _ _ He ns); cbn;
    [by simplify_map_eq|done|done|done].
Qed.

End EngineFailures.

(** ** The failures of the core *)

Section CoreFailures.

Context {Qu : Type} `{SPQ : StablePriorityQueue Qu}.
Implicit Types s : @State Qu.
Local Open Scope Q_scope.

(** C6 (amended). With both lakes present in every per-lake dictionary
    and both pits inside [z_topo], the merge fails exactly when the two
    levels are further apart than NumPy's tolerance
    [1e-08 + 1e-05 * |level of that_pit|], and the failure is the
    assertion; within the tolerance, so in particular at equal levels, it
    returns, and the assertion is the only failure of the merge.  It is
    not the only exception of the core.  After a merge of two distinct
    lakes that returns, the id that did not survive is a key of no
    per-lake dictionary: a call of the engine on it fails with [KeyError]
    at line 333, and so does a merge that names it.  And a call of the
    engine on a lake without a spill whose queue gives a start node and
    then only nodes that some lake owns ends in the pop of the empty
    queue, a [KeyError]. *)
Theorem merge_fails_iff_levels_apart this that z_topo s L1 L2 z1 z2 :
  lake_at s this = Some L1 →
  lake_at s that = Some L2 →
  arr_get z_topo this = Ok z1 →
  arr_get z_topo that = Ok z2 →
  (isclose (lk_level L1) (lk_level L2) = false →
   _merge_two_lakes this that z_topo s = Err AssertionError) ∧
  (isclose (lk_level L1) (lk_level L2) = true →
   ∃ r, _merge_two_lakes this that z_topo s = Ok r) ∧
  (lk_level L1 == lk_level L2 → isclose (lk_level L1) (lk_level L2) = true) ∧
  (isclose (lk_level L1) (lk_level L2) = true ↔
   Qabs (lk_level L1 - lk_level L2) <= atol + rtol * Qabs (lk_level L2)) ∧
  (∀ e, _merge_two_lakes this that z_topo s = Err e → e = AssertionError) ∧
  (this ≠ that →
   ∀ low s', _merge_two_lakes this that z_topo s = Ok (low, s') →
     ∃ hi, (hi = this ∨ hi = that) ∧ hi ≠ low ∧ retired s' hi ∧
       (∀ fuel env, _raise_lake_to_limit fuel env hi s' = Err KeyError) ∧
       (∀ p z', _merge_two_lakes hi p z' s' = Err KeyError)) ∧
  (∀ fuel env cp s0 q cnode q1 ns q2,
     lake_spill_node s0 !! cp = Some (-1)%Z →
     lake_q_dict s0 !! cp = Some q →
     pop_task q = Ok (cnode, q1) →
     pops_to q1 ns q2 →
     pop_task q2 = Err KeyError →
     Forall (λ n, ∃ code, arr_get (lake_map s0) n = Ok code ∧
                (0 <= code < Z.of_nat (length (init_water_surface env)))%Z)
            ns →
     (length ns < fuel)%nat →
     _raise_lake_to_limit fuel env cp s0 = Err KeyError).
Proof.
  intros H1 H2 Hz1 Hz2.
  assert (Hfail : isclose (lk_level L1) (lk_level L2) = false →
                  _merge_two_lakes this that z_topo s = Err AssertionError).
  { intros Hfar.
    apply lake_at_Some in H1 as (_ & Hl1 & _).
    apply lake_at_Some in H2 as (_ & Hl2 & _).
    unfold _merge_two_lakes, dict_get. rewrite Hl1, Hl2. cbn.
    rewrite Hfar. reflexivity. }
  assert (Hok : isclose (lk_level L1) (lk_level L2) = true →
                ∃ r, _merge_two_lakes this that z_topo s = Ok r).
  { intros Hclose. eexists.
    apply (merge_two_lakes_unfold _ _ _ _ _ _ _ _ H1 H2 Hz1 Hz2 Hclose). }
  split; [exact Hfail|]. split; [exact Hok|].
  split; [apply isclose_of_Qeq|]. split; [apply Qle_bool_iff|].
  split; [|split].
  - intros e He.
    destruct (isclose (lk_level L1) (lk_level L2)) eqn:E.
    + destruct (Hok eq_refl) as [r Hr]. congruence.
    + rewrite (Hfail eq_refl) in He. congruence.
  - intros Hne low s' Hm.
    apply merge_two_lakes_inv in Hm
      as (l1 & l2 & y1 & y2 & ql & qh & al & ah & vl & vh & kl & kh
          & _ & _ & _ & _ & _ & _ & _ & _ & _ & _ & _ & _ & _ & _ & _ & E).
    injection E as -> ->.
    set (low := if Qltb y1 y2 then this else that).
    set (hi := if Qltb y1 y2 then that else this).
    assert (Hlh : hi ≠ low) by (unfold hi, low; destruct (Qltb y1 y2); congruence).
    exists hi. split; [unfold hi; destruct (Qltb y1 y2); auto|].
    split; [exact Hlh|]. split; [|split].
    + unfold retired. cbn. repeat split; by simplify_map_eq.
    + intros fuel env. unfold _raise_lake_to_limit, dict_get. cbn.
      by simplify_map_eq.
    + intros p z'. unfold _merge_two_lakes, dict_get. cbn.
      by simplify_map_eq.
  - intros fuel env cp s0 q cnode q1 ns q2 Hsp Hq Hpop Hpops He Hown Hfuel.
    unfold _raise_lake_to_limit.
    rewrite (dict_get_Some _ _ _ Hsp). cbn.
    rewrite (dict_get_Some _ _ _ Hq). cbn. rewrite Hpop. cbn.
    eapply (raise_loop_used_up _ _ _ _ _ _ _ _ He ns); cbn;
      [by simplify_map_eq|done|done|done].
Qed.

End CoreFailures.

Section CoreFailureExamples.

Import TwoLakes Trace.
Local Open Scope Q_scope.

(** The engine on [FullBasin]: nodes 0 and 1 are flooded, the level
    reaches node 2, no neighbour is left to load, and the next pop finds
    the queue empty. *)
Example full_basin_call :
  _raise_lake_to_limit 10 FullBasin.env 0 FullBasin.start = Err KeyError.
Proof. vm_compute. reflexivity. Qed.

(** The engine on lake 2 of [Strip] once it has been merged into lake 0. *)
Example strip_stale_call :
  _raise_lake_to_limit 10 Strip.env 2 strip_after_2 = Err KeyError.
Proof. vm_compute. reflexivity. Qed.

(** C6, counterexample. The levels 2 and 2.000000001 are not equal, and
    the merge goes through.  The engine raises a [KeyError] on a basin it
    has flooded up to its last node, and on the id of a lake that has been
    merged away. *)
Lemma merge_rejects_unequal_claim_fails :
  ¬ merge_rejects_unequal_claim 2 0 z_topo (state nearly_two) ∧
  ¬ only_assertion_raised_claim 10 FullBasin.env 0 FullBasin.start ∧
  ¬ only_assertion_raised_claim 10 Strip.env 2 strip_after_2.
Proof.
  split; [|split].
  - intros Hclaim.
    specialize (Hclaim nearly_two 2 eq_refl eq_refl).
    assert (Hne : ¬ nearly_two == 2) by (vm_compute; discriminate).
    specialize (Hclaim Hne). vm_compute in Hclaim. discriminate.
  - intros Hclaim. destruct (Hclaim _ full_basin_call); discriminate.
  - intros Hclaim. destruct (Hclaim _ strip_stale_call); discriminate.
Qed.

Lemma merge_fails_iff_levels_apart_witness :
  (isclose 3 2 = false →
   _merge_two_lakes 2 0 z_topo (state 3) = Err AssertionError) ∧
  (isclose 3 2 = true → ∃ r, _merge_two_lakes 2 0 z_topo (state 3) = Ok r) ∧
  (3 == 2 → isclose 3 2 = true) ∧
  (isclose 3 2 = true ↔ Qabs (3 - 2) <= atol + rtol * Qabs 2) ∧
  (∀ e, _merge_two_lakes 2 0 z_topo (state 3) = Err e → e = AssertionError) ∧
  (2%Z ≠ 0%Z →
   ∀ low s', _merge_two_lakes 2 0 z_topo (state 3) = Ok (low, s') →
     ∃ hi, (hi = 2%Z ∨ hi = 0%Z) ∧ hi ≠ low ∧ retired s' hi ∧
       (∀ fuel env, _raise_lake_to_limit fuel env hi s' = Err KeyError) ∧
       (∀ p z', _merge_two_lakes hi p z' s' = Err KeyError)) ∧
  (∀ fuel env cp (s0 : @State ListQueue.t) q cnode q1 ns q2,
     lake_spill_node s0 !! cp = Some (-1)%Z →
     lake_q_dict s0 !! cp = Some q →
     pop_task q = Ok (cnode, q1) →
     pops_to q1 ns q2 →
     pop_task q2 = Err KeyError →
     Forall (λ n, ∃ code, arr_get (lake_map s0) n = Ok code ∧
                (0 <= code < Z.of_nat (length (init_water_surface env)))%Z)
            ns →
     (length ns < fuel)%nat →
     _raise_lake_to_limit fuel env cp s0 = Err KeyError).
Proof.
  apply (merge_fails_iff_levels_apart (Qu := ListQueue.t) 2 0 z_topo (state 3)
           _ _ 1 0 (two_lakes_lake_2 3) (two_lakes_lake_0 3) eq_refl eq_refl).
Defined.

End CoreFailureExamples.
Section EntryPointExtras.

Import EntryPoint.
Local Open Scope Q_scope.

(** X17. The entry point runs to its end exactly when every pit indexes
    [water_z] and there are no more pits than entries of [water_z], of
    [Vw_at_pits] and of the cell areas: the three arrays are read at the
    positions [0 .. n-1] of the sort order, not at the pits. *)
Theorem entry_point_returns_iff mg pit_nodes Vw_at_pits water_z :
  (∃ l, fill_depression_from_pit_discharges mg pit_nodes Vw_at_pits water_z
        = Ok l) ↔
  Forall (λ p, is_Some (py_index (length water_z) p)) pit_nodes ∧
  (length pit_nodes <= length water_z)%nat ∧
  (length pit_nodes <= length Vw_at_pits)%nat ∧
  (length pit_nodes <= length (cell_area_at_node mg))%nat.
Proof.
  split.
  - intros [l H].
    apply entry_point_inv in H
      as (keys & zw & pio & vio & ar & Hkeys & Hzw & Hpio & Hvio & Har & _).
    pose proof (take_length _ _ _ Hkeys) as Hlen.
    split; [apply take_returns_iff; by eexists|].
    rewrite <- Hlen.
    repeat split; apply (take_argsort_iff _ keys); by eexists.
  - intros (Hpits & Hwz & HVw & Harea).
    apply take_returns_iff in Hpits as [keys Hkeys].
    pose proof (take_length _ _ _ Hkeys) as Hlen. rewrite <- Hlen in *.
    apply (take_argsort_iff water_z keys) in Hwz as [zw Hzw].
    apply (take_argsort_iff Vw_at_pits keys) in HVw as [vio Hvio].
    apply (take_argsort_iff (cell_area_at_node mg) keys) in Harea as [ar Har].
    destruct (proj2 (take_argsort_iff pit_nodes keys)) as [pio Hpio]; [lia|].
    unfold fill_depression_from_pit_discharges.
    rewrite Hkeys. cbn. rewrite Hzw. cbn. rewrite Hpio. cbn.
    rewrite Hvio. cbn. rewrite Har. cbn. by eexists.
Qed.

(** X18. The order of registration: the pits in order are the pits given,
    each as often as it was given, and the water surface read at them
    ascends, the lowest pit first. *)
Theorem entry_point_lowest_pit_first mg pit_nodes Vw_at_pits water_z l :
  fill_depression_from_pit_discharges mg pit_nodes Vw_at_pits water_z = Ok l →
  pit_nodes_in_order l ≡ₚ pit_nodes ∧
  ∃ zs, take water_z (pit_nodes_in_order l) = Ok zs ∧ ascending Qle zs.
Proof.
  intros H.
  apply entry_point_inv in H
    as (keys & zw & pio & vio & ar & Hkeys & Hzw & Hpio & Hvio & Har & ->).
  destruct (register_pits_fixed
              (mkLocals (repeat 0 (number_of_nodes mg))
                 (repeat (-1)%Z (number_of_nodes mg)) pio ∅ ∅ ∅ ∅ ∅ ∅)
              pio vio ar zw) as [_ ->]. cbn.
  pose proof (take_length _ _ _ Hkeys) as Hlen.
  split; [by eapply take_argsort_perm|].
  rewrite (take_take _ _ _ _ _ Hkeys Hpio).
  destruct (proj2 (take_argsort_iff keys keys)) as [zs Hzs]; [lia|].
  exists zs. split; [done|].
  eapply take_ascending; [apply argsort_nonneg|apply argsort_ascending|done].
Qed.

(** X19. What is registered for a pit, for pits given once each.  The pit
    at position [i] of [pit_nodes] gets the volume at position [i] of
    [Vw_at_pits], and as its area and water level the cell area and the
    water surface of node [i], the node whose id is the position, whatever
    the pit is; its balance and loss coefficient are 0 and it is not
    full. *)
Theorem entry_point_registers_by_position
    mg pit_nodes Vw_at_pits water_z l (i : nat) p :
  NoDup pit_nodes →
  fill_depression_from_pit_discharges mg pit_nodes Vw_at_pits water_z = Ok l →
  pit_nodes !! i = Some p →
  ∃ v a z,
    Vw_at_pits !! i = Some v ∧ cell_area_at_node mg !! i = Some a ∧
    water_z !! i = Some z ∧
    vol_rem_at_pit l !! p = Some v ∧
    accum_area_at_pit l !! p = Some a ∧
    lake_water_level l !! p = Some z ∧
    lake_water_volume_balance l !! p = Some 0 ∧
    accum_Ks_at_pit l !! p = Some 0 ∧
    lake_is_full l !! p = Some false.
Proof.
  intros Hnd H Hp.
  apply entry_point_inv in H
    as (keys & zw & pio & vio & ar & Hkeys & Hzw & Hpio & Hvio & Har & ->).
  pose proof (take_length _ _ _ Hkeys) as Hlen.
  assert (Hin : Z.of_nat i ∈ argsort keys).
  { rewrite argsort_perm. apply list_elem_of_fmap. exists i. split; [done|].
    apply elem_of_seq. apply lookup_lt_Some in Hp. lia. }
  apply list_elem_of_lookup in Hin as [j Hj].
  assert (Hread : ∀ (a : list Q) l', take a (argsort keys) = Ok l' →
                    ∃ x, a !! i = Some x ∧ l' !! j = Some x).
  { intros a l' Hl'. destruct (take_lookup _ _ _ _ _ Hl' Hj) as (x & Hx & Hjx).
    exists x. split; [|done].
    apply arr_get_Ok in Hx as (k & Hk & Hx).
    apply py_index_of_nat_Some in Hk. by subst. }
  destruct (Hread _ _ Hvio) as (v & Hv & Hjv).
  destruct (Hread _ _ Har) as (a & Ha & Hja).
  destruct (Hread _ _ Hzw) as (z & Hz & Hjz).
  exists v, a, z. do 3 (split; [done|]).
  apply (register_pits_at _ pio vio ar zw j); try done.
  - rewrite (take_argsort_perm _ _ _ Hlen Hpio). exact Hnd.
  - rewrite (take_lookup_nat _ _ _ _ _ Hpio Hj). exact Hp.
Qed.

(** X20. The entry point claims no node and registers nothing but pits:
    at its end the ownership map holds -1 and the volume map 0 at every
    node of the grid, and an id that is not among the pits is a key of
    none of the six dictionaries. *)
Theorem entry_point_registers_only_pits mg pit_nodes Vw_at_pits water_z l :
  fill_depression_from_pit_discharges mg pit_nodes Vw_at_pits water_z = Ok l →
  lake_map l = repeat (-1)%Z (number_of_nodes mg) ∧
  disch_map l = repeat 0 (number_of_nodes mg) ∧
  ∀ p, p ∉ pit_nodes →
    vol_rem_at_pit l !! p = None ∧ accum_area_at_pit l !! p = None ∧
    lake_water_level l !! p = None ∧
    lake_water_volume_balance l !! p = None ∧
    accum_Ks_at_pit l !! p = None ∧ lake_is_full l !! p = None.
Proof.
  intros H.
  apply entry_point_inv in H
    as (keys & zw & pio & vio & ar & Hkeys & Hzw & Hpio & Hvio & Har & ->).
  pose proof (take_length _ _ _ Hkeys) as Hlen.
  split; [by rewrite register_pits_lake_map|].
  split; [by destruct (register_pits_fixed
                         (mkLocals (repeat 0 (number_of_nodes mg))
                            (repeat (-1)%Z (number_of_nodes mg)) pio
                            ∅ ∅ ∅ ∅ ∅ ∅) pio vio ar zw) as [-> _]|].
  intros p Hp.
  assert (Hp' : p ∉ pio) by by rewrite (take_argsort_perm _ _ _ Hlen Hpio).
  destruct (register_pits_other
              (mkLocals (repeat 0 (number_of_nodes mg))
                 (repeat (-1)%Z (number_of_nodes mg)) pio ∅ ∅ ∅ ∅ ∅ ∅)
              pio vio ar zw p Hp') as (-> & -> & -> & -> & -> & ->).
  by repeat split.
Qed.

End EntryPointExtras.
(** ** The further properties on the examples *)

Section EvaluatorWitnesses.

Import DocEvaluator DocFirstCall.
Local Open Scope Q_scope.

(** The first call of the docstring: node 3, with cell area 4, is flooded
    from empty to a depth of 3 by a lake of area 3 holding 100 units. *)
Lemma doc_first_reads :
  EvalReads before_first 5 3 area_map (Scalar 0, Scalar 0) 3%nat 3 100 4
    (0 * 4) (0 * 4).
Proof. constructor; reflexivity. Qed.

Example doc_first_call :
  _raise_water_level 5 3 area_map 3 (Scalar 0, Scalar 0) true before_first
  = Ok (true, 3, after_first).
Proof. vm_compute. reflexivity. Qed.

Lemma raise_water_level_full_fill_witness :
  ∃ s',
    _raise_water_level 5 3 area_map 3 (Scalar 0, Scalar 0) true before_first
      = Ok (true, 3, s') ∧
    vol_rem_at_pit s' !! 5%Z
      = Some (budget_at_test true 100 (0 * 4)
              - V_increment_to_fill 3 (area_at_test true 3 4) (0 * 4 + 0)) ∧
    accum_Ks_at_pit s' !! 5%Z = Some (0 + 0 * 4) ∧
    accum_area_at_pit s' !! 5%Z = Some (area_at_test true 3 4) ∧
    lake_spill_node s' = lake_spill_node before_first.
Proof.
  apply (raise_water_level_full_fill (Qu := ListQueue.t) 5 3 area_map 3
           (Scalar 0, Scalar 0) true before_first 3%nat 3 100 0 4
           (0 * 4) (0 * 4) doc_first_reads eq_refl).
  - intros _. vm_compute. discriminate.
  - vm_compute. discriminate.
Defined.

(** The third call of the docstring, which answers False. *)
Lemma raise_water_level_owns_node_witness :
  arr_get (lake_map carried_deficit) 6 = Ok 5%Z ∧
  length (lake_map carried_deficit) = length (lake_map before_third) ∧
  ∃ k, py_index (length (lake_map before_third)) 6 = Some k ∧
    ∀ j, j ≠ k → lake_map carried_deficit !! j = lake_map before_third !! j.
Proof.
  exact (raise_water_level_owns_node (Qu := ListQueue.t) 5 6 area_map 1
           (Scalar (-34), Scalar (-3)) true before_third false 0
           carried_deficit doc_third_call).
Defined.

Lemma raise_water_level_frame_witness :
  master_pit_q carried_deficit = master_pit_q before_third ∧
  lake_q_dict carried_deficit = lake_q_dict before_third ∧
  lake_water_level carried_deficit = lake_water_level before_third ∧
  lake_is_full carried_deficit = lake_is_full before_third ∧
  ∀ p, p ≠ 5%Z →
    accum_area_at_pit carried_deficit !! p
      = accum_area_at_pit before_third !! p ∧
    vol_rem_at_pit carried_deficit !! p = vol_rem_at_pit before_third !! p ∧
    accum_Ks_at_pit carried_deficit !! p
      = accum_Ks_at_pit before_third !! p ∧
    lake_spill_node carried_deficit !! p = lake_spill_node before_third !! p.
Proof.
  exact (raise_water_level_frame (Qu := ListQueue.t) 5 6 area_map 1
           (Scalar (-34), Scalar (-3)) true before_third false 0
           carried_deficit doc_third_call).
Defined.

(** The fifth call of the docstring: 65 units against the 130 required
    for a rise of 10. *)
Lemma raise_water_level_partial_bound_witness :
  ∃ dz s',
    _raise_water_level 5 2 area_map 10 per_node_terms true before_fifth
      = Ok (false, dz, s') ∧
    0 <= dz ∧ dz < 10.
Proof.
  apply (raise_water_level_partial_bound (Qu := ListQueue.t) 5 2 area_map 10
           per_node_terms true before_fifth 2%nat 10 61 (-3) 2 4 2
           doc_fifth_reads eq_refl).
  - reflexivity.
  - vm_compute. discriminate.
  - reflexivity.
Defined.

Lemma raise_water_level_spill_and_Ks_witness :
  (false = false →
     accum_Ks_at_pit carried_deficit = accum_Ks_at_pit before_third ∧
     lake_spill_node carried_deficit !! 5%Z = Some (-1)%Z) ∧
  (false = true →
     0 = 1 ∧ lake_spill_node carried_deficit = lake_spill_node before_third).
Proof.
  exact (raise_water_level_spill_and_Ks (Qu := ListQueue.t) 5 6 area_map 1
           (Scalar (-34), Scalar (-3)) true before_third false 0
           carried_deficit doc_third_call).
Defined.

(** The fifth call of the docstring returns: lake 5 is a key of every
    dictionary the call reads and the budget is no deficit. *)
Lemma raise_water_level_returns_when_witness :
  (∀ r, _raise_water_level 5 2 area_map 10 per_node_terms true before_fifth
        = Ok r →
     ∃ k a v cA c K,
       EvalReads before_fifth 5 2 area_map per_node_terms k a v cA c K ∧
       ((true = true ∧ budget_at_test true v c < 0) ∨
        ∃ aK, accum_Ks_at_pit before_fifth !! 5%Z = Some aK)) ∧
  (∀ k a v cA c K,
     EvalReads before_fifth 5 2 area_map per_node_terms k a v cA c K →
     ((true = true ∧ budget_at_test true v c < 0) ∨
      ∃ aK, accum_Ks_at_pit before_fifth !! 5%Z = Some aK ∧
        ¬ (budget_at_test true v c < 0 ∧
           V_increment_to_fill 10 (area_at_test true a cA) (K + aK) == 0)) →
     ∃ r, _raise_water_level 5 2 area_map 10 per_node_terms true before_fifth
          = Ok r).
Proof.
  apply (raise_water_level_returns_when (Qu := ListQueue.t) 5 2 area_map 10
           per_node_terms true before_fifth).
  lia.
Defined.

(** The first call of the docstring has no gains and no losses: the 21
    units that left the budget are the area 7 times the depth 3. *)
Lemma raise_water_level_conserves_witness :
  ∃ v' A', vol_rem_at_pit after_first !! 5%Z = Some v' ∧
    accum_area_at_pit after_first !! 5%Z = Some A' ∧ 100 - v' == A' * 3.
Proof.
  apply (raise_water_level_conserves (Qu := ListQueue.t) 5 3 area_map 3
           (Scalar 0, Scalar 0) true before_first true 3 after_first
           3 100 (0 * 4) (0 * 4) doc_first_call eq_refl eq_refl eq_refl).
  - reflexivity.
  - reflexivity.
  - intros aK HaK. vm_compute in HaK. injection HaK as <-. reflexivity.
  - discriminate.
Defined.

Lemma get_float_terms_constant_array_witness :
  _get_float_water_vol_balance_terms
    (PerNode (repeat (-5) (length area_map)),
     PerNode (repeat 2 (length area_map))) area_map 3
  = _get_float_water_vol_balance_terms (Scalar (-5), Scalar 2) area_map 3.
Proof.
  apply (get_float_terms_constant_array (-5) 2 area_map 3).
  vm_compute. by eexists.
Defined.

End EvaluatorWitnesses.

Section MergeWitnesses.

Import TwoLakes.
Local Open Scope Q_scope.

(** Lake 2 reaches lake 0 at level 2 and is merged into it. *)
Lemma merge_two_lakes_frame_witness :
  ∃ s',
    _merge_two_lakes 2 0 z_topo (state 2) = Ok (0%Z, s') ∧
    (0%Z = 2%Z ∨ 0%Z = 0%Z) ∧
    master_pit_q s' = master_pit_q (state 2) ∧
    (∀ p, p ≠ 2%Z → p ≠ 0%Z →
       lake_q_dict s' !! p = lake_q_dict (state 2) !! p ∧
       lake_water_level s' !! p = lake_water_level (state 2) !! p ∧
       accum_area_at_pit s' !! p = accum_area_at_pit (state 2) !! p ∧
       vol_rem_at_pit s' !! p = vol_rem_at_pit (state 2) !! p ∧
       accum_Ks_at_pit s' !! p = accum_Ks_at_pit (state 2) !! p ∧
       lake_is_full s' !! p = lake_is_full (state 2) !! p ∧
       lake_spill_node s' !! p = lake_spill_node (state 2) !! p) ∧
    (∀ (i : nat) x, lake_map (state 2) !! i = Some x → x ≠ 2%Z → x ≠ 0%Z →
       lake_map s' !! i = Some x) ∧
    (2%Z ≠ 0%Z →
       lake_water_level s' !! 0%Z = lake_water_level (state 2) !! 0%Z ∧
       lake_is_full s' !! 0%Z = lake_is_full (state 2) !! 0%Z).
Proof.
  eexists. split; [vm_compute; reflexivity|].
  apply (merge_two_lakes_frame (Qu := ListQueue.t) 2 0 z_topo (state 2)).
  vm_compute. reflexivity.
Defined.

Lemma merge_retired_id_fails_witness :
  ∃ s',
    _merge_two_lakes 2 0 z_topo (state 2) = Ok (0%Z, s') ∧
    ∃ hi, (hi = 2%Z ∨ hi = 0%Z) ∧ hi ≠ 0%Z ∧
      ∀ p z', _merge_two_lakes hi p z' s' = Err KeyError ∧
              _merge_two_lakes p hi z' s' = Err KeyError.
Proof.
  eexists. split; [vm_compute; reflexivity|].
  apply (merge_retired_id_fails (Qu := ListQueue.t) 2 0 z_topo (state 2)).
  - discriminate.
  - vm_compute. reflexivity.
Defined.

Lemma merge_two_lakes_self_witness :
  ∃ s', _merge_two_lakes 0 0 z_topo (state 2) = Ok (0%Z, s') ∧
    lake_map s' = lake_map (state 2) ∧
    lake_q_dict s' !! 0%Z = None ∧
    lake_water_level s' !! 0%Z = None ∧
    lake_is_full s' !! 0%Z = None ∧
    accum_area_at_pit s' !! 0%Z = Some (1 + 1) ∧
    vol_rem_at_pit s' !! 0%Z = Some (8 + 8) ∧
    accum_Ks_at_pit s' !! 0%Z = Some (-1 + -1) ∧
    lake_spill_node s' !! 0%Z = Some (-1)%Z.
Proof.
  exact (merge_two_lakes_self (Qu := ListQueue.t) 0 z_topo (state 2) _ 0
           (two_lakes_lake_0 2) eq_refl).
Defined.

Lemma merge_two_lakes_argument_order_witness :
  (¬ 1 == 0 →
     _merge_two_lakes 2 0 z_topo (state 2)
     = _merge_two_lakes 0 2 z_topo (state 2)) ∧
  (1 == 0 →
     ∃ s1 s2, _merge_two_lakes 2 0 z_topo (state 2) = Ok (0%Z, s1) ∧
              _merge_two_lakes 0 2 z_topo (state 2) = Ok (2%Z, s2)).
Proof.
  exact (merge_two_lakes_argument_order (Qu := ListQueue.t) 2 0 z_topo
           (state 2) _ _ 1 0 (two_lakes_lake_2 2) (two_lakes_lake_0 2)
           eq_refl eq_refl eq_refl eq_refl).
Defined.

End MergeWitnesses.

Section EngineWitnesses.

Import Trace.
Local Open Scope Q_scope.

(** On [Strip], the call on lake 2 merges it into lake 0. *)
Lemma raise_lake_to_limit_exit_witness :
  ∃ p, (p = 2%Z ∨ lake_water_level strip_after_2 !! 2%Z = None) ∧
       (parked strip_after_2 p ∨
        spilled (init_water_surface Strip.env)
          (2 + 2 * Z.of_nat (length (init_water_surface Strip.env)))
          strip_after_2 p).
Proof.
  exact (raise_lake_to_limit_exit (Qu := ListQueue.t) 10 Strip.env 2
           strip_after_0 strip_after_2 eq_refl strip_second_call).
Defined.

Lemma raise_lake_to_limit_no_new_lakes_witness :
  no_new_lakes strip_after_0 strip_after_2.
Proof.
  exact (raise_lake_to_limit_no_new_lakes (Qu := ListQueue.t) 10 Strip.env 2
           strip_after_0 strip_after_2 strip_second_call).
Defined.

(** On [UsedUp] the queue of lake 0 gives node 0 and then node 1, which
    the lake owns, and nothing else. *)
Lemma raise_lake_to_limit_frontier_used_up_witness :
  _raise_lake_to_limit 5 UsedUp.env 0 UsedUp.start = Err KeyError.
Proof.
  apply (raise_lake_to_limit_frontier_used_up (Qu := ListQueue.t) 5
           UsedUp.env 0 UsedUp.start [(1, 0%Z); (1, 1%Z)] 0 [(1, 1%Z)]
           [1%Z] [] KeyError).
  - reflexivity.
  - reflexivity.
  - reflexivity.
  - exists []. split; reflexivity.
  - reflexivity.
  - constructor; [|constructor]. exists 0%Z. split; [reflexivity|].
    vm_compute. split; [discriminate|reflexivity].
  - cbn. lia.
Defined.

End EngineWitnesses.

Section EntryPointWitnesses.

Import EntryPoint.
Local Open Scope Q_scope.

(** The three pits 3, 1 and 4 stand at 5, 2 and 1: they are registered in
    the order 4, 1, 3. *)
Lemma entry_point_lowest_pit_first_witness :
  ∃ l,
    fill_depression_from_pit_discharges ThreePits.mg ThreePits.pit_nodes
      ThreePits.Vw_at_pits ThreePits.water_z = Ok l ∧
    pit_nodes_in_order l ≡ₚ ThreePits.pit_nodes ∧
    ∃ zs, take ThreePits.water_z (pit_nodes_in_order l) = Ok zs ∧
          ascending Qle zs.
Proof.
  eexists. split; [vm_compute; reflexivity|].
  apply (entry_point_lowest_pit_first ThreePits.mg ThreePits.pit_nodes
           ThreePits.Vw_at_pits ThreePits.water_z).
  vm_compute. reflexivity.
Defined.

(** Pit 3 is the first of the three: it gets the volume 10, and the cell
    area 1 and the water surface 7 of node 0. *)
Lemma entry_point_registers_by_position_witness :
  ∃ l,
    fill_depression_from_pit_discharges ThreePits.mg ThreePits.pit_nodes
      ThreePits.Vw_at_pits ThreePits.water_z = Ok l ∧
    ∃ v a z,
      ThreePits.Vw_at_pits !! 0%nat = Some v ∧
      cell_area_at_node ThreePits.mg !! 0%nat = Some a ∧
      ThreePits.water_z !! 0%nat = Some z ∧
      vol_rem_at_pit l !! 3%Z = Some v ∧
      accum_area_at_pit l !! 3%Z = Some a ∧
      lake_water_level l !! 3%Z = Some z ∧
      lake_water_volume_balance l !! 3%Z = Some 0 ∧
      accum_Ks_at_pit l !! 3%Z = Some 0 ∧
      lake_is_full l !! 3%Z = Some false.
Proof.
  eexists. split; [vm_compute; reflexivity|].
  apply (entry_point_registers_by_position ThreePits.mg ThreePits.pit_nodes
           ThreePits.Vw_at_pits ThreePits.water_z).
  - apply (bool_decide_unpack _). vm_compute. exact I.
  - vm_compute. reflexivity.
  - reflexivity.
Defined.

Lemma entry_point_registers_only_pits_witness :
  ∃ l,
    fill_depression_from_pit_discharges ThreePits.mg ThreePits.pit_nodes
      ThreePits.Vw_at_pits ThreePits.water_z = Ok l ∧
    lake_map l = repeat (-1)%Z (number_of_nodes ThreePits.mg) ∧
    disch_map l = repeat 0 (number_of_nodes ThreePits.mg) ∧
    ∀ p, p ∉ ThreePits.pit_nodes →
      vol_rem_at_pit l !! p = None ∧ accum_area_at_pit l !! p = None ∧
      lake_water_level l !! p = None ∧
      lake_water_volume_balance l !! p = None ∧
      accum_Ks_at_pit l !! p = None ∧ lake_is_full l !! p = None.
Proof.
  eexists. split; [vm_compute; reflexivity|].
  apply (entry_point_registers_only_pits ThreePits.mg ThreePits.pit_nodes
           ThreePits.Vw_at_pits ThreePits.water_z).
  vm_compute. reflexivity.
Defined.

End EntryPointWitnesses.
